(** * DNS resource records and the zone-text scanner

    A shallow embedding of package [rr] (rr/rr.go) and of the scanner of
    package [zone] (zone/scanner.l), with the properties of the record codec,
    the record-set algebra and the lexer settled against it.

    Conventions.
    - A Go [[]byte] is a [list ascii]; a Go [string] is a [string].
    - [uint16] and [uint32] values are [N] (range stated where it matters),
      [int32] is [Z]; conversions between widths wrap and the wrap is written
      out ([byte_of_N], [int32_of_uint32], ...).
    - A Go [*int] cursor is a [nat] threaded through the decoders.
    - [os.Error] is [option string]; [None] is [nil].
    - A call that may panic or call [log.Fatalf] returns an [outcome]. *)

From Stdlib Require Import String Ascii ZArith NArith Arith Bool Lia List.
From Stdlib Require Import DecimalString Permutation.
Import ListNotations.

Local Open Scope string_scope.
Local Open Scope list_scope.

(** ** Bytes, errors and outcomes *)

Definition byte := ascii.
Definition bytes := list byte.

Definition byte_of_N (n : N) : byte := ascii_of_N (n mod 256).
Definition N_of_byte (c : byte) : N := N_of_ascii c.

Definition bytes_of_string (s : string) : bytes := list_ascii_of_string s.
Definition string_of_bytes (l : bytes) : string := string_of_list_ascii l.

(** [os.Error] *)
Definition error := option string.

Inductive outcome (A : Type) : Type :=
| Ok (a : A)
| Panic (msg : string)
| Fatal (msg : string).
Arguments Ok {A} a.
Arguments Panic {A} msg.
Arguments Fatal {A} msg.

Definition obind {A B} (m : outcome A) (k : A -> outcome B) : outcome B :=
  match m with
  | Ok a => k a
  | Panic e => Panic e
  | Fatal e => Fatal e
  end.

Notation "x <- m ;; k" := (obind m (fun x => k))
  (at level 61, m at next level, right associativity).

(** Decimal rendering of [%d]. *)
Definition itoa (z : Z) : string := NilZero.string_of_int (Z.to_int z).

(** ** strings.ToLower and letter case

    Names are compared after [strings.ToLower], which is
    [strings.Map(unicode.ToLower, s)]: the text is read rune by rune, every
    rune is mapped to its lower case, and the runes are written back as
    UTF-8.  The UTF-8 codec and the case tables are those of the library;
    they are taken as an interface. *)
Class Unicode : Type := {
  (** the runes of [for _, c := range s] *)
  runes : string -> list N;
  (** the UTF-8 text of a sequence of runes *)
  of_runes : list N -> string;
  (** [unicode.ToLower] *)
  unicode_ToLower : N -> N
}.

Definition ToLower {UC : Unicode} (s : string) : string :=
  of_runes (map unicode_ToLower (runes s)).

(** Two runes that are the same letter in either case, or the same rune:
    they have one lower case. *)
Definition same_letter {UC : Unicode} (c d : N) : Prop :=
  unicode_ToLower c = unicode_ToLower d.

(** [s] and [t] differ only in letter case: they have as many runes, and
    rune by rune the same letter. *)
Definition case_variant {UC : Unicode} (s t : string) : Prop :=
  Forall2 same_letter (runes s) (runes t).

(** ** The wire buffer and the primitive codec (package dns)

    [dns.Wirebuf] is the output buffer of every [Encode]; besides the bytes it
    carries the state of name compression, of which this development needs
    the on/off switch used by [RRSIG.Encode]. *)

Record Wirebuf : Type := { Buf : bytes; Zip : bool }.

Definition newWirebuf : Wirebuf := {| Buf := []; Zip := true |}.

Definition wappend (b : Wirebuf) (l : bytes) : Wirebuf :=
  {| Buf := Buf b ++ l; Zip := Zip b |}.

Definition DisableCompression (b : Wirebuf) : Wirebuf :=
  {| Buf := Buf b; Zip := false |}.

Definition EnableCompression (b : Wirebuf) : Wirebuf :=
  {| Buf := Buf b; Zip := true |}.

(** Result of a primitive [Decode(b, pos)]: the decoded value and the
    advanced cursor, or an error that leaves receiver and cursor as they
    were. *)
Inductive decoded (A : Type) : Type :=
| Ret (v : A) (pos : nat)
| Fail (err : string).
Arguments Ret {A} v pos.
Arguments Fail {A} err.

Definition byte_at (b : bytes) (p : nat) : N := N_of_byte (nth p b zero).

(** Modelled from the spec: package dns is not part of the sources; its
    [Octet], [Octets2] and [Octets4] are the fixed-width big-endian integers
    of the wire format, whose decoders fail on a buffer shorter than the
    field (the shape [ip4.Decode] has in rr.go). *)
Definition Octet_Encode (n : N) (b : Wirebuf) : Wirebuf :=
  wappend b [byte_of_N n].

Definition Octet_Decode (b : bytes) (pos : nat) : decoded N :=
  if Nat.ltb (length b) (pos + 1) then Fail "Octet.Decode() - buffer underflow"
  else Ret (byte_at b pos) (pos + 1).

Definition Octets2_Encode (n : N) (b : Wirebuf) : Wirebuf :=
  wappend b [byte_of_N (N.shiftr n 8); byte_of_N n].

Definition Octets2_Decode (b : bytes) (pos : nat) : decoded N :=
  if Nat.ltb (length b) (pos + 2) then Fail "Octets2.Decode() - buffer underflow"
  else Ret (N.lor (N.shiftl (byte_at b pos) 8) (byte_at b (pos + 1))) (pos + 2).

Definition Octets4_Encode (n : N) (b : Wirebuf) : Wirebuf :=
  wappend b [byte_of_N (N.shiftr n 24); byte_of_N (N.shiftr n 16);
            byte_of_N (N.shiftr n 8); byte_of_N n].

Definition Octets4_Decode (b : bytes) (pos : nat) : decoded N :=
  if Nat.ltb (length b) (pos + 4) then Fail "Octets4.Decode() - buffer underflow"
  else Ret (N.lor (N.shiftl (byte_at b pos) 24)
           (N.lor (N.shiftl (byte_at b (pos + 1)) 16)
           (N.lor (N.shiftl (byte_at b (pos + 2)) 8)
                  (byte_at b (pos + 3))))) (pos + 4).

(** Conversions between [int32] and [uint32]. *)
Definition uint32_of_int32 (z : Z) : N := Z.to_N (z mod 2 ^ 32).
Definition int32_of_uint32 (n : N) : Z :=
  if N.ltb n (2 ^ 31) then Z.of_N n else (Z.of_N n - 2 ^ 32)%Z.

(** Modelled from the spec: [dns.CharString] is a length-prefixed character
    string, one length octet followed by that many octets. *)
Definition CharString_Encode (s : string) (b : Wirebuf) : Wirebuf :=
  wappend (wappend b [byte_of_N (N.of_nat (String.length s))]) (bytes_of_string s).

Definition CharString_Decode (b : bytes) (pos : nat) : decoded string :=
  if Nat.ltb (length b) (pos + 1) then Fail "CharString.Decode() - buffer underflow"
  else
    let n := N.to_nat (byte_at b pos) in
    if Nat.ltb (length b) (pos + 1 + n) then Fail "CharString.Decode() - buffer underflow"
    else Ret (string_of_bytes (firstn n (skipn (pos + 1) b))) (pos + 1 + n).

(** [dns.DomainName]: the (possibly compressing) name codec is a collaborator
    of this package; it is taken as an interface. *)
Class DomainName : Type := {
  DomainName_Encode : string -> Wirebuf -> Wirebuf;
  DomainName_Decode : bytes -> nat -> decoded string
}.

(** What the record codec relies on: encoding appends to the buffer and keeps
    the compression switch, and a name the codec accepts is read back from the
    place it was written to, whatever follows it. *)
Record DomainNameLaws (DN : DomainName) (legal : string -> Prop) : Prop := {
  dn_appends : forall n w, exists e,
      DomainName_Encode n w = {| Buf := Buf w ++ e; Zip := Zip w |};
  dn_roundtrip : forall n w e rest,
      legal n ->
      Buf (DomainName_Encode n w) = Buf w ++ e ->
      DomainName_Decode (Buf w ++ e ++ rest) (length (Buf w))
      = Ret n (length (Buf w) + length e)
}.

(** ** Struct decoders

    A [Decode] method fills its receiver field by field and moves the cursor;
    it returns the error of the step that failed, with whatever was filled by
    then left in the receiver. *)
Definition Dec (D : Type) : Type := D -> nat -> outcome (D * nat * error).

(** [if err = m; err != nil { return }; k] *)
Definition andThen {D} (m k : Dec D) : Dec D := fun d pos =>
  match m d pos with
  | Ok (d', pos', None) => k d' pos'
  | r => r
  end.

(** [if m; err != nil { return }; k] where [err] is not assigned by [m] and is
    still [nil] from the checks before: the result of [m] is dropped. *)
Definition dropErr {D} (m k : Dec D) : Dec D := fun d pos =>
  match m d pos with
  | Ok (d', pos', _) => k d' pos'
  | r => r
  end.

(** Decode one field into the receiver. *)
Definition field {D A} (dec : bytes -> nat -> decoded A) (set : A -> D -> D)
    (b : bytes) : Dec D := fun d pos =>
  match dec b pos with
  | Ret v pos' => Ok (set v d, pos', None)
  | Fail e => Ok (d, pos, Some e)
  end.

Definition done {D} : Dec D := fun d pos => Ok (d, pos, None).

Notation "m >> k" := (andThen m k) (at level 62, right associativity).

(** ** net.IP

    [net.IP] is a byte slice; [nil] results are [None]. *)
Definition IP := bytes.

Definition x00 : byte := zero.
Definition xff : byte := ascii_of_N 255.

(** [net.IPv4(a, b, c, d)]: the address in its 16-byte form. *)
Definition IPv4 (a b c d : byte) : IP :=
  [x00; x00; x00; x00; x00; x00; x00; x00; x00; x00; xff; xff; a; b; c; d].

Definition byte_eqb (x y : byte) : bool := Ascii.eqb x y.

Definition isZeros (p : bytes) : bool := forallb (fun c => byte_eqb c x00) p.

(** [ip.To4()] *)
Definition To4 (ip : IP) : option IP :=
  if Nat.eqb (length ip) 4 then Some ip
  else if (Nat.eqb (length ip) 16 && isZeros (firstn 10 ip)
           && byte_eqb (nth 10 ip x00) xff && byte_eqb (nth 11 ip x00) xff)%bool
       then Some (firstn 4 (skipn 12 ip))
       else None.

(** [ip.To16()] *)
Definition To16 (ip : IP) : option IP :=
  if Nat.eqb (length ip) 4
  then Some (IPv4 (nth 0 ip x00) (nth 1 ip x00) (nth 2 ip x00) (nth 3 ip x00))
  else if Nat.eqb (length ip) 16 then Some ip
       else None.

(** [append(buf, p...)] with [p] possibly [nil] *)
Definition orNil (p : option bytes) : bytes :=
  match p with Some l => l | None => [] end.

(** The text form of a 16-byte address that is not an IPv4 address is left to
    package net. *)
Class NetText : Type := { ipv6_text : IP -> string }.

Definition dotted (p4 : IP) : string :=
  itoa (Z.of_N (byte_at p4 0)) ++ "." ++ itoa (Z.of_N (byte_at p4 1)) ++ "." ++
  itoa (Z.of_N (byte_at p4 2)) ++ "." ++ itoa (Z.of_N (byte_at p4 3)).

(** [ip.String()] *)
Definition IP_String {NT : NetText} (ip : IP) : string :=
  if Nat.eqb (length ip) 0 then ""
  else match To4 ip with
       | Some p4 => dotted p4
       | None => if Nat.eqb (length ip) 16 then ipv6_text ip else "?"
       end.

(** ** Package rr *)

Definition asserts : bool := false.

(** *** Type and Class *)

Definition RRType := N.
Bind Scope N_scope with RRType.

Definition TYPE_A : RRType := 1%N.
Definition TYPE_NS : RRType := 2%N.
Definition TYPE_MD : RRType := 3%N.
Definition TYPE_MF : RRType := 4%N.
Definition TYPE_CNAME : RRType := 5%N.
Definition TYPE_SOA : RRType := 6%N.
Definition TYPE_MB : RRType := 7%N.
Definition TYPE_MG : RRType := 8%N.
Definition TYPE_MR : RRType := 9%N.
Definition TYPE_NULL : RRType := 10%N.
Definition TYPE_WKS : RRType := 11%N.
Definition TYPE_PTR : RRType := 12%N.
Definition TYPE_HINFO : RRType := 13%N.
Definition TYPE_MINFO : RRType := 14%N.
Definition TYPE_MX : RRType := 15%N.
Definition TYPE_TXT : RRType := 16%N.
Definition TYPE_AAAA : RRType := 28%N.
Definition TYPE_DS : RRType := 43%N.
Definition TYPE_RRSIG : RRType := 46%N.
Definition TYPE_NSEC : RRType := 47%N.
Definition TYPE_DNSKEY : RRType := 48%N.
Definition TYPE_NSEC3 : RRType := 50%N.
Definition TYPE_NSEC3PARAM : RRType := 51%N.
Definition TYPE_NODATA : RRType := 65280%N.
Definition TYPE_NXDOMAIN : RRType := 65281%N.

(** [typeStr], a map literal, as an association list. *)
Definition typeStr : list (RRType * string) :=
  [ (TYPE_A, "A"); (TYPE_AAAA, "AAAA"); (TYPE_CNAME, "CNAME");
    (TYPE_DNSKEY, "DNSKEY"); (TYPE_DS, "DS"); (TYPE_HINFO, "HINFO");
    (TYPE_MB, "MB"); (TYPE_MD, "MD"); (TYPE_MF, "MF"); (TYPE_MG, "MG");
    (TYPE_MINFO, "MINFO"); (TYPE_MR, "MR"); (TYPE_MX, "MX"); (TYPE_NS, "NS");
    (TYPE_NSEC, "NSEC"); (TYPE_NSEC3, "NSEC3");
    (TYPE_NSEC3PARAM, "NSEC3PARAM"); (TYPE_NULL, "NULL"); (TYPE_PTR, "PTR");
    (TYPE_RRSIG, "RRSIG"); (TYPE_SOA, "SOA"); (TYPE_TXT, "TXT");
    (TYPE_WKS, "WKS"); (TYPE_NODATA, "NODATA"); (TYPE_NXDOMAIN, "NXDOMAIN") ].

Fixpoint lookup {V} (k : N) (m : list (N * V)) : option V :=
  match m with
  | [] => None
  | (k', v) :: r => if N.eqb k k' then Some v else lookup k r
  end.

(** [func (n Type) String() string] *)
Definition Type_String (n : RRType) : outcome string :=
  match lookup n typeStr with
  | Some s => Ok s
  | None => Panic ("unexpected Type " ++ itoa (Z.of_N n))
  end.

Definition Type_Encode (n : RRType) (b : Wirebuf) : Wirebuf := Octets2_Encode n b.
Definition Type_Decode (b : bytes) (pos : nat) : decoded RRType := Octets2_Decode b pos.

Definition RRClass := N.
Bind Scope N_scope with RRClass.

Definition CLASS_NONE : RRClass := 0%N.
Definition CLASS_IN : RRClass := 1%N.
Definition CLASS_CS : RRClass := 2%N.
Definition CLASS_CH : RRClass := 3%N.
Definition CLASS_HS : RRClass := 4%N.

Definition classStr : list (RRClass * string) :=
  [ (CLASS_NONE, ""); (CLASS_IN, "IN"); (CLASS_CS, "CS"); (CLASS_CH, "CH");
    (CLASS_HS, "HS") ].

Definition Class_String (n : RRClass) : outcome string :=
  match lookup n classStr with
  | Some s => Ok s
  | None => Panic ("unexpected Class " ++ itoa (Z.of_N n))
  end.

Definition Class_Encode (n : RRClass) (b : Wirebuf) : Wirebuf := Octets2_Encode n b.
Definition Class_Decode (b : bytes) (pos : nat) : decoded RRClass := Octets2_Decode b pos.

Definition HashAlgorithmReserved : N := 0%N.
Definition HashAlgorithmSHA1 : N := 1%N.

(** *** ip4 and ip6 *)

Module ip4.
Section ip4.
Context {NT : NetText}.

(** [Encode] for a given value of the package constant [asserts]. *)
Definition EncodeWith (assertions : bool) (d : IP) (b : Wirebuf) : outcome Wirebuf :=
  let b4 := To4 d in
  if (assertions && match b4 with None => true | Some _ => false end)%bool
  then Panic (IP_String d ++ " is not an IPv4 address")
  else Ok (wappend b (orNil b4)).

Definition Encode : IP -> Wirebuf -> outcome Wirebuf := EncodeWith asserts.

Definition Decode (b : bytes) (pos : nat) : decoded IP :=
  let p := pos in
  if Nat.ltb (length b) (p + 4) then Fail "ip4.Decode() - buffer underflow"
  else Ret (IPv4 (nth p b x00) (nth (p + 1) b x00) (nth (p + 2) b x00)
                 (nth (p + 3) b x00)) (p + 4).
End ip4.
End ip4.

Module ip6.
Section ip6.
Context {NT : NetText}.

Definition EncodeWith (assertions : bool) (d : IP) (b : Wirebuf) : outcome Wirebuf :=
  let b16 := To16 d in
  if (assertions && match b16 with None => true | Some _ => false end)%bool
  then Panic (string_of_bytes d ++ " is not an IPv6 address")
  else Ok (wappend b (orNil b16)).

Definition Encode : IP -> Wirebuf -> outcome Wirebuf := EncodeWith asserts.

(** a fresh 16-byte slice filled by [copy] from [b[p:]] *)
Definition Decode (b : bytes) (pos : nat) : decoded IP :=
  let p := pos in
  if Nat.ltb (length b) (p + 16) then Fail "ip6.Decode() - buffer underflow"
  else Ret (firstn 16 (skipn p b)) (p + 16).
End ip6.
End ip6.

(** Further steps of a struct decoder. *)

(** A decoded value kept in a local variable. *)
Definition local {D A} (dec : bytes -> nat -> decoded A) (b : bytes)
    (k : A -> Dec D) : Dec D := fun d pos =>
  match dec b pos with
  | Ret v pos' => k v d pos'
  | Fail e => Ok (d, pos, Some e)
  end.

(** [Decode] of an embedded struct. *)
Definition embedded {D S} (get : D -> S) (set : S -> D -> D) (m : Dec S) : Dec D :=
  fun d pos =>
    match m (get d) pos with
    | Ok (s, pos', err) => Ok (set s d, pos', err)
    | Panic e => Panic e
    | Fatal e => Fatal e
    end.

(** *** The RDATA variants *)

Module A.
Section A.
Context {NT : NetText}.
Record t : Type := { Address : IP }.
Definition zero : t := {| Address := [] |}.

Definition Encode (d : t) (b : Wirebuf) : outcome Wirebuf :=
  ip4.Encode (Address d) b.

Definition Decode (b : bytes) : Dec t :=
  field ip4.Decode (fun v _ => {| Address := v |}) b.
End A.
End A.

Module AAAA.
Section AAAA.
Context {NT : NetText}.
Record t : Type := { Address : IP }.
Definition zero : t := {| Address := [] |}.

Definition Encode (d : t) (b : Wirebuf) : outcome Wirebuf :=
  ip6.Encode (Address d) b.

Definition Decode (b : bytes) : Dec t :=
  field ip6.Decode (fun v _ => {| Address := v |}) b.
End AAAA.
End AAAA.

Module CNAME.
Section CNAME.
Context {DN : DomainName}.
Record t : Type := { Name : string }.
Definition zero : t := {| Name := "" |}.

Definition Encode (c : t) (b : Wirebuf) : outcome Wirebuf :=
  Ok (DomainName_Encode (Name c) b).

Definition Decode (b : bytes) : Dec t :=
  field DomainName_Decode (fun v _ => {| Name := v |}) b.
End CNAME.
End CNAME.

Module DNSKEY.
Record t : Type := { Flags : N; Protocol : N; Algorithm : N; Key : bytes }.
Definition zero : t := {| Flags := 0; Protocol := 0; Algorithm := 0; Key := [] |}.

Definition set_Flags v d :=
  {| Flags := v; Protocol := Protocol d; Algorithm := Algorithm d; Key := Key d |}.
Definition set_Protocol v d :=
  {| Flags := Flags d; Protocol := v; Algorithm := Algorithm d; Key := Key d |}.
Definition set_Algorithm v d :=
  {| Flags := Flags d; Protocol := Protocol d; Algorithm := v; Key := Key d |}.
Definition set_Key v d :=
  {| Flags := Flags d; Protocol := Protocol d; Algorithm := Algorithm d; Key := v |}.

Definition Encode (d : t) (b : Wirebuf) : outcome Wirebuf :=
  let b := Octets2_Encode (Flags d) b in
  let b := Octet_Encode (Protocol d) b in
  let b := Octet_Encode (Algorithm d) b in
  Ok (wappend b (Key d)).

Definition Decode (b : bytes) : Dec t :=
  field Octets2_Decode set_Flags b >>
  field Octet_Decode set_Protocol b >>
  field Octet_Decode set_Algorithm b >>
  fun d pos =>
    let n := (Z.of_nat (length b) - Z.of_nat pos)%Z in
    if (n <=? 0)%Z then Ok (d, pos, Some "(*DNSKEY).Decode: no key data")
    else Ok (set_Key (skipn pos b) d, pos + Z.to_nat n, None).
End DNSKEY.

Module DS.
Record t : Type :=
  { KeyTag : N; AlgorithmType : N; DigestType : N; Digest : bytes }.
Definition zero : t :=
  {| KeyTag := 0; AlgorithmType := 0; DigestType := 0; Digest := [] |}.

Definition set_KeyTag v d :=
  {| KeyTag := v; AlgorithmType := AlgorithmType d; DigestType := DigestType d;
     Digest := Digest d |}.
Definition set_AlgorithmType v d :=
  {| KeyTag := KeyTag d; AlgorithmType := v; DigestType := DigestType d;
     Digest := Digest d |}.
Definition set_DigestType v d :=
  {| KeyTag := KeyTag d; AlgorithmType := AlgorithmType d; DigestType := v;
     Digest := Digest d |}.
Definition set_Digest v d :=
  {| KeyTag := KeyTag d; AlgorithmType := AlgorithmType d;
     DigestType := DigestType d; Digest := v |}.

Definition Encode (d : t) (b : Wirebuf) : outcome Wirebuf :=
  let b := Octets2_Encode (KeyTag d) b in
  let b := Octet_Encode (AlgorithmType d) b in
  let b := Octet_Encode (DigestType d) b in
  Ok (wappend b (Digest d)).

Definition Decode (b : bytes) : Dec t :=
  field Octets2_Decode set_KeyTag b >>
  field Octet_Decode set_AlgorithmType b >>
  field Octet_Decode set_DigestType b >>
  fun d pos =>
    if N.eqb (DigestType d) HashAlgorithmSHA1 then
      let n := 20 in
      let end_ := pos + n in
      if Nat.ltb (length b) end_ then Ok (d, pos, Some "DS.Decode - buffer underflow")
      else Ok (set_Digest (firstn n (skipn pos b)) d, end_, None)
    else Ok (d, pos, Some ("unsupported digest type " ++ itoa (Z.of_N (DigestType d)))%string).
End DS.

Module MX.
Section MX.
Context {DN : DomainName}.
Record t : Type := { Preference : N; Exchange : string }.
Definition zero : t := {| Preference := 0; Exchange := "" |}.

Definition set_Preference v d := {| Preference := v; Exchange := Exchange d |}.
Definition set_Exchange v d := {| Preference := Preference d; Exchange := v |}.

Definition Encode (d : t) (b : Wirebuf) : outcome Wirebuf :=
  let b := Octets2_Encode (Preference d) b in
  Ok (DomainName_Encode (Exchange d) b).

Definition Decode (b : bytes) : Dec t :=
  field Octets2_Decode set_Preference b >>
  field DomainName_Decode set_Exchange b.
End MX.
End MX.

Module NODATA.
Record t : Type := { Type_ : RRType }.
Definition zero : t := {| Type_ := 0%N |}.

Definition Encode (d : t) (b : Wirebuf) : outcome Wirebuf :=
  Ok (Type_Encode (Type_ d) b).

Definition Decode (b : bytes) : Dec t :=
  field Type_Decode (fun v _ => {| Type_ := v |}) b.
End NODATA.

Module NXDOMAIN.
Record t : Type := { }.
Definition zero : t := Build_t.

Definition Encode (d : t) (b : Wirebuf) : outcome Wirebuf := Ok b.

Definition Decode (b : bytes) : Dec t := done.
End NXDOMAIN.

Module NS.
Section NS.
Context {DN : DomainName}.
Record t : Type := { NSDName : string }.
Definition zero : t := {| NSDName := "" |}.

Definition Encode (d : t) (b : Wirebuf) : outcome Wirebuf :=
  Ok (DomainName_Encode (NSDName d) b).

Definition Decode (b : bytes) : Dec t :=
  field DomainName_Decode (fun v _ => {| NSDName := v |}) b.
End NS.
End NS.

Module NSEC3PARAM.
Record t : Type :=
  { HashAlgorithm : N; Flags : N; Iterations : N; Salt : bytes }.
Definition zero : t :=
  {| HashAlgorithm := 0; Flags := 0; Iterations := 0; Salt := [] |}.

Definition set_HashAlgorithm v d :=
  {| HashAlgorithm := v; Flags := Flags d; Iterations := Iterations d;
     Salt := Salt d |}.
Definition set_Flags v d :=
  {| HashAlgorithm := HashAlgorithm d; Flags := v; Iterations := Iterations d;
     Salt := Salt d |}.
Definition set_Iterations v d :=
  {| HashAlgorithm := HashAlgorithm d; Flags := Flags d; Iterations := v;
     Salt := Salt d |}.
Definition set_Salt v d :=
  {| HashAlgorithm := HashAlgorithm d; Flags := Flags d;
     Iterations := Iterations d; Salt := v |}.

Definition Encode (d : t) (b : Wirebuf) : outcome Wirebuf :=
  let b := Octet_Encode (HashAlgorithm d) b in
  let b := Octet_Encode (Flags d) b in
  let b := Octets2_Encode (Iterations d) b in
  if (asserts && Nat.ltb 255 (length (Salt d)))%bool then Panic "internal error"
  else
    let b := Octet_Encode (N.of_nat (length (Salt d))) b in
    Ok (wappend b (Salt d)).

Definition Decode (b : bytes) : Dec t :=
  field Octet_Decode set_HashAlgorithm b >>
  field Octet_Decode set_Flags b >>
  field Octets2_Decode set_Iterations b >>
  local Octet_Decode b (fun n d pos =>
    let p := pos in
    let next := p + N.to_nat n in
    if Nat.ltb (length b) next
    then Ok (d, pos, Some "NSEC3PARAM.Decode() - buffer underflow")
    else Ok (set_Salt (firstn (N.to_nat n) (skipn p b)) d, next, None)).
End NSEC3PARAM.

Module NSEC3.
Record t : Type :=
  { PARAM : NSEC3PARAM.t; NextHashedOwnerName : bytes; TypeBitMaps : bytes }.
Definition zero : t :=
  {| PARAM := NSEC3PARAM.zero; NextHashedOwnerName := []; TypeBitMaps := [] |}.

Definition set_PARAM v d :=
  {| PARAM := v; NextHashedOwnerName := NextHashedOwnerName d;
     TypeBitMaps := TypeBitMaps d |}.
Definition set_NextHashedOwnerName v d :=
  {| PARAM := PARAM d; NextHashedOwnerName := v; TypeBitMaps := TypeBitMaps d |}.
Definition set_TypeBitMaps v d :=
  {| PARAM := PARAM d; NextHashedOwnerName := NextHashedOwnerName d;
     TypeBitMaps := v |}.

Definition Encode (d : t) (b : Wirebuf) : outcome Wirebuf :=
  b <- NSEC3PARAM.Encode (PARAM d) b ;;
  let n := N.of_nat (length (NextHashedOwnerName d)) in
  let b := Octets2_Encode n b in
  let b := wappend b (NextHashedOwnerName d) in
  Ok (wappend b (TypeBitMaps d)).

Definition Decode (b : bytes) : Dec t :=
  embedded PARAM set_PARAM (NSEC3PARAM.Decode b) >>
  local Octets2_Decode b (fun n d pos =>
    let in_ := N.to_nat n in
    if Nat.ltb (length b) (pos + in_)
    then Ok (d, pos, Some "rr.*NSEC3.Decode - buffer underflow")
    else
      let d := set_NextHashedOwnerName (firstn in_ (skipn pos b)) d in
      let pos := pos + in_ in
      let end_ := length b in
      let d := set_TypeBitMaps (firstn (end_ - pos) (skipn pos b)) d in
      Ok (d, end_, None)).
End NSEC3.

Module PTR.
Section PTR.
Context {DN : DomainName}.
Record t : Type := { PTRDName : string }.
Definition zero : t := {| PTRDName := "" |}.

Definition Encode (d : t) (b : Wirebuf) : outcome Wirebuf :=
  Ok (DomainName_Encode (PTRDName d) b).

Definition Decode (b : bytes) : Dec t :=
  field DomainName_Decode (fun v _ => {| PTRDName := v |}) b.
End PTR.
End PTR.

(** RDATA of an unknown or unsupported RR type. *)
Module RDATA.
Definition t : Type := bytes.
Definition zero : t := [].

Definition Encode (d : t) (b : Wirebuf) : outcome Wirebuf := Ok (wappend b d).

(** [b[pos:]] panics for a cursor beyond the slice. *)
Definition Decode (b : bytes) : Dec t := fun d pos =>
  if Nat.ltb (length b) pos then Panic "slice bounds out of range"
  else
    let n := length b - pos in
    Ok (skipn pos b, pos + n, None).
End RDATA.

Module RRSIG.
Section RRSIG.
Context {DN : DomainName}.
Record t : Type :=
  { Type_ : RRType; AlgorithmType : N; Labels : N; TTL : Z; Expiration : N;
    Inception : N; KeyTag : N; Name : string; Signature : bytes }.
Definition zero : t :=
  {| Type_ := 0%N; AlgorithmType := 0; Labels := 0; TTL := 0; Expiration := 0;
     Inception := 0; KeyTag := 0; Name := ""; Signature := [] |}.

Definition set_Type v d :=
  {| Type_ := v; AlgorithmType := AlgorithmType d; Labels := Labels d;
     TTL := TTL d; Expiration := Expiration d; Inception := Inception d;
     KeyTag := KeyTag d; Name := Name d; Signature := Signature d |}.
Definition set_AlgorithmType v d :=
  {| Type_ := Type_ d; AlgorithmType := v; Labels := Labels d;
     TTL := TTL d; Expiration := Expiration d; Inception := Inception d;
     KeyTag := KeyTag d; Name := Name d; Signature := Signature d |}.
Definition set_Labels v d :=
  {| Type_ := Type_ d; AlgorithmType := AlgorithmType d; Labels := v;
     TTL := TTL d; Expiration := Expiration d; Inception := Inception d;
     KeyTag := KeyTag d; Name := Name d; Signature := Signature d |}.
Definition set_TTL v d :=
  {| Type_ := Type_ d; AlgorithmType := AlgorithmType d; Labels := Labels d;
     TTL := v; Expiration := Expiration d; Inception := Inception d;
     KeyTag := KeyTag d; Name := Name d; Signature := Signature d |}.
Definition set_Expiration v d :=
  {| Type_ := Type_ d; AlgorithmType := AlgorithmType d; Labels := Labels d;
     TTL := TTL d; Expiration := v; Inception := Inception d;
     KeyTag := KeyTag d; Name := Name d; Signature := Signature d |}.
Definition set_Inception v d :=
  {| Type_ := Type_ d; AlgorithmType := AlgorithmType d; Labels := Labels d;
     TTL := TTL d; Expiration := Expiration d; Inception := v;
     KeyTag := KeyTag d; Name := Name d; Signature := Signature d |}.
Definition set_KeyTag v d :=
  {| Type_ := Type_ d; AlgorithmType := AlgorithmType d; Labels := Labels d;
     TTL := TTL d; Expiration := Expiration d; Inception := Inception d;
     KeyTag := v; Name := Name d; Signature := Signature d |}.
Definition set_Name v d :=
  {| Type_ := Type_ d; AlgorithmType := AlgorithmType d; Labels := Labels d;
     TTL := TTL d; Expiration := Expiration d; Inception := Inception d;
     KeyTag := KeyTag d; Name := v; Signature := Signature d |}.
Definition set_Signature v d :=
  {| Type_ := Type_ d; AlgorithmType := AlgorithmType d; Labels := Labels d;
     TTL := TTL d; Expiration := Expiration d; Inception := Inception d;
     KeyTag := KeyTag d; Name := Name d; Signature := v |}.

Definition Encode (r : t) (b : Wirebuf) : outcome Wirebuf :=
  let b := Octets2_Encode (Type_ r) b in
  let b := Octet_Encode (AlgorithmType r) b in
  let b := Octet_Encode (Labels r) b in
  let b := Octets4_Encode (uint32_of_int32 (TTL r)) b in
  let b := Octets4_Encode (Expiration r) b in
  let b := Octets4_Encode (Inception r) b in
  let b := Octets2_Encode (KeyTag r) b in
  let b := DisableCompression b in
  let b := DomainName_Encode (Name r) b in
  let b := EnableCompression b in
  Ok (wappend b (Signature r)).

Definition Decode (b : bytes) : Dec t :=
  field Octets2_Decode set_Type b >>
  field Octet_Decode set_AlgorithmType b >>
  field Octet_Decode set_Labels b >>
  field Octets4_Decode (fun ttl => set_TTL (int32_of_uint32 ttl)) b >>
  field Octets4_Decode set_Expiration b >>
  field Octets4_Decode set_Inception b >>
  field Octets2_Decode set_KeyTag b >>
  field DomainName_Decode set_Name b >>
  fun r pos =>
    let n := (Z.of_nat (length b) - Z.of_nat pos)%Z in
    if (n <=? 0)%Z then Ok (r, pos, Some "(*RRSIG).Decode: no signature data")
    else Ok (set_Signature (skipn pos b) r, pos + Z.to_nat n, None).
End RRSIG.
End RRSIG.

Module SOA.
Section SOA.
Context {DN : DomainName}.
Record t : Type :=
  { MName : string; RName : string; Serial : N; Refresh : N; Retry : N;
    Expire : N; Minimum : N }.
Definition zero : t :=
  {| MName := ""; RName := ""; Serial := 0; Refresh := 0; Retry := 0;
     Expire := 0; Minimum := 0 |}.

Definition set_MName v d :=
  {| MName := v; RName := RName d; Serial := Serial d; Refresh := Refresh d;
     Retry := Retry d; Expire := Expire d; Minimum := Minimum d |}.
Definition set_RName v d :=
  {| MName := MName d; RName := v; Serial := Serial d; Refresh := Refresh d;
     Retry := Retry d; Expire := Expire d; Minimum := Minimum d |}.
Definition set_Serial v d :=
  {| MName := MName d; RName := RName d; Serial := v; Refresh := Refresh d;
     Retry := Retry d; Expire := Expire d; Minimum := Minimum d |}.
Definition set_Refresh v d :=
  {| MName := MName d; RName := RName d; Serial := Serial d; Refresh := v;
     Retry := Retry d; Expire := Expire d; Minimum := Minimum d |}.
Definition set_Retry v d :=
  {| MName := MName d; RName := RName d; Serial := Serial d; Refresh := Refresh d;
     Retry := v; Expire := Expire d; Minimum := Minimum d |}.
Definition set_Expire v d :=
  {| MName := MName d; RName := RName d; Serial := Serial d; Refresh := Refresh d;
     Retry := Retry d; Expire := v; Minimum := Minimum d |}.
Definition set_Minimum v d :=
  {| MName := MName d; RName := RName d; Serial := Serial d; Refresh := Refresh d;
     Retry := Retry d; Expire := Expire d; Minimum := v |}.

Definition Encode (d : t) (b : Wirebuf) : outcome Wirebuf :=
  let b := DomainName_Encode (MName d) b in
  let b := DomainName_Encode (RName d) b in
  let b := Octets4_Encode (Serial d) b in
  let b := Octets4_Encode (Refresh d) b in
  let b := Octets4_Encode (Retry d) b in
  let b := Octets4_Encode (Expire d) b in
  Ok (Octets4_Encode (Minimum d) b).

(** The four steps after [RName] are written [if call; err != nil] without
    the assignment to [err]: their result is dropped. *)
Definition Decode (b : bytes) : Dec t :=
  field DomainName_Decode set_MName b >>
  field DomainName_Decode set_RName b >>
  dropErr (field Octets4_Decode set_Serial b)
  (dropErr (field Octets4_Decode set_Refresh b)
  (dropErr (field Octets4_Decode set_Retry b)
  (dropErr (field Octets4_Decode set_Expire b)
  (field Octets4_Decode set_Minimum b)))).

(** The cursor after a fixed-width field decode: moved on success only. *)
Definition after4 (b : bytes) (p : nat) : nat :=
  match Octets4_Decode b p with Ret _ p' => p' | Fail _ => p end.

(** Some field decode of [Decode b] started at [pos] fails: [MName],
    [RName], or one of [Serial], [Refresh], [Retry], [Expire], [Minimum] at
    the cursor the code calls it with. *)
Definition field_fails (b : bytes) (pos : nat) : Prop :=
  (exists e, DomainName_Decode b pos = Fail e) \/
  (exists m p1, DomainName_Decode b pos = Ret m p1 /\
    ((exists e, DomainName_Decode b p1 = Fail e) \/
     (exists r p2, DomainName_Decode b p1 = Ret r p2 /\
        let p3 := after4 b p2 in
        let p4 := after4 b p3 in
        let p5 := after4 b p4 in
        let p6 := after4 b p5 in
        exists e, Octets4_Decode b p2 = Fail e \/ Octets4_Decode b p3 = Fail e \/
                  Octets4_Decode b p4 = Fail e \/ Octets4_Decode b p5 = Fail e \/
                  Octets4_Decode b p6 = Fail e))).
End SOA.
End SOA.

Module TXT.
Record t : Type := { S : string }.
Definition zero : t := {| S := "" |}.

Definition Encode (d : t) (b : Wirebuf) : outcome Wirebuf :=
  Ok (CharString_Encode (S d) b).

(** The loop [for *pos < len(b)]; every round that does not return moves the
    cursor forward, so [length b] rounds are enough from any cursor. *)
Fixpoint loop (rounds : nat) (b : bytes) (s : string) (pos : nat)
    : string * nat * error :=
  if Nat.ltb pos (length b) then
    match rounds with
    | O => (s, pos, None)
    | Datatypes.S rounds' =>
        match CharString_Decode b pos with
        | Fail e => (s, pos, Some e)
        | Ret part pos' => loop rounds' b (s ++ part)%string pos'
        end
    end
  else (s, pos, None).

Definition Decode (b : bytes) : Dec t := fun d pos =>
  match loop (length b) b "" pos with
  | (s, pos', None) => Ok ({| S := s |}, pos', None)
  | (_, pos', Some e) => Ok (d, pos', Some e)
  end.
End TXT.

(** The value of the interface field [RR.RData]: a pointer to one of the
    variants, or the nil interface. *)
Inductive RData : Type :=
| RD_A (x : A.t)
| RD_AAAA (x : AAAA.t)
| RD_CNAME (x : CNAME.t)
| RD_DNSKEY (x : DNSKEY.t)
| RD_DS (x : DS.t)
| RD_MX (x : MX.t)
| RD_NODATA (x : NODATA.t)
| RD_NXDOMAIN (x : NXDOMAIN.t)
| RD_NS (x : NS.t)
| RD_NSEC3 (x : NSEC3.t)
| RD_NSEC3PARAM (x : NSEC3PARAM.t)
| RD_PTR (x : PTR.t)
| RD_RRSIG (x : RRSIG.t)
| RD_SOA (x : SOA.t)
| RD_TXT (x : TXT.t)
| RD_RDATA (x : RDATA.t)
| RD_nil.

(** *** The String methods

    The text of a key, a signature, a hashed owner name, a time stamp and a
    type bit map comes from packages strutil and time and from the type-bitmap
    helpers of package rr, which are not part of the sources; they are taken
    as an interface. *)
Class TextLib : Type := {
  Base64Encode : bytes -> string;
  Base32ExtEncode : bytes -> string;
  (** [time.SecondsToUTC(int64(t)).Format(timeLayout)] *)
  UTCFormat : N -> string;
  (** [TypesDecode] followed by [TypesString]; [inr] is the decode error *)
  TypesText : bytes -> string + string
}.

Definition hexdigit (n : N) : ascii :=
  if N.ltb n 10 then ascii_of_N (48 + n) else ascii_of_N (87 + n).

(** The two hexadecimal digits of a byte. *)
Definition hex2 (c : byte) : string :=
  String (hexdigit (N_of_byte c / 16)) (String (hexdigit (N_of_byte c mod 16)) "").

(** [hex.EncodeToString] *)
Fixpoint hex_EncodeToString (l : bytes) : string :=
  match l with
  | [] => ""
  | c :: r => (hex2 c ++ hex_EncodeToString r)%string
  end.

(** The verb [% 02x] on a byte slice: two digits a byte, spaces between;
    the width pads the text of an empty slice to two zeros. *)
Fixpoint hex_bytes (l : bytes) : string :=
  match l with
  | [] => ""
  | [c] => hex2 c
  | c :: r => (hex2 c ++ " " ++ hex_bytes r)%string
  end.

Definition hex_spaced (l : bytes) : string :=
  match l with
  | [] => "00"
  | _ => hex_bytes l
  end.

Definition utoa (n : N) : string := itoa (Z.of_N n).

(** A [%s] operand of [fmt.Sprintf] that has a [String] method: package fmt
    calls the method.  What becomes of a panic in the method is the business
    of package fmt and differs between its releases: the panic goes on, or
    fmt recovers from it and writes a text with the panic value in place of
    the operand.  It is taken as an interface. *)
Class Fmt : Type := { catchPanic : string -> outcome string }.

Definition fmt_s {FL : Fmt} (r : outcome string) : outcome string :=
  match r with
  | Ok s => Ok s
  | Panic msg => catchPanic msg
  | Fatal msg => Fatal msg
  end.

(** [strings.Replace] of every double quote by a backslash and the quote *)
Fixpoint escape_quotes (s : string) : string :=
  match s with
  | EmptyString => EmptyString
  | String c r =>
      if Ascii.eqb c (ascii_of_N 34)
      then String (ascii_of_N 92) (String c (escape_quotes r))
      else String c (escape_quotes r)
  end.

Definition quote : string := String (ascii_of_N 34) "".

Section Strings.
Context {NT : NetText} {TL : TextLib} {FL : Fmt}.
Local Open Scope string_scope.

Definition A_String (d : A.t) : outcome string := Ok (IP_String (A.Address d)).

Definition AAAA_String (d : AAAA.t) : outcome string := Ok (IP_String (AAAA.Address d)).

Definition CNAME_String (c : CNAME.t) : outcome string := Ok (CNAME.Name c).

Definition DNSKEY_String (d : DNSKEY.t) : outcome string :=
  Ok (utoa (DNSKEY.Flags d) ++ " " ++ utoa (DNSKEY.Protocol d) ++ " " ++
      utoa (DNSKEY.Algorithm d) ++ " " ++ Base64Encode (DNSKEY.Key d)).

Definition DS_String (d : DS.t) : outcome string :=
  if (asserts && Nat.eqb (length (DS.Digest d)) 0)%bool then Panic "internal error"
  else Ok (utoa (DS.KeyTag d) ++ " " ++ utoa (DS.AlgorithmType d) ++ " " ++
           utoa (DS.DigestType d) ++ " " ++ hex_EncodeToString (DS.Digest d)).

Definition MX_String (d : MX.t) : outcome string :=
  Ok (utoa (MX.Preference d) ++ " " ++ MX.Exchange d).

Definition NODATA_String (d : NODATA.t) : outcome string :=
  fmt_s (Type_String (NODATA.Type_ d)).

Definition NXDOMAIN_String (d : NXDOMAIN.t) : outcome string := Ok "".

Definition NS_String (d : NS.t) : outcome string := Ok (NS.NSDName d).

Definition NSEC3PARAM_text (d : NSEC3PARAM.t) : string :=
  let s := hex_EncodeToString (NSEC3PARAM.Salt d) in
  let s := if String.eqb s "" then "-" else s in
  utoa (NSEC3PARAM.HashAlgorithm d) ++ " " ++ utoa (NSEC3PARAM.Flags d) ++ " " ++
  utoa (NSEC3PARAM.Iterations d) ++ " " ++ s.

Definition NSEC3PARAM_String (d : NSEC3PARAM.t) : outcome string :=
  Ok (NSEC3PARAM_text d).

Definition NSEC3_String (d : NSEC3.t) : outcome string :=
  match TypesText (NSEC3.TypeBitMaps d) with
  | inr err => Panic err
  | inl types =>
      Ok (NSEC3PARAM_text (NSEC3.PARAM d) ++ " " ++
          Base32ExtEncode (NSEC3.NextHashedOwnerName d) ++ " " ++ types)
  end.

Definition PTR_String (d : PTR.t) : outcome string := Ok (PTR.PTRDName d).

Definition RDATA_String (d : RDATA.t) : outcome string :=
  Ok ("\# " ++ utoa (N.of_nat (length d)) ++ " " ++ hex_spaced d).

Definition RRSIG_String (r : RRSIG.t) : outcome string :=
  type <- fmt_s (Type_String (RRSIG.Type_ r)) ;;
  Ok (type ++ " " ++ utoa (RRSIG.AlgorithmType r) ++ " " ++
      utoa (RRSIG.Labels r) ++ " " ++ itoa (RRSIG.TTL r) ++ " " ++
      UTCFormat (RRSIG.Expiration r) ++ " " ++ UTCFormat (RRSIG.Inception r) ++ " " ++
      utoa (RRSIG.KeyTag r) ++ " " ++ RRSIG.Name r ++ " " ++
      Base64Encode (RRSIG.Signature r)).

Definition SOA_String (d : SOA.t) : outcome string :=
  Ok (SOA.MName d ++ " " ++ SOA.RName d ++ " " ++ utoa (SOA.Serial d) ++ " " ++
      utoa (SOA.Refresh d) ++ " " ++ utoa (SOA.Retry d) ++ " " ++
      utoa (SOA.Expire d) ++ " " ++ utoa (SOA.Minimum d)).

Definition TXT_String (d : TXT.t) : outcome string :=
  Ok (quote ++ escape_quotes (TXT.S d) ++ quote).

(** [rr.RData] as a [%s] operand: the [String] method of the variant behind
    the interface; a nil interface is written as [%!s(<nil>)]. *)
Definition RData_String (d : RData) : outcome string :=
  match d with
  | RD_A x => A_String x
  | RD_AAAA x => AAAA_String x
  | RD_CNAME x => CNAME_String x
  | RD_DNSKEY x => DNSKEY_String x
  | RD_DS x => DS_String x
  | RD_MX x => MX_String x
  | RD_NODATA x => NODATA_String x
  | RD_NXDOMAIN x => NXDOMAIN_String x
  | RD_NS x => NS_String x
  | RD_NSEC3 x => NSEC3_String x
  | RD_NSEC3PARAM x => NSEC3PARAM_String x
  | RD_PTR x => PTR_String x
  | RD_RRSIG x => RRSIG_String x
  | RD_SOA x => SOA_String x
  | RD_TXT x => TXT_String x
  | RD_RDATA x => RDATA_String x
  | RD_nil => Ok "%!s(<nil>)"
  end.
End Strings.

Fixpoint bytes_Equal (x y : bytes) : bool :=
  match x, y with
  | [], [] => true
  | c :: x', d :: y' => (byte_eqb c d && bytes_Equal x' y')%bool
  | _, _ => false
  end.

(** [l[i] = v]; an index out of range panics. *)
Definition store (i : nat) (v : byte) (l : bytes) : outcome bytes :=
  if Nat.ltb i (length l) then Ok (firstn i l ++ v :: skipn (i + 1) l)
  else Panic "index out of range".

Definition tab : string := String (ascii_of_nat 9) "".

(** *** RR *)

Module RR.
Section RR.
Context {DN : DomainName} {NT : NetText} {TL : TextLib} {FL : Fmt} {UC : Unicode}.

Record t : Type :=
  { Name : string; Type_ : RRType; Class : RRClass; TTL : Z; RData_ : RData }.

Definition set_Name v r :=
  {| Name := v; Type_ := Type_ r; Class := Class r; TTL := TTL r; RData_ := RData_ r |}.
Definition set_Type v r :=
  {| Name := Name r; Type_ := v; Class := Class r; TTL := TTL r; RData_ := RData_ r |}.
Definition set_Class v r :=
  {| Name := Name r; Type_ := Type_ r; Class := v; TTL := TTL r; RData_ := RData_ r |}.
Definition set_TTL v r :=
  {| Name := Name r; Type_ := Type_ r; Class := Class r; TTL := v; RData_ := RData_ r |}.
Definition set_RData v r :=
  {| Name := Name r; Type_ := Type_ r; Class := Class r; TTL := TTL r; RData_ := v |}.

Definition zero : t :=
  {| Name := ""; Type_ := 0%N; Class := 0%N; TTL := 0; RData_ := RD_nil |}.

(** [rr.RData.Encode(b)], a method call through the interface. *)
Definition RData_Encode (d : RData) (b : Wirebuf) : outcome Wirebuf :=
  match d with
  | RD_A x => A.Encode x b
  | RD_AAAA x => AAAA.Encode x b
  | RD_CNAME x => CNAME.Encode x b
  | RD_DNSKEY x => DNSKEY.Encode x b
  | RD_DS x => DS.Encode x b
  | RD_MX x => MX.Encode x b
  | RD_NODATA x => NODATA.Encode x b
  | RD_NXDOMAIN x => NXDOMAIN.Encode x b
  | RD_NS x => NS.Encode x b
  | RD_NSEC3 x => NSEC3.Encode x b
  | RD_NSEC3PARAM x => NSEC3PARAM.Encode x b
  | RD_PTR x => PTR.Encode x b
  | RD_RRSIG x => RRSIG.Encode x b
  | RD_SOA x => SOA.Encode x b
  | RD_TXT x => TXT.Encode x b
  | RD_RDATA x => RDATA.Encode x b
  | RD_nil => Panic "invalid memory address or nil pointer dereference"
  end.

Definition via {X} (inj : X -> RData) (r : outcome (X * nat * error))
    : outcome (RData * nat * error) :=
  match r with
  | Ok (x, pos, err) => Ok (inj x, pos, err)
  | Panic e => Panic e
  | Fatal e => Fatal e
  end.

(** [rr.RData.Decode(b, pos)] *)
Definition RData_Decode (b : bytes) : Dec RData := fun d pos =>
  match d with
  | RD_A x => via RD_A (A.Decode b x pos)
  | RD_AAAA x => via RD_AAAA (AAAA.Decode b x pos)
  | RD_CNAME x => via RD_CNAME (CNAME.Decode b x pos)
  | RD_DNSKEY x => via RD_DNSKEY (DNSKEY.Decode b x pos)
  | RD_DS x => via RD_DS (DS.Decode b x pos)
  | RD_MX x => via RD_MX (MX.Decode b x pos)
  | RD_NODATA x => via RD_NODATA (NODATA.Decode b x pos)
  | RD_NXDOMAIN x => via RD_NXDOMAIN (NXDOMAIN.Decode b x pos)
  | RD_NS x => via RD_NS (NS.Decode b x pos)
  | RD_NSEC3 x => via RD_NSEC3 (NSEC3.Decode b x pos)
  | RD_NSEC3PARAM x => via RD_NSEC3PARAM (NSEC3PARAM.Decode b x pos)
  | RD_PTR x => via RD_PTR (PTR.Decode b x pos)
  | RD_RRSIG x => via RD_RRSIG (RRSIG.Decode b x pos)
  | RD_SOA x => via RD_SOA (SOA.Decode b x pos)
  | RD_TXT x => via RD_TXT (TXT.Decode b x pos)
  | RD_RDATA x => via RD_RDATA (RDATA.Decode b x pos)
  | RD_nil => Panic "invalid memory address or nil pointer dereference"
  end.

Definition String (rr : t) : outcome string :=
  class <- fmt_s (Class_String (Class rr)) ;;
  type <- fmt_s (Type_String (Type_ rr)) ;;
  rdata <- fmt_s (RData_String (RData_ rr)) ;;
  Ok (Name rr ++ tab ++ class ++ tab ++ itoa (TTL rr) ++ tab ++ type ++ " " ++ rdata)%string.

Definition Encode (rr : t) (b : Wirebuf) : outcome Wirebuf :=
  let b := DomainName_Encode (Name rr) b in
  let b := Type_Encode (Type_ rr) b in
  let b := Class_Encode (Class rr) b in
  let b := Octets4_Encode (uint32_of_int32 (TTL rr)) b in
  let p0 := length (Buf b) in
  let b := wappend b [x00; x00] in
  b <- RData_Encode (RData_ rr) b ;;
  let n := (Z.of_nat (length (Buf b)) - (Z.of_nat p0 + 2))%Z in
  buf <- store p0 (byte_of_N (Z.to_N (Z.shiftr n 8 mod 256))) (Buf b) ;;
  buf <- store (p0 + 1) (byte_of_N (Z.to_N (n mod 256))) buf ;;
  Ok {| Buf := buf; Zip := Zip b |}.

(** The [switch rr.Type] of [Decode]: the fresh variant for a type code. *)
Definition newRData (typ : RRType) : RData :=
  if N.eqb typ TYPE_A then RD_A A.zero
  else if N.eqb typ TYPE_AAAA then RD_AAAA AAAA.zero
  else if N.eqb typ TYPE_CNAME then RD_CNAME CNAME.zero
  else if N.eqb typ TYPE_DNSKEY then RD_DNSKEY DNSKEY.zero
  else if N.eqb typ TYPE_DS then RD_DS DS.zero
  else if N.eqb typ TYPE_MX then RD_MX MX.zero
  else if N.eqb typ TYPE_NODATA then RD_NODATA NODATA.zero
  else if N.eqb typ TYPE_NS then RD_NS NS.zero
  else if N.eqb typ TYPE_NXDOMAIN then RD_NXDOMAIN NXDOMAIN.zero
  else if N.eqb typ TYPE_NSEC3 then RD_NSEC3 NSEC3.zero
  else if N.eqb typ TYPE_NSEC3PARAM then RD_NSEC3PARAM NSEC3PARAM.zero
  else if N.eqb typ TYPE_PTR then RD_PTR PTR.zero
  else if N.eqb typ TYPE_RRSIG then RD_RRSIG RRSIG.zero
  else if N.eqb typ TYPE_SOA then RD_SOA SOA.zero
  else if N.eqb typ TYPE_TXT then RD_TXT TXT.zero
  else RD_RDATA RDATA.zero.

(** [b[:pos+rdlength]] panics when the slice is shorter than that (the
    buffer is taken without spare capacity). *)
Definition Decode (b : bytes) : Dec t :=
  field DomainName_Decode set_Name b >>
  field Octets2_Decode set_Type b >>
  field Octets2_Decode set_Class b >>
  field Octets4_Decode (fun ttl => set_TTL (int32_of_uint32 ttl)) b >>
  local Octets2_Decode b (fun rdlength rr pos =>
    let rr := set_RData (newRData (Type_ rr)) rr in
    let high := pos + N.to_nat rdlength in
    if Nat.ltb (length b) high then Panic "slice bounds out of range"
    else embedded RData_ set_RData (RData_Decode (firstn high b)) rr pos).

(** [Equal] compares a and b as per rfc2136/1.1.  A type assertion
    [b.RData.( *X)] on another variant panics; a receiver variant outside
    the switch ends in [log.Fatalf]. *)
Definition Equal (a b : t) : outcome bool :=
  if (negb (N.eqb (Type_ a) (Type_ b)) || negb (N.eqb (Class a) (Class b))
      || negb (String.eqb (ToLower (Name a)) (ToLower (Name b))))%bool
  then Ok false
  else
    match RData_ a, RData_ b with
    | RD_nil, _ => Fatal "rr.RR.Equal() - internal error <nil>"
    | RD_RDATA x, RD_RDATA y => Ok (bytes_Equal x y)
    | RD_A x, RD_A y =>
        Ok (String.eqb (IP_String (A.Address x)) (IP_String (A.Address y)))
    | RD_AAAA x, RD_AAAA y =>
        Ok (String.eqb (IP_String (AAAA.Address x)) (IP_String (AAAA.Address y)))
    | RD_CNAME x, RD_CNAME y =>
        Ok (String.eqb (ToLower (CNAME.Name x)) (ToLower (CNAME.Name y)))
    | RD_DNSKEY x, RD_DNSKEY y =>
        Ok (N.eqb (DNSKEY.Flags x) (DNSKEY.Flags y) &&
            N.eqb (DNSKEY.Protocol x) (DNSKEY.Protocol y) &&
            N.eqb (DNSKEY.Algorithm x) (DNSKEY.Algorithm y) &&
            bytes_Equal (DNSKEY.Key x) (DNSKEY.Key y))%bool
    | RD_DS x, RD_DS y =>
        Ok (N.eqb (DS.KeyTag x) (DS.KeyTag y) &&
            N.eqb (DS.AlgorithmType x) (DS.AlgorithmType y) &&
            N.eqb (DS.DigestType x) (DS.DigestType y) &&
            bytes_Equal (DS.Digest x) (DS.Digest y))%bool
    | RD_MX x, RD_MX y =>
        Ok (N.eqb (MX.Preference x) (MX.Preference y) &&
            String.eqb (ToLower (MX.Exchange x)) (ToLower (MX.Exchange y)))%bool
    | RD_NODATA x, RD_NODATA y =>
        Ok (N.eqb (NODATA.Type_ x) (NODATA.Type_ y))
    | RD_NXDOMAIN _, _ => Ok true
    | RD_NS x, RD_NS y =>
        Ok (String.eqb (ToLower (NS.NSDName x)) (ToLower (NS.NSDName y)))
    | RD_NSEC3 x, RD_NSEC3 y =>
        let p := NSEC3.PARAM x in
        let q := NSEC3.PARAM y in
        Ok (N.eqb (NSEC3PARAM.HashAlgorithm p) (NSEC3PARAM.HashAlgorithm q) &&
            N.eqb (NSEC3PARAM.Flags p) (NSEC3PARAM.Flags q) &&
            N.eqb (NSEC3PARAM.Iterations p) (NSEC3PARAM.Iterations q) &&
            bytes_Equal (NSEC3PARAM.Salt p) (NSEC3PARAM.Salt q) &&
            bytes_Equal (NSEC3.NextHashedOwnerName x) (NSEC3.NextHashedOwnerName y) &&
            bytes_Equal (NSEC3.TypeBitMaps x) (NSEC3.TypeBitMaps y))%bool
    | RD_NSEC3PARAM x, RD_NSEC3PARAM y =>
        Ok (N.eqb (NSEC3PARAM.HashAlgorithm x) (NSEC3PARAM.HashAlgorithm y) &&
            N.eqb (NSEC3PARAM.Flags x) (NSEC3PARAM.Flags y) &&
            N.eqb (NSEC3PARAM.Iterations x) (NSEC3PARAM.Iterations y) &&
            bytes_Equal (NSEC3PARAM.Salt x) (NSEC3PARAM.Salt y))%bool
    | RD_PTR x, RD_PTR y =>
        Ok (String.eqb (ToLower (PTR.PTRDName x)) (ToLower (PTR.PTRDName y)))
    | RD_RRSIG x, RD_RRSIG y =>
        Ok (N.eqb (RRSIG.Type_ x) (RRSIG.Type_ y) &&
            N.eqb (RRSIG.AlgorithmType x) (RRSIG.AlgorithmType y) &&
            N.eqb (RRSIG.Labels x) (RRSIG.Labels y) &&
            Z.eqb (RRSIG.TTL x) (RRSIG.TTL y) &&
            N.eqb (RRSIG.Expiration x) (RRSIG.Expiration y) &&
            N.eqb (RRSIG.KeyTag x) (RRSIG.KeyTag y) &&
            String.eqb (ToLower (RRSIG.Name x)) (ToLower (RRSIG.Name y)) &&
            bytes_Equal (RRSIG.Signature x) (RRSIG.Signature y))%bool
    | RD_SOA x, RD_SOA y =>
        Ok (String.eqb (ToLower (SOA.MName x)) (ToLower (SOA.MName y)) &&
            String.eqb (ToLower (SOA.RName x)) (ToLower (SOA.RName y)) &&
            N.eqb (SOA.Serial x) (SOA.Serial y) &&
            N.eqb (SOA.Refresh x) (SOA.Refresh y) &&
            N.eqb (SOA.Retry x) (SOA.Retry y) &&
            N.eqb (SOA.Expire x) (SOA.Expire y) &&
            N.eqb (SOA.Minimum x) (SOA.Minimum y))%bool
    | RD_TXT x, RD_TXT y => Ok (String.eqb (TXT.S x) (TXT.S y))
    | _, _ => Panic "interface conversion: dns.Wirer is not the asserted type"
    end.
End RR.
End RR.

(** *** RRs, a slice of resource records *)

Module RRs.
Section RRs.
Context {DN : DomainName} {NT : NetText} {TL : TextLib} {UC : Unicode}.

Definition t : Type := list RR.t.

(** The inner loop of [SetAdd]: the value of [isnew] for [newrec]. *)
Fixpoint isNew (newrec : RR.t) (r : t) : outcome bool :=
  match r with
  | [] => Ok true
  | oldrec :: r' =>
      eq <- RR.Equal newrec oldrec ;;
      if eq then Ok false else isNew newrec r'
  end.

Fixpoint SetAdd (r : t) (rrs : t) : outcome t :=
  match rrs with
  | [] => Ok r
  | newrec :: rest =>
      isnew <- isNew newrec r ;;
      SetAdd (if isnew then r ++ [newrec] else r) rest
  end.

Definition Unique (r : t) : outcome t := SetAdd [] r.
End RRs.
End RRs.

(** ** Vocabulary of the properties *)

(** The variant is one of those [Equal] switches on. *)
Definition known (d : RData) : Prop := d <> RD_nil.

(** Two RDATA values that differ at most in the letter case of their
    name-valued fields. *)
Definition RData_case_variant {UC : Unicode} (x y : RData) : Prop :=
  match x, y with
  | RD_CNAME x, RD_CNAME y => case_variant (CNAME.Name x) (CNAME.Name y)
  | RD_MX x, RD_MX y =>
      MX.Preference x = MX.Preference y /\
      case_variant (MX.Exchange x) (MX.Exchange y)
  | RD_NS x, RD_NS y => case_variant (NS.NSDName x) (NS.NSDName y)
  | RD_PTR x, RD_PTR y => case_variant (PTR.PTRDName x) (PTR.PTRDName y)
  | RD_RRSIG x, RD_RRSIG y =>
      RRSIG.Type_ x = RRSIG.Type_ y /\
      RRSIG.AlgorithmType x = RRSIG.AlgorithmType y /\
      RRSIG.Labels x = RRSIG.Labels y /\
      RRSIG.TTL x = RRSIG.TTL y /\
      RRSIG.Expiration x = RRSIG.Expiration y /\
      RRSIG.Inception x = RRSIG.Inception y /\
      RRSIG.KeyTag x = RRSIG.KeyTag y /\
      case_variant (RRSIG.Name x) (RRSIG.Name y) /\
      RRSIG.Signature x = RRSIG.Signature y
  | RD_SOA x, RD_SOA y =>
      case_variant (SOA.MName x) (SOA.MName y) /\
      case_variant (SOA.RName x) (SOA.RName y) /\
      SOA.Serial x = SOA.Serial y /\
      SOA.Refresh x = SOA.Refresh y /\
      SOA.Retry x = SOA.Retry y /\
      SOA.Expire x = SOA.Expire y /\
      SOA.Minimum x = SOA.Minimum y
  | _, _ => x = y
  end.

(** Two records that differ at most in the letter case of the owner name and
    of the names inside the RDATA. *)
Definition RR_case_variant {UC : Unicode} (a b : RR.t) : Prop :=
  case_variant (RR.Name a) (RR.Name b) /\
  RR.Type_ a = RR.Type_ b /\
  RR.Class a = RR.Class b /\
  RR.TTL a = RR.TTL b /\
  RData_case_variant (RR.RData_ a) (RR.RData_ b).

(** [Equal] returns (neither panics nor exits) on every pair of members. *)
Definition EqualDefined {NT : NetText} {UC : Unicode} (s : list RR.t) : Prop :=
  forall a b, In a s -> In b s -> exists r, RR.Equal a b = Ok r.

(** RDATA values within the width and length limits of their wire form, over
    the names [legal_name] that the name codec accepts: the integers fit
    their fields, an address is one its encoder can narrow to 4 or widen to
    16 octets, a salt and a text fit their length octet, a key and a
    signature are not empty. *)
Definition param_ok (x : NSEC3PARAM.t) : Prop :=
  (NSEC3PARAM.HashAlgorithm x < 256)%N /\ (NSEC3PARAM.Flags x < 256)%N /\
  (NSEC3PARAM.Iterations x < 2 ^ 16)%N /\ length (NSEC3PARAM.Salt x) <= 255.

Definition legal_rdata (legal_name : string -> Prop) (v : RData) : Prop :=
  match v with
  | RD_A x => To4 (A.Address x) <> None
  | RD_AAAA x => To16 (AAAA.Address x) <> None
  | RD_CNAME x => legal_name (CNAME.Name x)
  | RD_DNSKEY x =>
      (DNSKEY.Flags x < 2 ^ 16)%N /\ (DNSKEY.Protocol x < 256)%N /\
      (DNSKEY.Algorithm x < 256)%N /\ DNSKEY.Key x <> []
  | RD_DS x =>
      (DS.KeyTag x < 2 ^ 16)%N /\ (DS.AlgorithmType x < 256)%N /\
      (DS.DigestType x < 256)%N
  | RD_MX x => (MX.Preference x < 2 ^ 16)%N /\ legal_name (MX.Exchange x)
  | RD_NODATA x => (NODATA.Type_ x < 2 ^ 16)%N
  | RD_NXDOMAIN _ => True
  | RD_NS x => legal_name (NS.NSDName x)
  | RD_NSEC3 x =>
      param_ok (NSEC3.PARAM x) /\
      (N.of_nat (length (NSEC3.NextHashedOwnerName x)) < 2 ^ 16)%N
  | RD_NSEC3PARAM x => param_ok x
  | RD_PTR x => legal_name (PTR.PTRDName x)
  | RD_RRSIG x =>
      (RRSIG.Type_ x < 2 ^ 16)%N /\ (RRSIG.AlgorithmType x < 256)%N /\
      (RRSIG.Labels x < 256)%N /\ (- 2 ^ 31 <= RRSIG.TTL x < 2 ^ 31)%Z /\
      (RRSIG.Expiration x < 2 ^ 32)%N /\ (RRSIG.Inception x < 2 ^ 32)%N /\
      (RRSIG.KeyTag x < 2 ^ 16)%N /\ legal_name (RRSIG.Name x) /\
      RRSIG.Signature x <> []
  | RD_SOA x =>
      legal_name (SOA.MName x) /\ legal_name (SOA.RName x) /\
      (SOA.Serial x < 2 ^ 32)%N /\ (SOA.Refresh x < 2 ^ 32)%N /\
      (SOA.Retry x < 2 ^ 32)%N /\ (SOA.Expire x < 2 ^ 32)%N /\
      (SOA.Minimum x < 2 ^ 32)%N
  | RD_TXT x => String.length (TXT.S x) <= 255
  | RD_RDATA _ => True
  | RD_nil => False
  end.

(** The fresh value of the variant of [v], as [RR.Decode] allocates it. *)
Definition zero_like (v : RData) : RData :=
  match v with
  | RD_A _ => RD_A A.zero
  | RD_AAAA _ => RD_AAAA AAAA.zero
  | RD_CNAME _ => RD_CNAME CNAME.zero
  | RD_DNSKEY _ => RD_DNSKEY DNSKEY.zero
  | RD_DS _ => RD_DS DS.zero
  | RD_MX _ => RD_MX MX.zero
  | RD_NODATA _ => RD_NODATA NODATA.zero
  | RD_NXDOMAIN _ => RD_NXDOMAIN NXDOMAIN.zero
  | RD_NS _ => RD_NS NS.zero
  | RD_NSEC3 _ => RD_NSEC3 NSEC3.zero
  | RD_NSEC3PARAM _ => RD_NSEC3PARAM NSEC3PARAM.zero
  | RD_PTR _ => RD_PTR PTR.zero
  | RD_RRSIG _ => RD_RRSIG RRSIG.zero
  | RD_SOA _ => RD_SOA SOA.zero
  | RD_TXT _ => RD_TXT TXT.zero
  | RD_RDATA _ => RD_RDATA RDATA.zero
  | RD_nil => RD_nil
  end.

(** The values [Decode] takes back.  [DS.Decode] knows one digest type,
    SHA-1, and reads its 20 octets; every other variant decodes what its
    [Encode] writes. *)
Definition decodable (v : RData) : Prop :=
  match v with
  | RD_DS x => DS.DigestType x = HashAlgorithmSHA1 /\ length (DS.Digest x) = 20
  | _ => True
  end.

(** The 16-byte form of the address [To4] narrows to [p4]. *)
Definition widen (p4 : IP) : IP :=
  IPv4 (nth 0 p4 x00) (nth 1 p4 x00) (nth 2 p4 x00) (nth 3 p4 x00).

(** What a decode of the encoding of [v] returns: [v], but for the address
    of an A record, which comes back from [net.IPv4] in its 16-byte form,
    and for the address of an AAAA record, which comes back as the 16 octets
    [To16] has made of it. *)
Definition decoded_form (v : RData) : RData :=
  match v with
  | RD_A x =>
      match To4 (A.Address x) with
      | Some p4 => RD_A {| A.Address := widen p4 |}
      | None => v
      end
  | RD_AAAA x =>
      match To16 (AAAA.Address x) with
      | Some p16 => RD_AAAA {| AAAA.Address := p16 |}
      | None => v
      end
  | _ => v
  end.

(** How the value decoded [v'] stands to the value encoded [v]: it is [v],
    but for an address, which is the same address in 16 octets, and [v]
    itself when [v] has its address in 16 octets. *)
Definition came_back (v v' : RData) : Prop :=
  match v, v' with
  | RD_A x, RD_A y =>
      To4 (A.Address y) = To4 (A.Address x) /\ length (A.Address y) = 16 /\
      (length (A.Address x) = 16 -> y = x)
  | RD_AAAA x, RD_AAAA y =>
      To16 (AAAA.Address x) = Some (AAAA.Address y) /\
      (length (AAAA.Address x) = 16 -> y = x)
  | _, _ => v' = v
  end.

(** The two kinds of package fmt: one recovers from every panic of a
    [String] method and has a text for it, the other lets it through. *)
Definition recovers {FL : Fmt} : Prop := forall msg, exists text, catchPanic msg = Ok text.

Definition propagates {FL : Fmt} : Prop := forall msg, catchPanic msg = Panic msg.

(** The type codes with a case in the switch of [RR.Decode]. *)
Definition decodeTable : list RRType :=
  [ TYPE_A; TYPE_AAAA; TYPE_CNAME; TYPE_DNSKEY; TYPE_DS; TYPE_MX; TYPE_NODATA;
    TYPE_NS; TYPE_NXDOMAIN; TYPE_NSEC3; TYPE_NSEC3PARAM; TYPE_PTR; TYPE_RRSIG;
    TYPE_SOA; TYPE_TXT ].

(** No member compares equal to a member before it. *)
Definition distinct {NT : NetText} {UC : Unicode} (r : RRs.t) : Prop :=
  forall p x q, r = p ++ x :: q -> RRs.isNew x p = Ok true.

(** ** Instances of the interfaces, for the closed examples *)

(** Names written in full, as the length-prefixed labels of RFC 1035 3.1,
    without compression. *)
Module PlainName.
Definition dot : ascii := ascii_of_N 46.

Definition emit (cur : bytes) : bytes :=
  match cur with
  | [] => []
  | _ => byte_of_N (N.of_nat (length cur)) :: cur
  end.

Fixpoint labels (cur : bytes) (s : string) : bytes :=
  match s with
  | EmptyString => emit cur ++ [x00]
  | String c r =>
      if Ascii.eqb c dot then emit cur ++ labels [] r
      else labels (cur ++ [c]) r
  end.

Definition Encode (n : string) (w : Wirebuf) : Wirebuf := wappend w (labels [] n).

Fixpoint read (rounds : nat) (b : bytes) (pos : nat) (acc : string) : decoded string :=
  match rounds with
  | O => Fail "DomainName.Decode() - buffer underflow"
  | S rounds' =>
      if Nat.ltb pos (length b) then
        let n := N.to_nat (byte_at b pos) in
        if Nat.eqb n 0 then Ret (if String.eqb acc "" then "." else acc) (pos + 1)
        else if Nat.ltb (length b) (pos + 1 + n)
             then Fail "DomainName.Decode() - buffer underflow"
             else read rounds' b (pos + 1 + n)
                    (acc ++ string_of_bytes (firstn n (skipn (pos + 1) b)) ++ ".")%string
      else Fail "DomainName.Decode() - buffer underflow"
  end.

Definition Decode (b : bytes) (pos : nat) : decoded string :=
  read (length b) b pos "".

Definition label_ok (l : string) : Prop :=
  l <> ""%string /\ String.length l <= 63 /\
  Forall (fun c => c <> dot) (list_ascii_of_string l).

Definition join (ls : list string) : string :=
  fold_right (fun l r => (l ++ "." ++ r)%string) ""%string ls.

(** The names this codec accepts: the root, or dot-terminated labels. *)
Definition legal (n : string) : Prop :=
  exists ls, Forall label_ok ls /\
             n = match ls with [] => "."%string | _ => join ls end.

(** The wire form of a label, and of a list of labels with the root label
    that ends it. *)
Definition enc_label (l : string) : bytes :=
  byte_of_N (N.of_nat (String.length l)) :: bytes_of_string l.

Definition enc_ls (ls : list string) : bytes := concat (map enc_label ls) ++ [x00].

(** The name [read] returns for the labels accumulated in [s]. *)
Definition final (s : string) : string := if String.eqb s "" then "."%string else s.
End PlainName.

#[export] Instance plainName : DomainName :=
  {| DomainName_Encode := PlainName.Encode; DomainName_Decode := PlainName.Decode |}.

(** A 16-byte address as eight groups of four hexadecimal digits. *)
Fixpoint groups (l : bytes) : string :=
  match l with
  | a :: b :: r =>
      (hex2 a ++ hex2 b ++ match r with [] => "" | _ => ":" ++ groups r end)%string
  | _ => ""%string
  end.

#[export] Instance groupsText : NetText := {| ipv6_text := groups |}.

(** Text in ASCII, which the names of the examples are: every byte is a
    rune, and the letters [A] to [Z] are the runes with another lower
    case. *)
#[export] Instance asciiText : Unicode :=
  {| runes := fun s => map N_of_ascii (list_ascii_of_string s);
     of_runes := fun l => string_of_list_ascii (map ascii_of_N l);
     unicode_ToLower :=
       fun c => if (N.leb 65 c && N.leb c 90)%bool then (c + 32)%N else c |}.

(** A package fmt that recovers from the panic of a [String] method, with
    the text the current releases write, and one that does not recover. *)
#[export] Instance fmtRecovers : Fmt :=
  {| catchPanic := fun msg => Ok ("%!s(PANIC=String method: " ++ msg ++ ")")%string |}.

Definition fmtPanics : Fmt := {| catchPanic := fun msg => Panic msg |}.

(** Blobs in hexadecimal, times in seconds: none of the examples renders
    them. *)
#[export] Instance hexLib : TextLib :=
  {| Base64Encode := hex_EncodeToString;
     Base32ExtEncode := hex_EncodeToString;
     UTCFormat := utoa;
     TypesText := fun l => inl (hex_EncodeToString l) |}.

(** * Package zone: the scanner (zone/scanner.l)

    scanner.l is the input of golex.  The generated scanner is a DFA over the
    patterns of the current start condition: from the label [yystate0] it
    follows the input while some pattern can still match, then runs the
    action of the first rule that accepts there and goes back to [yystate0];
    when no rule accepts, it runs the code after the second [%%].  The DFA is
    written here with derivatives of the patterns. *)

(** ** Patterns *)

Inductive re : Type :=
| Void
| Eps
| Cls (p : ascii -> bool)
| Alt (a b : re)
| Cat (a b : re)
| Star (a : re).

Fixpoint nullable (r : re) : bool :=
  match r with
  | Void => false
  | Eps => true
  | Cls _ => false
  | Alt a b => nullable a || nullable b
  | Cat a b => nullable a && nullable b
  | Star _ => true
  end.

(** No string matches (the classes of the patterns are not empty). *)
Fixpoint dead (r : re) : bool :=
  match r with
  | Void => true
  | Eps => false
  | Cls _ => false
  | Alt a b => dead a && dead b
  | Cat a b => dead a || dead b
  | Star _ => false
  end.

Definition alt (a b : re) : re :=
  match a, b with
  | Void, _ => b
  | _, Void => a
  | _, _ => Alt a b
  end.

Definition cat (a b : re) : re :=
  match a, b with
  | Void, _ => Void
  | _, Void => Void
  | Eps, _ => b
  | _, _ => Cat a b
  end.

(** What is left of the pattern after the character [c]. *)
Fixpoint der (c : ascii) (r : re) : re :=
  match r with
  | Void => Void
  | Eps => Void
  | Cls p => if p c then Eps else Void
  | Alt a b => alt (der c a) (der c b)
  | Cat a b =>
      alt (cat (der c a) b) (if nullable a then der c b else Void)
  | Star a => cat (der c a) (Star a)
  end.

Definition chr (c : ascii) : re := Cls (Ascii.eqb c).

Fixpoint lit (s : string) : re :=
  match s with
  | EmptyString => Eps
  | String c r => Cat (chr c) (lit r)
  end.

Definition plus (a : re) : re := Cat a (Star a).
Definition opt (a : re) : re := Alt a Eps.

Definition nl : byte := ascii_of_N 10.
Definition cr : byte := ascii_of_N 13.

Definition between (lo hi : N) (c : ascii) : bool :=
  (N.leb lo (N_of_ascii c) && N.leb (N_of_ascii c) hi)%bool.

Definition is_digit (c : ascii) : bool := between 48 57 c.
Definition is_hex (c : ascii) : bool :=
  (is_digit c || between 97 102 c || between 65 70 c)%bool.
Definition is_letter (c : ascii) : bool := (between 97 122 c || between 65 90 c)%bool.
Definition is_blank (c : ascii) : bool :=
  (Ascii.eqb c " " || Ascii.eqb c (ascii_of_N 9))%bool.

(** The byte 0 stands for the end of the input; the classes of the generated
    scanner start at 1, so that no pattern matches it. *)
Definition not_nul (c : ascii) : bool := negb (Ascii.eqb c x00).

(** [.] *)
Definition any : re := Cls (fun c => not_nul c && negb (Ascii.eqb c nl))%bool.

Definition digit : re := Cls is_digit.
Definition hex : re := Cls is_hex.
Definition byte_re : re := Cat digit (Cat (opt digit) (opt digit)).
Definition hex4 : re := Cat hex (Cat (opt hex) (Cat (opt hex) (opt hex))).
Definition hexseq : re := Cat hex4 (Star (Cat (chr ":") hex4)).
Definition hexpart : re :=
  Alt hexseq (Alt (Cat hexseq (Cat (lit "::") (opt hexseq)))
                  (Cat (lit "::") (opt hexseq))).
Definition ipv4_re : re :=
  Cat byte_re (Cat (chr ".") (Cat byte_re (Cat (chr ".")
      (Cat byte_re (Cat (chr ".") byte_re))))).
Definition ipv6_re : re := hexpart.

Definition let_or_digit : re := Cls (fun c => is_letter c || is_digit c)%bool.
Definition label : re :=
  Cat let_or_digit
      (opt (Cat (Star (Alt let_or_digit (chr "-"))) let_or_digit)).
Definition domain_name : re :=
  Alt (Cat label (Cat (Star (Cat (chr ".") label)) (opt (chr ".")))) (chr ".").

Definition blanks : re := plus (Cls is_blank).
Definition comment : re := Cat (Star (Cls is_blank)) (Cat (chr ";") (Star any)).

Definition dquote : ascii := ascii_of_N 34.
Definition backslash : ascii := ascii_of_N 92.

(** A double quote, then escaped characters or characters other than
    backslash, quote and line ends, then a double quote. *)
Definition qstr_re : re :=
  Cat (chr dquote)
      (Cat (Star (Alt (Cat (chr backslash) any)
                      (Cls (fun c => not_nul c && negb (Ascii.eqb c backslash)
                                     && negb (Ascii.eqb c dquote)
                                     && negb (Ascii.eqb c nl)
                                     && negb (Ascii.eqb c cr))%bool)))
           (chr dquote)).

(** ** The scanner state *)

Inductive startCond : Type :=
| sc_INITIAL | sc_RRHEAD | sc_DOMAIN | sc_NUM | sc_IPV4 | sc_IPV6
| sc_BASE32EXT | sc_BASE64 | sc_TYPE | sc_HEX | sc_QSTR.

Definition startCond_eqb (a b : startCond) : bool :=
  match a, b with
  | sc_INITIAL, sc_INITIAL | sc_RRHEAD, sc_RRHEAD | sc_DOMAIN, sc_DOMAIN
  | sc_NUM, sc_NUM | sc_IPV4, sc_IPV4 | sc_IPV6, sc_IPV6
  | sc_BASE32EXT, sc_BASE32EXT | sc_BASE64, sc_BASE64 | sc_TYPE, sc_TYPE
  | sc_HEX, sc_HEX | sc_QSTR, sc_QSTR => true
  | _, _ => false
  end.

(** The start conditions of the [%x] line, and [INITIAL]; [sc_QSTR] is a
    constant of the package without a start condition of its own. *)
Definition declared : list startCond :=
  [ sc_INITIAL; sc_RRHEAD; sc_DOMAIN; sc_NUM; sc_IPV4; sc_IPV6; sc_BASE32EXT;
    sc_BASE64; sc_TYPE; sc_HEX ].

#[local] Unset Elimination Schemes.
Inductive lexStackItem : Type := mkLex {
  rrHandler : option (RR.t -> bool);
  errHandler : option (string -> bool);
  startCond_ : startCond;
  buf : bytes;
  last : byte;
  peek : byte;
  line : Z;
  column : Z;
  name : string;
  src : bytes;            (* what is left to read of the bufio.Reader *)
  prev : option lexStackItem;
  inParen : bool
}.
#[local] Set Elimination Schemes.

Definition lex := lexStackItem.

Definition set_buf (v : bytes) (l : lex) : lex :=
  mkLex (rrHandler l) (errHandler l) (startCond_ l) v (last l) (peek l) (line l)
        (column l) (name l) (src l) (prev l) (inParen l).

Definition set_inParen (v : bool) (l : lex) : lex :=
  mkLex (rrHandler l) (errHandler l) (startCond_ l) (buf l) (last l) (peek l)
        (line l) (column l) (name l) (src l) (prev l) v.

(** [func (l *lex) begin(sc int)] *)
Definition begin (sc : startCond) (l : lex) : lex :=
  mkLex (rrHandler l) (errHandler l) sc (buf l) (last l) (peek l) (line l)
        (column l) (name l) (src l) (prev l) (inParen l).

(** [func (l *lex) getc(c byte) byte]; the reader is a byte list, so the only
    read error is the end of the input. *)
Definition getc (c : byte) (l : lex) : lex * byte :=
  let buf' := if byte_eqb c x00 then buf l else buf l ++ [c] in
  let last' := peek l in
  match src l with
  | b :: rest =>
      let line' := if byte_eqb b nl then (line l + 1)%Z else line l in
      let column' := if byte_eqb b nl then 0%Z else (column l + 1)%Z in
      (mkLex (rrHandler l) (errHandler l) (startCond_ l) buf' last' b line' column'
             (name l) rest (prev l) (inParen l), b)
  | [] =>
      (mkLex (rrHandler l) (errHandler l) (startCond_ l) buf' last' x00 (line l)
             (column l) (name l) [] (prev l) (inParen l), x00)
  end.

(** [func newLex(name, source, errHandler, rrHandler)] *)
Definition newLex (name : string) (source : bytes)
    (errHandler : option (string -> bool)) (rrHandler : option (RR.t -> bool)) : lex :=
  fst (getc x00 (mkLex rrHandler errHandler sc_INITIAL [] x00 x00 1 0 name source
                       None false)).

(** [func (l *lex) include(name, source)] *)
Definition include (name : string) (source : bytes) (l : lex) : lex :=
  let push := l in
  fst (getc x00 (mkLex (rrHandler l) (errHandler l) (startCond_ l) [] (last l)
                       (peek l) 1 0 name source (Some push) (inParen l))).

(** [func (l *lex) Error(e string)]: the message with its position goes to
    the handler, if there is one; the scan goes on when the handler returns
    true and panics otherwise. *)
Definition Error_message (l : lex) (e : string) : string :=
  (name l ++ ":" ++ itoa (line l) ++ ":" ++ itoa (column l) ++ " - " ++ e)%string.

Definition Error (l : lex) (e : string) : outcome lex :=
  let e := Error_message l e in
  match errHandler l with
  | Some h => if h e then Ok l else Panic e
  | None => Panic e
  end.

(** ** Tokens and semantic values *)

(** The value of [ret]: a byte, a token of the grammar, or
    [unicode.ReplacementChar].  The grammar numbers its tokens above the
    bytes. *)
Inductive token : Type :=
| T_char (c : byte)
| tDLR_TTL | tDOMAIN_NAME | tBLANK_START | tQSTR | tDECADIC | tCLASS
| tIPV4 | tIPV6 | tBASE32EXT | tBASE64 | tHEX
| tTYPE (mnemonic : string)     (* tA, tAAAA, ..., one token a mnemonic *)
| ReplacementChar.

(** Modelled from the spec: the semantic value [yySymType] is declared by the
    grammar, which is not part of the sources; these are the fields the
    scanner assigns. *)
Record yySymType : Type := {
  str : string;
  u64 : N;
  class : RRClass;
  ip : option IP;
  data : bytes
}.

Definition set_str v (y : yySymType) :=
  {| str := v; u64 := u64 y; class := class y; ip := ip y; data := data y |}.
Definition set_u64 v (y : yySymType) :=
  {| str := str y; u64 := v; class := class y; ip := ip y; data := data y |}.
Definition set_class v (y : yySymType) :=
  {| str := str y; u64 := u64 y; class := v; ip := ip y; data := data y |}.
Definition set_ip v (y : yySymType) :=
  {| str := str y; u64 := u64 y; class := class y; ip := v; data := data y |}.
Definition set_data v (y : yySymType) :=
  {| str := str y; u64 := u64 y; class := class y; ip := ip y; data := v |}.

(** ** Library calls of the actions *)

Definition digit_value (c : ascii) : N := N_of_ascii c - 48.

(** [strconv.Atoui64] on a run of decimal digits: the value, or [None] when
    it does not fit 64 bits. *)
Definition Atoui64 (s : bytes) : option N :=
  let v := fold_left (fun acc c => acc * 10 + digit_value c)%N s 0%N in
  if N.ltb v (2 ^ 64) then Some v else None.

(** The verb [%q] on text without quote, backslash or control characters. *)
Definition fmt_q (s : bytes) : string :=
  (String dquote "" ++ string_of_bytes s ++ String dquote "")%string.

Fixpoint split_dots (cur : bytes) (s : bytes) : list bytes :=
  match s with
  | [] => [cur]
  | c :: r => if Ascii.eqb c "." then cur :: split_dots [] r
              else split_dots (cur ++ [c]) r
  end.

Definition dtoi (f : bytes) : option N :=
  match f with
  | [] => None
  | _ => if forallb is_digit f
         then let v := fold_left (fun acc c => acc * 10 + digit_value c)%N f 0%N in
              if N.ltb 255 v then None else Some v
         else None
  end.

(** [net.parseIPv4]: four decimal fields of at most 255, separated by
    dots. *)
Definition parseIPv4 (s : bytes) : option IP :=
  match map dtoi (split_dots [] s) with
  | [Some a; Some b; Some c; Some d] =>
      Some (IPv4 (byte_of_N a) (byte_of_N b) (byte_of_N c) (byte_of_N d))
  | _ => None
  end.

(** The IPv6 half of [net.ParseIP] is left to package net. *)
Class NetParse : Type := { parseIPv6 : bytes -> option IP }.

(** [net.ParseIP] *)
Definition ParseIP {NP : NetParse} (s : bytes) : option IP :=
  match parseIPv4 s with
  | Some p => Some p
  | None => parseIPv6 s
  end.

Definition hex_value (c : ascii) : N :=
  if is_digit c then N_of_ascii c - 48
  else if between 97 102 c then N_of_ascii c - 87
  else N_of_ascii c - 55.

(** [hex.DecodeString] on a run of hexadecimal digits: an odd length is an
    error. *)
Fixpoint hex_DecodeString (s : bytes) : option bytes :=
  match s with
  | [] => Some []
  | [_] => None
  | a :: c :: r =>
      match hex_DecodeString r with
      | Some l => Some (byte_of_N (hex_value a * 16 + hex_value c) :: l)
      | None => None
      end
  end.

(** [bytes.Replace] of every backslash-quote by a quote. *)
Fixpoint unescape_quotes (s : bytes) : bytes :=
  match s with
  | a :: ((c :: r) as t) =>
      if (Ascii.eqb a backslash && Ascii.eqb c dquote)%bool
      then c :: unescape_quotes r
      else a :: unescape_quotes t
  | _ => s
  end.

(** ** Rules *)

(** What an action leaves behind: the value of [ret] on the way back to
    [yystate0], or the token of a [return] of its own. *)
Inductive flow : Type :=
| Continue (ret : option token)
| Return (tok : token).

Definition action : Type := lex -> yySymType -> outcome (lex * yySymType * flow).

Record rule : Type := {
  conds : list startCond;   (* the start conditions the rule is active in *)
  bol : bool;               (* the pattern starts with ^ *)
  pat : re;
  eol : bool;               (* the pattern ends with $ *)
  act : action
}.

Section Rules.
Context {NP : NetParse}.

(** an empty action *)
Definition act_skip : action := fun l lval => Ok (l, lval, Continue None).

Definition act_ret (tok : token) : action := fun l lval =>
  Ok (l, lval, Continue (Some tok)).

Definition act_newline : action := fun l lval =>
  if negb (inParen l) then Ok (l, lval, Continue (Some (T_char nl)))
  else Ok (l, lval, Continue None).

Definition act_lparen : action := fun l lval =>
  l <- (if inParen l then Error l "nested parenthesis" else Ok l) ;;
  Ok (set_inParen true l, lval, Continue None).

Definition act_rparen : action := fun l lval =>
  l <- (if negb (inParen l)
        then Error l ("enexpected " ++ String dquote ")" ++ String dquote "")
        else Ok l) ;;
  Ok (set_inParen false l, lval, Continue (Some (T_char nl))).

Definition act_qstr : action := fun l lval =>
  let inner := firstn (length (buf l) - 1 - 1) (skipn 1 (buf l)) in
  Ok (l, set_str (string_of_bytes (unescape_quotes inner)) lval, Return tQSTR).

Definition act_number : action := fun l lval =>
  let lval := set_str (string_of_bytes (buf l)) lval in
  match Atoui64 (buf l) with
  | None => Panic ("invalid number " ++ fmt_q (buf l))
  | Some v => Ok (l, set_u64 v lval, Continue (Some tDECADIC))
  end.

Definition act_class (c : RRClass) : action := fun l lval =>
  Ok (l, set_class c lval, Continue (Some tCLASS)).

Definition act_ip (tok : token) : action := fun l lval =>
  let ip := ParseIP (buf l) in
  l <- (match ip with
        | None => Error l ("invalid IP " ++ fmt_q (buf l))
        | Some _ => Ok l
        end) ;;
  Ok (l, set_ip ip lval, Return tok).

Definition act_hex : action := fun l lval =>
  match hex_DecodeString (buf l) with
  | None =>
      l <- Error l "expected hex string" ;;
      Ok (l, set_data [] lval, Continue (Some tHEX))
  | Some d => Ok (l, set_data d lval, Continue (Some tHEX))
  end.

Definition act_hex_none : action := fun l lval =>
  Ok (l, set_data [] lval, Continue (Some tHEX)).

Definition initial : list startCond := [sc_INITIAL].

Definition mk (conds : list startCond) (bol : bool) (pat : re) (eol : bool)
    (act : action) : rule :=
  {| conds := conds; bol := bol; pat := pat; eol := eol; act := act |}.

(** The mnemonics of the rules [<rrHead,type>X ret = tX], in their order. *)
Definition type_mnemonics : list string :=
  [ "A"; "AAAA"; "A6"; "AFSDB"; "APL"; "CERT"; "CNAME"; "DHCID"; "DNAME";
    "DNSKEY"; "DS"; "GPOS"; "HINFO"; "IPSECKEY"; "ISDN"; "KEY"; "KX"; "LOC";
    "MX"; "NAPTR"; "NSAP"; "NS"; "NSEC"; "NSEC3"; "NSEC3PARAM"; "NXT"; "PTR";
    "PX"; "RP"; "RRSIG"; "RT"; "SIG"; "SOA"; "SPF"; "SRV"; "SSHFP"; "TXT";
    "WKS"; "X25" ]%string.

Definition rules : list rule :=
  [ mk initial true blanks true act_skip;
    mk declared false blanks true act_skip;
    mk declared false comment false act_skip;
    mk initial true (lit "$INCLUDE") false act_skip;
    mk initial true (lit "$ORIGIN") false act_skip;
    mk initial true (lit "$TTL") false (act_ret tDLR_TTL);
    mk declared false (Alt (chr nl) (chr cr)) false act_newline;
    mk declared false (chr "(") false act_lparen;
    mk declared false (chr ")") false act_rparen;
    mk initial true domain_name false (act_ret tDOMAIN_NAME);
    mk initial true blanks false (act_ret tBLANK_START);
    mk declared false qstr_re false act_qstr;
    mk [sc_DOMAIN] false domain_name false (act_ret tDOMAIN_NAME);
    mk declared false blanks false act_skip;
    mk [sc_RRHEAD; sc_NUM] false (plus digit) false act_number;
    mk [sc_RRHEAD] false (lit "IN") false (act_class CLASS_IN);
    mk [sc_RRHEAD] false (lit "CH") false (act_class CLASS_CH);
    mk [sc_RRHEAD] false (lit "HS") false (act_class CLASS_HS) ]
  ++ map (fun m => mk [sc_RRHEAD; sc_TYPE] false (lit m) false (act_ret (tTYPE m)))
         type_mnemonics
  ++ [ mk [sc_IPV4] false ipv4_re false (act_ip tIPV4);
       mk [sc_IPV6] false ipv6_re false (act_ip tIPV6);
       mk [sc_BASE32EXT] false
          (plus (Cls (fun c => is_digit c || between 65 86 c || Ascii.eqb c "=")%bool))
          false (act_ret tBASE32EXT);
       mk [sc_BASE64] false
          (plus (Cls (fun c => is_letter c || is_digit c || Ascii.eqb c "+"
                               || Ascii.eqb c "/" || Ascii.eqb c "=")%bool))
          false (act_ret tBASE64);
       mk [sc_HEX] false (plus hex) false act_hex;
       mk [sc_HEX] false (chr "-") false act_hex_none ].

(** ** The scanner *)

(** [%yyb]: the scan starts at the beginning of a line. *)
Definition yyb (l : lex) : bool :=
  (byte_eqb (last l) nl || byte_eqb (last l) x00)%bool.

(** The rules of the start state, each with its whole pattern to match. *)
Definition yystart (l : lex) : list (rule * re) :=
  map (fun r => (r, pat r))
      (filter (fun r => existsb (startCond_eqb (startCond_ l)) (conds r)
                        && (negb (bol r) || yyb l))%bool rules).

(** The first rule that accepts in the current state, [c] being the
    character ahead.  A rule that ends with [$] accepts before a newline and
    at the end of the input, where the character ahead is 0. *)
Definition yyaccept (c : byte) (state : list (rule * re)) : option rule :=
  match find (fun x => nullable (snd x)
                       && (negb (eol (fst x)) || byte_eqb c nl || byte_eqb c x00))%bool
             state with
  | Some x => Some (fst x)
  | None => None
  end.

(** The walk through the DFA: while some pattern goes on with [c], move
    ([%yyn]: [c = l.getc(c)]); then the accepting rule, if any.  Every move
    takes a character of the input, so [moves] bounds the walk. *)
Fixpoint yywalk (moves : nat) (state : list (rule * re)) (l : lex) (c : byte)
    : lex * byte * option rule :=
  let next := filter (fun x => negb (dead (snd x)))
                     (map (fun x => (fst x, der c (snd x))) state) in
  match next, moves with
  | [], _ => (l, c, yyaccept c state)
  | _, O => (l, c, None)
  | _, S moves' => let (l', c') := getc c l in yywalk moves' next l' c'
  end.

(** One round from [yystate0]: the code before the first rule, the walk, the
    action of the rule or the code after the second [%%]. *)
Definition yyround (l : lex) (c : byte) (ret : option token) (lval : yySymType)
    : outcome (lex * byte * yySymType * flow) :=
  match ret with
  | Some tok => Ok (l, c, set_str (string_of_bytes (buf l)) lval, Return tok)
  | None =>
      let l := set_buf [] l in
      if existsb (startCond_eqb (startCond_ l)) declared then
        match yywalk (S (length (src l))) (yystart l) l c with
        | (l, c, Some r) =>
            x <- act r l lval ;;
            let '(l, lval, f) := x in Ok (l, c, lval, f)
        | (l, c, None) =>
            (* no pattern recognized *)
            if Nat.eqb (length (buf l)) 0
            then Ok (fst (getc x00 l), c, lval, Return (T_char c))
            else Ok (l, c, lval, Return ReplacementChar)
        end
      else Panic "invalid start condition"
  end.

Fixpoint yyloop (rounds : nat) (l : lex) (c : byte) (ret : option token)
    (lval : yySymType) : outcome (token * lex * yySymType) :=
  match rounds with
  | O => Fatal "the scanner did not return"
  | S rounds' =>
      x <- yyround l c ret lval ;;
      match x with
      | (l, c, lval, Return tok) => Ok (tok, l, lval)
      | (l, c, lval, Continue ret) => yyloop rounds' l c ret lval
      end
  end.

(** [func (l *lex) Lex(lval *yySymType) (ret int)].  A round that does not
    return has taken a character, and the round after a rule that sets [ret]
    returns: the rounds below are enough. *)
Definition Lex (l : lex) (lval : yySymType) : outcome (token * lex * yySymType) :=
  let c := peek l in
  let ret := @None token in
  yyloop (S (S (S (length (src l))))) l c ret lval.

End Rules.

Definition lval0 : yySymType :=
  {| str := ""; u64 := 0; class := CLASS_NONE; ip := None; data := [] |}.

(** ** Values of the closed examples *)

Definition b (n : N) : byte := byte_of_N n.

Definition rr_mx : RData :=
  RD_MX {| MX.Preference := 10; MX.Exchange := "mail.example." |}.

Definition rr_upper : RR.t :=
  {| RR.Name := "WWW.Example.COM."; RR.Type_ := TYPE_CNAME; RR.Class := CLASS_IN;
     RR.TTL := 300; RR.RData_ := RD_CNAME {| CNAME.Name := "Host.Example.COM." |} |}.

Definition rr_lower : RR.t :=
  {| RR.Name := "www.example.com."; RR.Type_ := TYPE_CNAME; RR.Class := CLASS_IN;
     RR.TTL := 300; RR.RData_ := RD_CNAME {| CNAME.Name := "host.example.com." |} |}.

Definition rr_a (name : string) : RR.t :=
  {| RR.Name := name; RR.Type_ := TYPE_A; RR.Class := CLASS_IN; RR.TTL := 60;
     RR.RData_ := RD_A {| A.Address := [b 192; b 0; b 2; b 1] |} |}.

Definition rr99 : RR.t :=
  {| RR.Name := "example."; RR.Type_ := 99; RR.Class := CLASS_IN; RR.TTL := 3600;
     RR.RData_ := RD_RDATA [b 222; b 173] |}.

(** The same RRSIG record but for the signature inception. *)
Definition rr_sig (inception : N) : RR.t :=
  {| RR.Name := "example."; RR.Type_ := TYPE_RRSIG; RR.Class := CLASS_IN;
     RR.TTL := 3600;
     RR.RData_ := RD_RRSIG
       {| RRSIG.Type_ := TYPE_A; RRSIG.AlgorithmType := 5; RRSIG.Labels := 1;
          RRSIG.TTL := 3600; RRSIG.Expiration := 2000; RRSIG.Inception := inception;
          RRSIG.KeyTag := 7; RRSIG.Name := "example.";
          RRSIG.Signature := [b 1] |} |}.
(** An instance for the closed examples, none of which holds an IPv6
    literal: every text is refused. *)
#[export] Instance noIPv6 : NetParse := {| parseIPv6 := fun _ => None |}.

(** ** Vocabulary of the properties of the scanner *)

(** The state after the scanner has taken the character ahead as the whole
    text of a token. *)
Definition took (l : lex) : lex := fst (getc (peek l) (set_buf [] l)).

(** The scanner after [n] moves of the DFA, each taking the character ahead
    into the text of the token. *)
Fixpoint advance (n : nat) (l : lex) : lex :=
  match n with
  | O => l
  | S k => advance k (fst (getc (peek l) l))
  end.

(** The scanner after the calls [getc(c)] for the [c] of [cs]. *)
Fixpoint getcs (cs : bytes) (l : lex) : lex :=
  match cs with
  | [] => l
  | c :: rest => getcs rest (fst (getc c l))
  end.

(** What the scanner has ahead: the character ahead and what is left of the
    source. *)
Definition ahead (l : lex) : bytes := peek l :: src l.

Section RuleNames.
Context {NP : NetParse}.

(** The rules [<rrHead,num>[0-9]+], [<hex>[0-9a-fA-F]+] and the rule of the
    quoted strings, as they stand in [rules]. *)
Definition rule_number : rule :=
  mk [sc_RRHEAD; sc_NUM] false (plus digit) false act_number.

Definition rule_hex : rule := mk [sc_HEX] false (plus hex) false act_hex.

Definition rule_qstr : rule := mk declared false qstr_re false act_qstr.
End RuleNames.

(** The move of the DFA on [c]: the rules that go on, each with what is left
    of its pattern. *)
Definition yynext (c : byte) (state : list (rule * re)) : list (rule * re) :=
  filter (fun x => negb (dead (snd x)))
         (map (fun x => (fst x, der c (snd x))) state).

(** A character of a quoted string that stands for itself. *)
Definition plain_char (c : ascii) : bool :=
  (not_nul c && negb (Ascii.eqb c backslash) && negb (Ascii.eqb c dquote)
   && negb (Ascii.eqb c nl) && negb (Ascii.eqb c cr))%bool.

(** The text between the quotes of a quoted string: characters that stand
    for themselves and pairs of a backslash and a character of the line. *)
Inductive quoted_text : bytes -> Prop :=
| qt_nil : quoted_text []
| qt_plain c r : plain_char c = true -> quoted_text r -> quoted_text (c :: r)
| qt_escape c r :
    not_nul c = true -> c <> nl -> quoted_text r ->
    quoted_text (backslash :: c :: r).

(** The members of a list picked by a mask. *)
Fixpoint sel {A} (mask : list bool) (l : list A) : list A :=
  match mask, l with
  | true :: m, x :: r => x :: sel m r
  | false :: m, _ :: r => sel m r
  | _, _ => []
  end.

Section Active.
Context {NP : NetParse}.

(** The rule is one of the start state of [l]. *)
Definition active (l : lex) (r : rule) : bool :=
  (existsb (startCond_eqb (startCond_ l)) (conds r) && (negb (bol r) || yyb l))%bool.
End Active.

(** What is left of the pattern of the quoted strings after the opening
    quote, and after a backslash inside the string. *)
Definition qstr_body : re :=
  Alt (Cat (chr backslash) any) (Cls plain_char).
Definition qstr_open : re := Cat (Star qstr_body) (chr dquote).
Definition qstr_escaped : re := Cat (Cat any (Star qstr_body)) (chr dquote).

(** Line and column after the bytes [read], counted as [getc] does from the
    line 1 and column 0 of [newLex]. *)
Definition line_after (read : bytes) : Z :=
  fold_left (fun ln b => if byte_eqb b nl then (ln + 1)%Z else ln) read 1%Z.

Definition column_after (read : bytes) : Z :=
  fold_left (fun col b => if byte_eqb b nl then 0%Z else (col + 1)%Z) read 0%Z.

(** What [getc] keeps true: after [k] bytes of [s], the source holds the rest
    of [s] and line and column are those of the bytes read. *)
Definition at_position (s : bytes) (k : nat) (l : lex) : Prop :=
  src l = skipn k s /\ line l = line_after (firstn k s) /\
  column l = column_after (firstn k s).

(** The classes [0-9A-V=] and [A-Za-z0-9+/=], and their rules as they stand
    in [rules]. *)
Definition is_base32ext (c : ascii) : bool :=
  (is_digit c || between 65 86 c || Ascii.eqb c "=")%bool.

Definition is_base64 (c : ascii) : bool :=
  (is_letter c || is_digit c || Ascii.eqb c "+" || Ascii.eqb c "/"
   || Ascii.eqb c "=")%bool.

Definition rule_base32ext : rule :=
  mk [sc_BASE32EXT] false (plus (Cls is_base32ext)) false (act_ret tBASE32EXT).

Definition rule_base64 : rule :=
  mk [sc_BASE64] false (plus (Cls is_base64)) false (act_ret tBASE64).

(** ** More of package rr: the other methods of the record slices *)

(** [func (r RRs) Filter(want func(r *RR) bool) (wanted, other RRs)]: the
    loop, from the slices built so far. *)
Fixpoint Filter_from (want : RR.t -> bool) (r wanted other : RRs.t)
    : RRs.t * RRs.t :=
  match r with
  | [] => (wanted, other)
  | rec :: rest =>
      if want rec then Filter_from want rest (wanted ++ [rec]) other
      else Filter_from want rest wanted (other ++ [rec])
  end.

Definition RRs_Filter (want : RR.t -> bool) (r : RRs.t) : RRs.t * RRs.t :=
  Filter_from want r [] [].

(** [type Parts map[Type]RRs].  The map is the list of its entries, no key
    twice.  A [range] over a map visits the entries in an order of Go's
    choice: the loops below take that order, a list of the keys, as an
    argument. *)
Module Parts.
Section Parts.
Context {NT : NetText} {UC : Unicode}.

Definition t : Type := list (RRType * RRs.t).

(** [v, ok := p[typ]] *)
Fixpoint get (typ : RRType) (p : t) : option RRs.t :=
  match p with
  | [] => None
  | (k, v) :: rest => if N.eqb typ k then Some v else get typ rest
  end.

(** [p[typ]]: a nil slice for a missing key *)
Definition at_ (typ : RRType) (p : t) : RRs.t :=
  match get typ p with
  | Some v => v
  | None => []
  end.

(** [p[typ] = v] *)
Fixpoint set (typ : RRType) (v : RRs.t) (p : t) : t :=
  match p with
  | [] => [(typ, v)]
  | (k, w) :: rest =>
      if N.eqb typ k then (k, v) :: rest else (k, w) :: set typ v rest
  end.

Definition keys (p : t) : list RRType := map fst p.

(** [func (p Parts) Join() (rrs RRs)] *)
Definition Join (order : list RRType) (p : t) : RRs.t :=
  fold_left (fun rrs typ => rrs ++ at_ typ p) order [].

(** [func (a Parts) SetAdd(b Parts)], the range being over [b] *)
Definition SetAdd (order : list RRType) (a b : t) : outcome t :=
  fold_left
    (fun acc newtyp =>
       a <- acc ;;
       let newrecs := at_ newtyp b in
       match get newtyp a with
       | None => Ok (set newtyp newrecs a)
       | Some oldrecs =>
           oldrecs <- RRs.SetAdd oldrecs newrecs ;;
           Ok (set newtyp oldrecs a)
       end)
    order (Ok a).
End Parts.
End Parts.

Section Partition.
Context {NT : NetText} {UC : Unicode}.

(** [parts[v.Type] = append(parts[v.Type], v)] *)
Definition Partition_step (parts : Parts.t) (v : RR.t) : Parts.t :=
  Parts.set (RR.Type_ v) (Parts.at_ (RR.Type_ v) parts ++ [v]) parts.

(** The first loop of [Partition] *)
Definition grouped (r : RRs.t) : Parts.t := fold_left Partition_step r [].

(** [func (r RRs) Partition(unique bool) (parts Parts)] *)
Definition RRs_Partition (order : list RRType) (unique : bool) (r : RRs.t)
    : outcome Parts.t :=
  let parts := grouped r in
  if unique then
    fold_left
      (fun acc typ =>
         parts <- acc ;;
         part <- RRs.Unique (Parts.at_ typ parts) ;;
         Ok (Parts.set typ part parts))
      order (Ok parts)
  else Ok parts.
End Partition.

(** The records of [r] of type [typ], in their order. *)
Definition of_type (typ : RRType) (r : RRs.t) : RRs.t :=
  filter (fun v => N.eqb (RR.Type_ v) typ) r.

(** [order] lists, each once, the types that [r] has records of: an order a
    [range] over [Partition]'s map can take. *)
Definition range_of (order : list RRType) (r : RRs.t) : Prop :=
  NoDup order /\ forall typ, In typ order <-> of_type typ r <> [].

(** [order] lists the keys of [p], each once. *)
Definition range_over (order : list RRType) (p : list (RRType * RRs.t)) : Prop :=
  NoDup order /\ forall typ, In typ order <-> In typ (map fst p).

(** [x] is [l] with some members left out, the others in their order. *)
Fixpoint sublist {A} (x l : list A) : Prop :=
  match x, l with
  | [], _ => True
  | _ :: _, [] => False
  | a :: x', b :: l' => (a = b /\ sublist x' l') \/ sublist x l'
  end.

(** The two records have the same RDATA variant. *)
Definition same_variant (x y : RData) : bool :=
  match x, y with
  | RD_A _, RD_A _ | RD_AAAA _, RD_AAAA _ | RD_CNAME _, RD_CNAME _
  | RD_DNSKEY _, RD_DNSKEY _ | RD_DS _, RD_DS _ | RD_MX _, RD_MX _
  | RD_NODATA _, RD_NODATA _ | RD_NXDOMAIN _, RD_NXDOMAIN _ | RD_NS _, RD_NS _
  | RD_NSEC3 _, RD_NSEC3 _ | RD_NSEC3PARAM _, RD_NSEC3PARAM _
  | RD_PTR _, RD_PTR _ | RD_RRSIG _, RD_RRSIG _ | RD_SOA _, RD_SOA _
  | RD_TXT _, RD_TXT _ | RD_RDATA _, RD_RDATA _ | RD_nil, RD_nil => true
  | _, _ => false
  end.

(** The RDATA variants without a domain name among their fields. *)
Definition name_free (v : RData) : bool :=
  match v with
  | RD_A _ | RD_AAAA _ | RD_DNSKEY _ | RD_DS _ | RD_NODATA _ | RD_NXDOMAIN _
  | RD_NSEC3 _ | RD_NSEC3PARAM _ | RD_TXT _ | RD_RDATA _ => true
  | _ => false
  end.

(** Type, class and owner name, the name whatever the case of its letters,
    agree: what [Equal] checks before it looks at the RDATA. *)
Definition same_header {UC : Unicode} (a b : RR.t) : Prop :=
  RR.Type_ a = RR.Type_ b /\ RR.Class a = RR.Class b /\
  ToLower (RR.Name a) = ToLower (RR.Name b).

(** What [CharString_Encode] appends for [s]: the length octet and the
    octets of [s]. *)
Definition CharString_wire (s : string) : bytes :=
  byte_of_N (N.of_nat (String.length s)) :: bytes_of_string s.

(** The 16-bit big-endian integer at [pos]. *)
Definition uint16_at (b : bytes) (pos : nat) : N :=
  N.lor (N.shiftl (byte_at b pos) 8) (byte_at b (pos + 1)).

Section Envelope.
Context {DN : DomainName} {NT : NetText}.

(** The octets [RData_Encode] appends for [v] to an empty buffer. *)
Definition RData_wire (v : RData) : bytes :=
  match RR.RData_Encode v newWirebuf with
  | Ok w => Buf w
  | _ => []
  end.

(** [RR.Decode] reads at [pos] the head of a record: owner name, type, class,
    TTL and RDLENGTH [n], and the RDATA starts at [p5]. *)
Definition header_at (b : bytes) (pos : nat) (name : string) (typ : RRType)
    (class : RRClass) (ttl : N) (n : N) (p5 : nat) : Prop :=
  exists p1,
    DomainName_Decode b pos = Ret name p1 /\
    Octets2_Decode b p1 = Ret typ (p1 + 2) /\
    Octets2_Decode b (p1 + 2) = Ret class (p1 + 2 + 2) /\
    Octets4_Decode b (p1 + 2 + 2) = Ret ttl (p1 + 2 + 2 + 4) /\
    Octets2_Decode b (p1 + 2 + 2 + 4) = Ret n (p1 + 2 + 2 + 4 + 2) /\
    p5 = p1 + 2 + 2 + 4 + 2.
End Envelope.

(** ** Values of the closed examples, continued *)

Definition three_a : RRs.t :=
  [rr_a "a.example."; rr_a "A.example."; rr_a "b.example."].

Definition mixed : RRs.t := [rr_a "a.example."; rr_upper; rr_a "A.example."].

Definition parts_a : list (RRType * RRs.t) := [(TYPE_A, [rr_a "a.example."])].

Definition parts_b : list (RRType * RRs.t) :=
  [ (TYPE_A, [rr_a "A.example."; rr_a "b.example."]);
    (TYPE_CNAME, [rr_upper; rr_lower]) ].

(** A record of type A that holds the RDATA of an MX record. *)
Definition rr_a_with_mx : RR.t :=
  {| RR.Name := "A.example."; RR.Type_ := TYPE_A; RR.Class := CLASS_IN;
     RR.TTL := 60; RR.RData_ := rr_mx |}.

(** NSEC3 parameters with a salt of 300 octets. *)
Definition long_salt : NSEC3PARAM.t :=
  {| NSEC3PARAM.HashAlgorithm := 1; NSEC3PARAM.Flags := 0;
     NSEC3PARAM.Iterations := 12; NSEC3PARAM.Salt := repeat (b 170) 300 |}.

(** The record [a. IN 60 A] with an RDLENGTH of 6: the address 192.0.2.1 and
    two octets more. *)
Definition wire_a6 : bytes :=
  [ b 1; "a"%char; b 0; b 0; b 1; b 0; b 1; b 0; b 0; b 0; b 60; b 0; b 6;
    b 192; b 0; b 2; b 1; b 9; b 9 ].

(** A scanner on the source [text], in the start condition [sc]. *)
Definition lex_on (sc : startCond) (text : bytes) : lex :=
  begin sc (newLex "zone" text None None).

Definition twenty_nines : bytes := repeat "9"%char 20.

(** A text with a double quote between its two letters. *)
Definition quote_inside : string := String "a" (String dquote "b").

(** ** Vocabulary of the rounds of the scanner *)

(** No class of the pattern holds the byte 0. *)
Fixpoint nul_free (r : re) : bool :=
  match r with
  | Void | Eps => true
  | Cls p => negb (p x00)
  | Alt a b | Cat a b => (nul_free a && nul_free b)%bool
  | Star a => nul_free a
  end.

(** The bytes the scanner has still to take: those left in the reader, and
    the character ahead unless it is the 0 of the end of the input. *)
Definition pending (l : lex) (c : byte) : nat :=
  length (src l) + (if byte_eqb c x00 then 0 else 1).

Section Rounds.
Context {NP : NetParse}.

(** What the actions of the rules have in common: an action returns or
    panics, and it leaves the reader and the start condition alone. *)
Definition tame (a : action) : Prop :=
  forall l lval,
    match a l lval with
    | Ok (l', _, _) => src l' = src l /\ startCond_ l' = startCond_ l
    | Panic _ => True
    | Fatal _ => False
    end.

(** A state of the DFA reached from the start state. *)
Definition reachable (state : list (rule * re)) : Prop :=
  Forall (fun x => In (fst x) rules /\ nul_free (snd x) = true) state.
End Rounds.

(** ** Vocabulary of what the scanner skips *)

(** The class of [.]. *)
Definition any_char (c : ascii) : bool := (not_nul c && negb (Ascii.eqb c nl))%bool.

(** The scan starts a line in the initial start condition, where the rules
    with [^] are active. *)
Definition at_bol (l : lex) : bool :=
  (startCond_eqb (startCond_ l) sc_INITIAL && yyb l)%bool.

(** The rules of blanks and comments, as they stand in [rules]. *)
Definition rule_bol_blanks_eol : rule := mk initial true blanks true act_skip.
Definition rule_blanks_eol : rule := mk declared false blanks true act_skip.
Definition rule_comment : rule := mk declared false comment false act_skip.
Definition rule_blank_start : rule :=
  mk initial true blanks false (act_ret tBLANK_START).
Definition rule_blanks : rule := mk declared false blanks false act_skip.

(** The state of the DFA inside a run of blanks, at the beginning of a line
    of the initial start condition and elsewhere. *)
Definition in_blanks (bol : bool) : list (rule * re) :=
  let s := Star (Cls is_blank) in
  if bol
  then [ (rule_bol_blanks_eol, s); (rule_blanks_eol, s); (rule_comment, comment);
         (rule_blank_start, s); (rule_blanks, s) ]
  else [ (rule_blanks_eol, s); (rule_comment, comment); (rule_blanks, s) ].

(** ** Vocabulary of the scenarios *)

Section Scenarios.
Context {NP : NetParse}.


End Scenarios.



(** * Properties *)

(** ** Helper facts on the primitives *)

Lemma Octets4_Decode_Fail_iff b p :
  (exists e, Octets4_Decode b p = Fail e) <-> length b < p + 4.
Proof.
  unfold Octets4_Decode.
  destruct (Nat.ltb_spec (length b) (p + 4)); split; intros H0.
  - assumption.
  - eauto.
  - destruct H0 as [e He]. discriminate.
  - lia.
Qed.

Lemma Octets4_Decode_Ret b p v p' :
  Octets4_Decode b p = Ret v p' -> p' = p + 4 /\ p + 4 <= length b.
Proof.
  unfold Octets4_Decode.
  destruct (Nat.ltb_spec (length b) (p + 4)); intros H0.
  - discriminate.
  - inversion H0. lia.
Qed.

Lemma Octets4_fail_mono b p q e :
  Octets4_Decode b p = Fail e -> p <= q -> exists e', Octets4_Decode b q = Fail e'.
Proof.
  intros H Hle. apply Octets4_Decode_Fail_iff.
  assert (length b < p + 4) by (apply Octets4_Decode_Fail_iff; eauto). lia.
Qed.

(** ** SOA.Decode and failing field decodes *)

Module SOAFacts.
Section SOAFacts.
Context {DN : DomainName}.

Lemma after4_ge b p : p <= SOA.after4 b p.
Proof.
  unfold SOA.after4. destruct (Octets4_Decode b p) eqn:E; [|lia].
  apply Octets4_Decode_Ret in E. lia.
Qed.

Lemma dropErr_field4 (set : N -> SOA.t -> SOA.t) (k : Dec SOA.t) b d pos :
  exists d', dropErr (field Octets4_Decode set b) k d pos = k d' (SOA.after4 b pos).
Proof.
  unfold dropErr, field, SOA.after4. destruct (Octets4_Decode b pos); eauto.
Qed.

(** C3.  Whenever one of the seven field decodes of [SOA.Decode] fails,
    [SOA.Decode] returns a non-nil error.  The result of [Serial],
    [Refresh], [Retry] and [Expire] is dropped by the code, but a fixed-width
    decode that fails leaves the cursor where it is, so the decode of
    [Minimum], whose error is returned, fails as well. *)
Theorem Decode_field_failure b d pos :
  SOA.field_fails b pos ->
  exists d' pos' e, SOA.Decode b d pos = Ok (d', pos', Some e).
Proof.
  intros [[e He] | (m & p1 & Hm & [[e He] | (r & p2 & Hr & Hfix)])].
  - unfold SOA.Decode, andThen, field at 1. rewrite He. eauto.
  - unfold SOA.Decode, andThen, field at 1. rewrite Hm.
    unfold field at 1. rewrite He. eauto.
  - cbv zeta in Hfix. destruct Hfix as [e Hfix].
    unfold SOA.Decode, andThen, field at 1. rewrite Hm.
    unfold field at 1. rewrite Hr.
    destruct (dropErr_field4 SOA.set_Serial
      (dropErr (field Octets4_Decode SOA.set_Refresh b)
      (dropErr (field Octets4_Decode SOA.set_Retry b)
      (dropErr (field Octets4_Decode SOA.set_Expire b)
      (field Octets4_Decode SOA.set_Minimum b)))) b
      (SOA.set_RName r (SOA.set_MName m d)) p2) as [d3 ->].
    destruct (dropErr_field4 SOA.set_Refresh
      (dropErr (field Octets4_Decode SOA.set_Retry b)
      (dropErr (field Octets4_Decode SOA.set_Expire b)
      (field Octets4_Decode SOA.set_Minimum b))) b d3 (SOA.after4 b p2)) as [d4 ->].
    destruct (dropErr_field4 SOA.set_Retry
      (dropErr (field Octets4_Decode SOA.set_Expire b)
      (field Octets4_Decode SOA.set_Minimum b)) b d4
      (SOA.after4 b (SOA.after4 b p2))) as [d5 ->].
    destruct (dropErr_field4 SOA.set_Expire
      (field Octets4_Decode SOA.set_Minimum b) b d5
      (SOA.after4 b (SOA.after4 b (SOA.after4 b p2)))) as [d6 ->].
    set (p6 := SOA.after4 b (SOA.after4 b (SOA.after4 b (SOA.after4 b p2)))) in *.
    assert (Hlast : exists e', Octets4_Decode b p6 = Fail e').
    { pose proof (after4_ge b p2). pose proof (after4_ge b (SOA.after4 b p2)).
      pose proof (after4_ge b (SOA.after4 b (SOA.after4 b p2))).
      pose proof (after4_ge b (SOA.after4 b (SOA.after4 b (SOA.after4 b p2)))).
      destruct Hfix as [H3 | [H3 | [H3 | [H3 | H3]]]];
        (eapply Octets4_fail_mono; [exact H3 | subst p6; lia]). }
    destruct Hlast as [e' He']. unfold field. rewrite He'. eauto.
Qed.

(** The other direction, for the record: a [nil] error means every field
    was decoded, each at the cursor left by the one before. *)
Lemma Decode_success b d pos d' pos' :
  SOA.Decode b d pos = Ok (d', pos', None) ->
  exists m p1 r p2 s rf rt ex mi,
    DomainName_Decode b pos = Ret m p1 /\
    DomainName_Decode b p1 = Ret r p2 /\
    Octets4_Decode b p2 = Ret s (p2 + 4) /\
    Octets4_Decode b (p2 + 4) = Ret rf (p2 + 8) /\
    Octets4_Decode b (p2 + 8) = Ret rt (p2 + 12) /\
    Octets4_Decode b (p2 + 12) = Ret ex (p2 + 16) /\
    Octets4_Decode b (p2 + 16) = Ret mi (p2 + 20) /\
    pos' = p2 + 20 /\
    d' = {| SOA.MName := m; SOA.RName := r; SOA.Serial := s; SOA.Refresh := rf;
            SOA.Retry := rt; SOA.Expire := ex; SOA.Minimum := mi |}.
Proof.
  unfold SOA.Decode, andThen, dropErr, field.
  destruct (DomainName_Decode b pos) as [m p1|] eqn:Hm; [|discriminate].
  destruct (DomainName_Decode b p1) as [r p2|] eqn:Hr; [|discriminate].
  intros H. unfold Octets4_Decode in H.
  repeat match type of H with
  | context [Nat.ltb ?a ?q] => destruct (Nat.ltb_spec a q)
  end; try discriminate; try lia.
  inversion H; subst. clear H.
  exists m, p1, r, p2. do 5 eexists.
  split; [first [exact Hm | reflexivity]|].
  split; [first [exact Hr | reflexivity]|].
  unfold Octets4_Decode.
  repeat match goal with
  | |- context [Nat.ltb (length b) ?q] =>
      destruct (Nat.ltb_spec (length b) q); [lia|]
  end.
  repeat (split; [f_equal; lia|]).
  split; [lia|].
  unfold SOA.set_Minimum, SOA.set_Expire, SOA.set_Retry, SOA.set_Refresh,
    SOA.set_Serial, SOA.set_RName, SOA.set_MName; simpl.
  repeat (f_equal; try lia).
Qed.
End SOAFacts.
End SOAFacts.

(** ** Letter case *)

Section LetterCase.
Context {UC : Unicode}.

(** Texts that differ only in letter case have one lower case. *)
Lemma ToLower_case_variant s t : case_variant s t -> ToLower s = ToLower t.
Proof.
  unfold case_variant, ToLower. intros H. f_equal.
  induction H as [|c d cs ds Hcd _ IH]; cbn [map]; [reflexivity|].
  unfold same_letter in Hcd. now rewrite Hcd, IH.
Qed.

Lemma case_variant_refl s : case_variant s s.
Proof.
  unfold case_variant. induction (runes s); constructor; [reflexivity | assumption].
Qed.

Lemma RData_case_variant_refl d : RData_case_variant d d.
Proof.
  destruct d; simpl; repeat split; auto using case_variant_refl.
Qed.

Lemma RR_case_variant_refl a : RR_case_variant a a.
Proof.
  unfold RR_case_variant.
  repeat split; auto using case_variant_refl, RData_case_variant_refl.
Qed.
End LetterCase.

Lemma byte_eqb_refl c : byte_eqb c c = true.
Proof. apply Ascii.eqb_refl. Qed.

Lemma bytes_Equal_refl x : bytes_Equal x x = true.
Proof.
  induction x; simpl; [reflexivity|]. now rewrite byte_eqb_refl, IHx.
Qed.

Lemma bytes_Equal_eq x y : bytes_Equal x y = true <-> x = y.
Proof.
  split.
  - revert y. induction x as [|c x IH]; destruct y as [|d y]; simpl;
      try discriminate; auto.
    intros H. apply andb_true_iff in H. destruct H as [Hc Hr].
    apply Ascii.eqb_eq in Hc. subst. f_equal. auto.
  - intros ->. apply bytes_Equal_refl.
Qed.

(** ** RR.Equal *)

Module EqualFacts.
Section EqualFacts.
Context {NT : NetText} {UC : Unicode}.

Ltac refl_eqb :=
  repeat first
    [ rewrite N.eqb_refl | rewrite Z.eqb_refl | rewrite String.eqb_refl
    | rewrite bytes_Equal_refl ];
  simpl.

(** Records that differ at most in letter case compare equal. *)
Lemma Equal_of_case_variant a b :
  known (RR.RData_ a) -> RR_case_variant a b -> RR.Equal a b = Ok true.
Proof.
  intros Hk (Hn & Ht & Hc & _ & Hd).
  unfold RR.Equal. rewrite Ht, Hc, (ToLower_case_variant _ _ Hn). refl_eqb.
  destruct (RR.RData_ a) eqn:Ea; destruct (RR.RData_ b) eqn:Eb;
    simpl in Hd; try discriminate Hd; try (now elim Hk);
    try (injection Hd as ->); try reflexivity;
    try (now refl_eqb);
    repeat match goal with
    | H : _ /\ _ |- _ => destruct H
    | H : case_variant _ _ |- _ => apply ToLower_case_variant in H; rewrite H
    | H : _ = _ |- _ => rewrite H
    end; now refl_eqb.
Qed.

Lemma Equal_refl a : known (RR.RData_ a) -> RR.Equal a a = Ok true.
Proof.
  intros Hk. apply Equal_of_case_variant; auto using RR_case_variant_refl.
Qed.

Lemma Equal_nil a : RR.RData_ a = RD_nil -> exists m, RR.Equal a a = Fatal m.
Proof.
  intros H. unfold RR.Equal. refl_eqb. rewrite H. eauto.
Qed.


(** C4.  [Equal] on two RRSIG records does not look at the signature
    inception: records that agree on every field but [Inception] compare
    equal, whatever the two inception times are. *)
Theorem Equal_RRSIG_ignores_Inception name typ class ttl (x : RRSIG.t) (i : N) :
  RR.Equal
    {| RR.Name := name; RR.Type_ := typ; RR.Class := class; RR.TTL := ttl;
       RR.RData_ := RD_RRSIG x |}
    {| RR.Name := name; RR.Type_ := typ; RR.Class := class; RR.TTL := ttl;
       RR.RData_ := RD_RRSIG (RRSIG.set_Inception i x) |}
  = Ok true.
Proof.
  unfold RR.Equal; simpl. now refl_eqb.
Qed.
End EqualFacts.
End EqualFacts.

(** ** RRs.SetAdd and RRs.Unique *)

Module SetFacts.
Section SetFacts.
Context {NT : NetText} {UC : Unicode}.

Lemma distinct_nil : distinct [].
Proof. intros p x q H. destruct p; discriminate. Qed.

Lemma distinct_snoc r x :
  distinct r -> RRs.isNew x r = Ok true -> distinct (r ++ [x]).
Proof.
  intros Hr Hx p y q E.
  destruct q as [|z q] using rev_ind.
  - apply app_inj_tail in E. destruct E as [-> ->]. exact Hx.
  - clear IHq. change (p ++ y :: q ++ [z]) with (p ++ (y :: q) ++ [z]) in E.
    rewrite app_assoc in E. apply app_inj_tail in E. destruct E as [-> _].
    eapply Hr; reflexivity.
Qed.

Lemma SetAdd_distinct rrs : forall r r',
  distinct r -> RRs.SetAdd r rrs = Ok r' -> distinct r'.
Proof.
  induction rrs as [|x rrs IH]; simpl; intros r r' Hr H.
  - now inversion H; subst.
  - destruct (RRs.isNew x r) as [[]| |] eqn:E; simpl in H; try discriminate.
    + eapply IH; [|exact H]. now apply distinct_snoc.
    + eapply IH; [|exact H]. exact Hr.
Qed.

Lemma SetAdd_of_distinct q : forall p,
  distinct (p ++ q) -> RRs.SetAdd p q = Ok (p ++ q).
Proof.
  induction q as [|x q IH]; simpl; intros p H.
  - now rewrite app_nil_r.
  - rewrite (H p x q eq_refl). simpl.
    change (p ++ x :: q) with (p ++ [x] ++ q). rewrite app_assoc.
    apply IH. now rewrite <- app_assoc.
Qed.

Lemma SetAdd_length rrs : forall r r',
  RRs.SetAdd r rrs = Ok r' -> length r' <= length r + length rrs.
Proof.
  induction rrs as [|x rrs IH]; simpl; intros r r' H.
  - inversion H; subst. lia.
  - destruct (RRs.isNew x r) as [[]| |]; simpl in H; try discriminate;
      apply IH in H; rewrite ?length_app in H; simpl in H; lia.
Qed.

Lemma isNew_defined x r :
  (forall y, In y r -> exists b, RR.Equal x y = Ok b) ->
  exists b, RRs.isNew x r = Ok b.
Proof.
  induction r as [|y r IH]; simpl; intros H; [eauto|].
  destruct (H y (or_introl eq_refl)) as [b ->]. simpl.
  destruct b; [eauto|]. apply IH. intros z Hz. apply H. now right.
Qed.

Lemma SetAdd_defined s rrs : forall r,
  EqualDefined s -> incl rrs s -> incl r s ->
  exists r', RRs.SetAdd r rrs = Ok r'.
Proof.
  induction rrs as [|x rrs IH]; simpl; intros r Hs Hrrs Hr; [eauto|].
  assert (Hx : In x s) by (apply Hrrs; now left).
  destruct (isNew_defined x r) as [b ->].
  { intros y Hy. apply Hs; auto. }
  simpl. apply IH; auto.
  - intros y Hy. apply Hrrs. now right.
  - destruct b; [|exact Hr]. intros y Hy. apply in_app_or in Hy.
    destruct Hy as [Hy | [<- | []]]; auto.
Qed.

Lemma isNew_member x r :
  (forall y, In y r -> exists b, RR.Equal x y = Ok b) ->
  In x r -> RRs.isNew x r = Ok false.
Proof.
  induction r as [|y r IH]; simpl; intros H Hin; [contradiction|].
  destruct (H y (or_introl eq_refl)) as [b Hb]. rewrite Hb. simpl.
  destruct b; [reflexivity|].
  destruct Hin as [-> | Hin].
  - exfalso. destruct (RR.RData_ x) eqn:E;
      try (rewrite EqualFacts.Equal_refl in Hb;
           [discriminate | unfold known; rewrite E; discriminate]).
    destruct (EqualFacts.Equal_nil x E) as [m Hm]. congruence.
  - apply IH; auto.
Qed.

Lemma SetAdd_members s rrs :
  EqualDefined s -> incl rrs s -> RRs.SetAdd s rrs = Ok s.
Proof.
  intros Hs. induction rrs as [|x rrs IH]; simpl; intros Hrrs; [reflexivity|].
  assert (Hx : In x s) by (apply Hrrs; now left).
  rewrite isNew_member; auto.
  simpl. apply IH. intros y Hy. apply Hrrs. now right.
Qed.

(** C7.  On a record set on whose members [Equal] is defined, [Unique] is
    idempotent, does not lengthen the set, and [SetAdd] of the set to itself
    leaves its size (indeed the set) unchanged. *)
Theorem set_algebra s :
  EqualDefined s ->
  exists u s',
    RRs.Unique s = Ok u /\ RRs.Unique u = Ok u /\
    length u <= length s /\
    RRs.SetAdd s s = Ok s' /\ length s' = length s.
Proof.
  intros Hs.
  destruct (SetAdd_defined s s [] Hs (incl_refl s)) as [u Hu].
  { intros x []. }
  exists u, s. unfold RRs.Unique. repeat split.
  - exact Hu.
  - apply (SetAdd_of_distinct u []). simpl.
    eapply SetAdd_distinct; [apply distinct_nil | exact Hu].
  - apply SetAdd_length in Hu. simpl in Hu. exact Hu.
  - apply SetAdd_members; auto. apply incl_refl.
Qed.
End SetFacts.
End SetFacts.

(** ** Round trips of the primitive codec *)

Lemma N_of_byte_of_N n : N_of_byte (byte_of_N n) = (n mod 256)%N.
Proof.
  unfold N_of_byte, byte_of_N. apply N_ascii_embedding. now apply N.mod_lt.
Qed.

Lemma byte_of_N_of_byte c : byte_of_N (N_of_byte c) = c.
Proof.
  unfold N_of_byte, byte_of_N. rewrite N.mod_small by apply N_ascii_bounded.
  apply ascii_N_embedding.
Qed.

Lemma testbit_above n m i : (n < 2 ^ m)%N -> (m <= i)%N -> N.testbit n i = false.
Proof.
  intros Hn Hi. rewrite <- (N.mod_small n (2 ^ m)) by assumption.
  now apply N.mod_pow2_bits_high.
Qed.

(** One byte of a big-endian integer, put back in its place. *)
Lemma testbit_piece n k i :
  N.testbit (N.shiftl (N.shiftr n k mod 256) k) i
  = ((k <=? i)%N && (i <? k + 8)%N && N.testbit n i)%bool.
Proof.
  destruct (N.leb_spec k i) as [Hk|Hk].
  - rewrite N.shiftl_spec_high' by assumption.
    destruct (N.ltb_spec i (k + 8)) as [Hi|Hi]; cbn [andb];
      change 256%N with (2 ^ 8)%N.
    + rewrite N.mod_pow2_bits_low by lia. rewrite N.shiftr_spec'.
      f_equal. lia.
    + apply N.mod_pow2_bits_high. lia.
  - cbn [andb]. now apply N.shiftl_spec_low.
Qed.

Lemma testbit_low n i :
  N.testbit (n mod 256) i = ((i <? 8)%N && N.testbit n i)%bool.
Proof.
  pose proof (testbit_piece n 0 i) as H.
  rewrite N.shiftl_0_r, N.shiftr_0_r in H. rewrite H.
  now destruct (N.leb_spec 0 i); [|lia].
Qed.

Lemma be2 n :
  (n < 2 ^ 16)%N ->
  N.lor (N.shiftl (N.shiftr n 8 mod 256) 8) (n mod 256) = n.
Proof.
  intros Hn. apply N.bits_inj. intros i.
  rewrite N.lor_spec, testbit_piece, testbit_low.
  destruct (N.leb_spec 8 i), (N.ltb_spec i (8 + 8)), (N.ltb_spec i 8);
    simpl; try lia; rewrite ?orb_false_r; try reflexivity.
  symmetry. apply (testbit_above n 16); [assumption | lia].
Qed.

Lemma be4 n :
  (n < 2 ^ 32)%N ->
  N.lor (N.shiftl (N.shiftr n 24 mod 256) 24)
    (N.lor (N.shiftl (N.shiftr n 16 mod 256) 16)
       (N.lor (N.shiftl (N.shiftr n 8 mod 256) 8) (n mod 256))) = n.
Proof.
  intros Hn. apply N.bits_inj. intros i.
  rewrite !N.lor_spec, !testbit_piece, testbit_low.
  destruct (N.leb_spec 24 i), (N.ltb_spec i (24 + 8)), (N.leb_spec 16 i),
    (N.ltb_spec i (16 + 8)), (N.leb_spec 8 i), (N.ltb_spec i (8 + 8)),
    (N.ltb_spec i 8);
    simpl; try lia; rewrite ?orb_false_r; try reflexivity.
  symmetry. apply (testbit_above n 32); [assumption | lia].
Qed.

Lemma int32_roundtrip z :
  (- 2 ^ 31 <= z < 2 ^ 31)%Z -> int32_of_uint32 (uint32_of_int32 z) = z.
Proof.
  intros Hz. unfold int32_of_uint32, uint32_of_int32.
  assert (Hm : (0 <= z mod 2 ^ 32 < 2 ^ 32)%Z) by (apply Z.mod_pos_bound; lia).
  destruct (N.ltb_spec (Z.to_N (z mod 2 ^ 32)) (2 ^ 31)) as [H|H];
    rewrite Z2N.id by lia.
  - assert (z mod 2 ^ 32 < 2 ^ 31)%Z by lia.
    destruct (Z.neg_nonneg_cases z).
    + rewrite <- (Z.mod_unique z (2 ^ 32) (-1) (z + 2 ^ 32)) in * by lia. lia.
    + apply Z.mod_small. lia.
  - assert (2 ^ 31 <= z mod 2 ^ 32)%Z by lia.
    destruct (Z.neg_nonneg_cases z).
    + rewrite <- (Z.mod_unique z (2 ^ 32) (-1) (z + 2 ^ 32)) by lia. lia.
    + rewrite Z.mod_small in * by lia. lia.
Qed.

Lemma uint32_of_int32_lt z : (uint32_of_int32 z < 2 ^ 32)%N.
Proof.
  unfold uint32_of_int32.
  assert (Hm : (0 <= z mod 2 ^ 32 < 2 ^ 32)%Z) by (apply Z.mod_pos_bound; lia).
  lia.
Qed.

Lemma byte_at_app pre l k : byte_at (pre ++ l) (length pre + k) = byte_at l k.
Proof.
  unfold byte_at. rewrite app_nth2 by lia. f_equal. f_equal. lia.
Qed.

Lemma byte_at_app0 pre l : byte_at (pre ++ l) (length pre) = byte_at l 0.
Proof. rewrite <- (Nat.add_0_r (length pre)) at 1. apply byte_at_app. Qed.

Lemma nth_app_at pre (l : bytes) k d :
  nth (length pre + k) (pre ++ l) d = nth k l d.
Proof. rewrite app_nth2 by lia. f_equal. lia. Qed.

Lemma skipn_app_at (pre l : bytes) k :
  skipn (length pre + k) (pre ++ l) = skipn k l.
Proof.
  rewrite skipn_app. rewrite skipn_all2 by lia. simpl. f_equal. lia.
Qed.

Lemma skipn_app_at0 (pre l : bytes) : skipn (length pre) (pre ++ l) = l.
Proof.
  rewrite <- (Nat.add_0_r (length pre)). now rewrite skipn_app_at.
Qed.

Lemma firstn_app_exact (l r : bytes) : firstn (length l) (l ++ r) = l.
Proof.
  rewrite firstn_app, Nat.sub_diag, firstn_all. simpl. apply app_nil_r.
Qed.

Lemma Octet_Decode_at B pos pre n rest :
  (n < 256)%N -> B = pre ++ [byte_of_N n] ++ rest -> pos = length pre ->
  Octet_Decode B pos = Ret n (pos + 1).
Proof.
  intros Hn -> ->. unfold Octet_Decode.
  destruct (Nat.ltb_spec (length (pre ++ [byte_of_N n] ++ rest)) (length pre + 1)) as [H|_].
  - rewrite !length_app in H. simpl in H. lia.
  - rewrite byte_at_app0. unfold byte_at. cbn [nth app].
    rewrite N_of_byte_of_N. now rewrite N.mod_small.
Qed.

Lemma Octets2_Decode_at B pos pre n rest :
  (n < 2 ^ 16)%N ->
  B = pre ++ [byte_of_N (N.shiftr n 8); byte_of_N n] ++ rest -> pos = length pre ->
  Octets2_Decode B pos = Ret n (pos + 2).
Proof.
  intros Hn -> ->. unfold Octets2_Decode.
  match goal with |- context [Nat.ltb ?a ?b] => destruct (Nat.ltb_spec a b) as [H|_] end.
  - rewrite !length_app in H. simpl in H. lia.
  - rewrite byte_at_app0, byte_at_app. unfold byte_at. cbn [nth app].
    rewrite !N_of_byte_of_N. now rewrite be2.
Qed.

Lemma Octets4_Decode_at B pos pre n rest :
  (n < 2 ^ 32)%N ->
  B = pre ++ [byte_of_N (N.shiftr n 24); byte_of_N (N.shiftr n 16);
              byte_of_N (N.shiftr n 8); byte_of_N n] ++ rest ->
  pos = length pre ->
  Octets4_Decode B pos = Ret n (pos + 4).
Proof.
  intros Hn -> ->. unfold Octets4_Decode.
  match goal with |- context [Nat.ltb ?a ?b] => destruct (Nat.ltb_spec a b) as [H|_] end.
  - rewrite !length_app in H. simpl in H. lia.
  - rewrite byte_at_app0, !byte_at_app. unfold byte_at. cbn [nth app].
    rewrite !N_of_byte_of_N. now rewrite be4.
Qed.

(** ** Round trips of the RDATA variants *)

Lemma length_bytes_of_string s : length (bytes_of_string s) = String.length s.
Proof. induction s; simpl; auto. Qed.

Lemma store_at pre (v c : byte) rest :
  store (length pre) v (pre ++ c :: rest) = Ok (pre ++ v :: rest).
Proof.
  unfold store.
  destruct (Nat.ltb_spec (length pre) (length (pre ++ c :: rest))) as [_|H].
  - rewrite firstn_app_exact. replace (length pre + 1) with (length pre + 1) by lia.
    now rewrite skipn_app_at.
  - rewrite length_app in H. simpl in H. lia.
Qed.

Ltac list_eq_end :=
  first [ reflexivity
        | symmetry; apply app_nil_r
        | apply (f_equal2 (@app _) eq_refl); list_eq_end
        | apply (f_equal2 (@cons _) eq_refl); list_eq_end ].
Ltac list_eq :=
  repeat first [ rewrite <- app_assoc | progress cbn [app] ]; list_eq_end.
Ltac len_eq := repeat rewrite length_app; cbn [length]; lia.

Ltac rd_range := solve [assumption | lia | apply uint32_of_int32_lt].
Ltac rd1 pre :=
  erewrite (Octet_Decode_at _ _ pre);
    [ | | | solve [len_eq] ]; [ | | solve [list_eq] ]; [ | rd_range ].
Ltac rd2 pre :=
  erewrite (Octets2_Decode_at _ _ pre);
    [ | | | solve [len_eq] ]; [ | | solve [list_eq] ]; [ | rd_range ].
Ltac rd4 pre :=
  erewrite (Octets4_Decode_at _ _ pre);
    [ | | | solve [len_eq] ]; [ | | solve [list_eq] ]; [ | rd_range ].

(** Try the left-nested prefixes of the buffer, longest first. *)
Ltac with_prefix tac B :=
  match B with
  | ?X ++ _ => first [ tac X | with_prefix tac X ]
  end.

Lemma newRData_fallback (t : RRType) :
  ~ In t decodeTable -> RR.newRData t = RD_RDATA RDATA.zero.
Proof.
  intros Ht. unfold RR.newRData.
  repeat match goal with
  | |- context [N.eqb t ?k] =>
      destruct (N.eqb_spec t k) as [->|_];
      [exfalso; apply Ht; unfold decodeTable; simpl; tauto|]
  end. reflexivity.
Qed.

Module Roundtrip.
Section Roundtrip.
Context {DN : DomainName} {NT : NetText}.
Variable legal : string -> Prop.
Hypothesis laws : DomainNameLaws DN legal.

Lemma name_at B pos W n e rest :
  legal n -> Buf (DomainName_Encode n W) = Buf W ++ e ->
  B = Buf W ++ e ++ rest -> pos = length (Buf W) ->
  DomainName_Decode B pos = Ret n (pos + length e).
Proof.
  intros Hn He -> ->. now apply (dn_roundtrip _ _ laws).
Qed.

(** Expose what each name encode appends, innermost first. *)
Ltac open_names :=
  repeat match goal with
  | |- context [DomainName_Encode ?n ?W] =>
      lazymatch W with
      | context [DomainName_Encode] => fail
      | _ => let e := fresh "e" in
             let He := fresh "He" in
             destruct (dn_appends _ _ laws n W) as [e He];
             rewrite He
      end
  end.

Ltac rdn :=
  match goal with
  | He : DomainName_Encode ?n ?W = _ |- context [DomainName_Decode ?B ?p] =>
      erewrite (name_at B p W n);
        [ | solve [assumption]
          | solve [rewrite He; reflexivity]
          | solve [cbn [Buf wappend Octets2_Encode Octet_Encode Octets4_Encode
                        DisableCompression EnableCompression]; list_eq]
          | solve [cbn [Buf wappend Octets2_Encode Octet_Encode Octets4_Encode
                        DisableCompression EnableCompression]; len_eq] ]
  end.

Ltac dstep :=
  match goal with
  | |- context [Octet_Decode ?B ?p] => with_prefix rd1 B
  | |- context [Octets2_Decode ?B ?p] => with_prefix rd2 B
  | |- context [Octets4_Decode ?B ?p] => with_prefix rd4 B
  | |- context [DomainName_Decode ?B ?p] => rdn
  end.

Ltac start :=
  eexists; split; [reflexivity|];
  cbn [Buf Zip wappend Octets2_Encode Octet_Encode Octets4_Encode
       Type_Encode CharString_Encode DisableCompression EnableCompression].

Lemma To4_length ip p4 : To4 ip = Some p4 -> length p4 = 4.
Proof.
  unfold To4. destruct (Nat.eqb_spec (length ip) 4) as [H|_].
  - intros [= <-]. exact H.
  - destruct (Nat.eqb_spec (length ip) 16) as [H|_]; cbn [andb];
      [|discriminate].
    destruct (_ && _)%bool; [|discriminate]. intros [= <-].
    do 16 (destruct ip as [|? ip]; [discriminate H|]). reflexivity.
Qed.

Lemma To16_length ip p16 : To16 ip = Some p16 -> length p16 = 16.
Proof.
  unfold To16. destruct (Nat.eqb_spec (length ip) 4) as [_|_].
  - intros [= <-]. reflexivity.
  - destruct (Nat.eqb_spec (length ip) 16) as [H|_]; [|discriminate].
    intros [= <-]. exact H.
Qed.

(** [To4] narrows the 16-byte form of an address back to its four octets. *)
Lemma To4_widen p4 : length p4 = 4 -> To4 (widen p4) = Some p4.
Proof.
  intros H. do 4 (destruct p4 as [|? p4]; try discriminate H).
  destruct p4; [|discriminate H]. unfold widen, To4, IPv4.
  cbn [nth length Nat.eqb firstn skipn isZeros forallb andb].
  rewrite !byte_eqb_refl. reflexivity.
Qed.

(** An address of 16 octets that [To4] narrows is the 16-byte form of its
    four octets. *)
Lemma widen_To4 ip p4 : length ip = 16 -> To4 ip = Some p4 -> widen p4 = ip.
Proof.
  intros H. do 16 (destruct ip as [|? ip]; try discriminate H).
  destruct ip; [|discriminate H]. unfold To4.
  cbn [length Nat.eqb firstn skipn isZeros forallb nth].
  intros E.
  match type of E with
  | context [if ?c then _ else _] => destruct c eqn:C; [|discriminate E]
  end.
  injection E as <-. unfold widen, IPv4. cbn [nth].
  unfold byte_eqb in C.
  repeat match goal with
  | H : (_ && _)%bool = true |- _ => apply andb_true_iff in H; destruct H
  | H : Ascii.eqb _ _ = true |- _ => apply Ascii.eqb_eq in H; subst
  end.
  reflexivity.
Qed.

Lemma A_roundtrip (x : A.t) w d0 p4 :
  To4 (A.Address x) = Some p4 ->
  exists w', A.Encode x w = Ok w' /\
    A.Decode (Buf w') d0 (length (Buf w))
    = Ok ({| A.Address := widen p4 |}, length (Buf w'), None).
Proof.
  intros H. pose proof (To4_length _ _ H) as Hl.
  unfold A.Encode, ip4.Encode, ip4.EncodeWith, A.Decode, field, ip4.Decode.
  rewrite H. cbv [asserts andb orNil].
  eexists; split; [reflexivity|].
  cbn [Buf wappend].
  destruct (Nat.ltb_spec (length (Buf w ++ p4)) (length (Buf w) + 4)) as [H0|_].
  - rewrite length_app in H0. lia.
  - rewrite <- (Nat.add_0_r (length (Buf w))) at 1.
    rewrite !nth_app_at. rewrite length_app, Hl. reflexivity.
Qed.

Lemma AAAA_roundtrip (x : AAAA.t) w d0 p16 :
  To16 (AAAA.Address x) = Some p16 ->
  exists w', AAAA.Encode x w = Ok w' /\
    AAAA.Decode (Buf w') d0 (length (Buf w))
    = Ok ({| AAAA.Address := p16 |}, length (Buf w'), None).
Proof.
  intros H. pose proof (To16_length _ _ H) as Hl.
  unfold AAAA.Encode, ip6.Encode, ip6.EncodeWith, AAAA.Decode, field, ip6.Decode.
  rewrite H. cbv [asserts andb orNil].
  eexists; split; [reflexivity|].
  cbn [Buf wappend].
  destruct (Nat.ltb_spec (length (Buf w ++ p16)) (length (Buf w) + 16)) as [H0|_].
  - rewrite length_app in H0. lia.
  - rewrite skipn_app_at0.
    replace (firstn 16 p16) with p16
      by (rewrite <- Hl; symmetry; apply firstn_all).
    rewrite length_app, Hl. reflexivity.
Qed.

Lemma CNAME_roundtrip (x : CNAME.t) w d0 :
  legal (CNAME.Name x) ->
  exists w', CNAME.Encode x w = Ok w' /\
    CNAME.Decode (Buf w') d0 (length (Buf w)) = Ok (x, length (Buf w'), None).
Proof.
  intros H. unfold CNAME.Encode, CNAME.Decode, field. open_names. start.
  rdn. destruct x. repeat f_equal. len_eq.
Qed.

Lemma NS_roundtrip (x : NS.t) w d0 :
  legal (NS.NSDName x) ->
  exists w', NS.Encode x w = Ok w' /\
    NS.Decode (Buf w') d0 (length (Buf w)) = Ok (x, length (Buf w'), None).
Proof.
  intros H. unfold NS.Encode, NS.Decode, field. open_names. start.
  rdn. destruct x. repeat f_equal. len_eq.
Qed.

Lemma PTR_roundtrip (x : PTR.t) w d0 :
  legal (PTR.PTRDName x) ->
  exists w', PTR.Encode x w = Ok w' /\
    PTR.Decode (Buf w') d0 (length (Buf w)) = Ok (x, length (Buf w'), None).
Proof.
  intros H. unfold PTR.Encode, PTR.Decode, field. open_names. start.
  rdn. destruct x. repeat f_equal. len_eq.
Qed.

Lemma MX_roundtrip (x : MX.t) w d0 :
  (MX.Preference x < 2 ^ 16)%N -> legal (MX.Exchange x) ->
  exists w', MX.Encode x w = Ok w' /\
    MX.Decode (Buf w') d0 (length (Buf w)) = Ok (x, length (Buf w'), None).
Proof.
  intros Hp H. unfold MX.Encode, MX.Decode, andThen, field. open_names. start.
  dstep. dstep. destruct x. unfold MX.set_Exchange, MX.set_Preference. simpl.
  repeat f_equal. len_eq.
Qed.

Lemma rest_of pre (l : bytes) :
  l <> [] ->
  ((Z.of_nat (length (pre ++ l)) - Z.of_nat (length pre) <=? 0)%Z = false) /\
  skipn (length pre) (pre ++ l) = l /\
  length pre + Z.to_nat (Z.of_nat (length (pre ++ l)) - Z.of_nat (length pre))
  = length (pre ++ l).
Proof.
  intros Hl. rewrite length_app.
  assert (0 < length l) by (destruct l; [congruence | simpl; lia]).
  repeat split.
  - apply Z.leb_gt. lia.
  - apply skipn_app_at0.
  - lia.
Qed.

Lemma DNSKEY_roundtrip (x : DNSKEY.t) w d0 :
  legal_rdata legal (RD_DNSKEY x) ->
  exists w', DNSKEY.Encode x w = Ok w' /\
    DNSKEY.Decode (Buf w') d0 (length (Buf w)) = Ok (x, length (Buf w'), None).
Proof.
  intros (Hf & Hp & Ha & Hk). unfold DNSKEY.Encode, DNSKEY.Decode, andThen, field.
  start. do 3 dstep.
  match goal with |- context [skipn ?p (?pre ++ DNSKEY.Key x)] =>
    replace p with (length pre) by len_eq;
    destruct (rest_of pre (DNSKEY.Key x) Hk) as (-> & -> & ->)
  end.
  now destruct x.
Qed.

Lemma Ok_triple {A B C} (a a' : A) (b b' : B) (c : C) :
  a = a' -> b = b' -> @Ok (A * B * C) (a, b, c) = Ok (a', b', c).
Proof. now intros -> ->. Qed.

(** [DS.Decode] on what [DS.Encode] has written, branch by branch. *)
Lemma DS_decode_encode (x : DS.t) w d0 :
  legal_rdata legal (RD_DS x) ->
  exists w', DS.Encode x w = Ok w' /\
    length (Buf w') = length (Buf w) + 4 + length (DS.Digest x) /\
    DS.Decode (Buf w') d0 (length (Buf w))
    = if N.eqb (DS.DigestType x) HashAlgorithmSHA1 then
        if Nat.ltb (length (DS.Digest x)) 20
        then Ok (DS.set_Digest (DS.Digest d0) x, length (Buf w) + 4,
                 Some "DS.Decode - buffer underflow"%string)
        else Ok (DS.set_Digest (firstn 20 (DS.Digest x)) x,
                 length (Buf w) + 24, None)
      else Ok (DS.set_Digest (DS.Digest d0) x, length (Buf w) + 4,
               Some ("unsupported digest type "
                     ++ itoa (Z.of_N (DS.DigestType x)))%string).
Proof.
  intros (Hk & Ha & Ht). unfold DS.Encode, DS.Decode, andThen, field.
  start. split; [len_eq|]. do 3 dstep.
  cbn [DS.DigestType DS.set_DigestType DS.set_AlgorithmType DS.set_KeyTag
       DS.KeyTag DS.AlgorithmType DS.Digest].
  destruct (N.eqb (DS.DigestType x) HashAlgorithmSHA1).
  - match goal with |- context [skipn ?p (?pre ++ DS.Digest x)] =>
      replace p with (length pre) by len_eq;
      rewrite (skipn_app_at0 pre (DS.Digest x))
    end.
    match goal with |- context [Nat.ltb ?a (?p + 20)] =>
      let b := constr:(p + 20) in
      assert (Hc : Nat.ltb a b = Nat.ltb (length (DS.Digest x)) 20)
        by (destruct (Nat.ltb_spec a b) as [H|H];
            destruct (Nat.ltb_spec (length (DS.Digest x)) 20) as [H'|H'];
            try reflexivity; exfalso; rewrite !length_app in H;
            cbn [length] in H; unfold byte in *; lia);
      rewrite Hc
    end.
    destruct (Nat.ltb (length (DS.Digest x)) 20);
      (apply Ok_triple; [destruct x, d0; reflexivity | len_eq]).
  - apply Ok_triple; [destruct x, d0; reflexivity | len_eq].
Qed.

Lemma DS_roundtrip (x : DS.t) w d0 :
  legal_rdata legal (RD_DS x) -> decodable (RD_DS x) ->
  exists w', DS.Encode x w = Ok w' /\
    DS.Decode (Buf w') d0 (length (Buf w)) = Ok (x, length (Buf w'), None).
Proof.
  intros Hl (Ht & Hd).
  destruct (DS_decode_encode x w d0 Hl) as (w' & He & Hlen & Hdec).
  exists w'. split; [exact He|]. rewrite Hdec, Ht, Hlen, Hd.
  cbn [N.eqb HashAlgorithmSHA1 Pos.eqb Nat.ltb Nat.leb].
  apply Ok_triple; [|lia].
  replace (firstn 20 (DS.Digest x)) with (DS.Digest x)
    by (rewrite <- Hd; symmetry; apply firstn_all).
  now destruct x.
Qed.

Lemma NODATA_roundtrip (x : NODATA.t) w d0 :
  legal_rdata legal (RD_NODATA x) ->
  exists w', NODATA.Encode x w = Ok w' /\
    NODATA.Decode (Buf w') d0 (length (Buf w)) = Ok (x, length (Buf w'), None).
Proof.
  intros H. unfold NODATA.Encode, NODATA.Decode, field, Type_Decode. simpl in H.
  start. dstep. destruct x. repeat f_equal. len_eq.
Qed.

Lemma NXDOMAIN_roundtrip (x : NXDOMAIN.t) w d0 :
  exists w', NXDOMAIN.Encode x w = Ok w' /\
    NXDOMAIN.Decode (Buf w') d0 (length (Buf w)) = Ok (x, length (Buf w'), None).
Proof.
  eexists; split; [reflexivity|]. now destruct x, d0.
Qed.

(** [NSEC3PARAM] is also the head of an NSEC3: its decode stops after the
    salt, whatever follows. *)
Lemma NSEC3PARAM_roundtrip_framed (x : NSEC3PARAM.t) w d0 rest :
  param_ok x ->
  exists w', NSEC3PARAM.Encode x w = Ok w' /\
    NSEC3PARAM.Decode (Buf w' ++ rest) d0 (length (Buf w))
    = Ok (x, length (Buf w'), None).
Proof.
  intros (Hh & Hf & Hi & Hs).
  unfold NSEC3PARAM.Encode, NSEC3PARAM.Decode, andThen, field, local.
  cbv [asserts andb].
  assert (Hl : (N.of_nat (length (NSEC3PARAM.Salt x)) < 256)%N) by lia.
  start. do 4 dstep.
  rewrite Nat2N.id.
  match goal with |- context [skipn ?p ((?pre ++ NSEC3PARAM.Salt x) ++ rest)] =>
    replace p with (length pre) by len_eq;
    rewrite <- (app_assoc pre); rewrite (skipn_app_at0 pre)
  end.
  match goal with |- context [Nat.ltb ?a ?b] => destruct (Nat.ltb_spec a b) as [H|_] end.
  - revert H. len_eq.
  - rewrite firstn_app_exact. destruct x. simpl. repeat f_equal. len_eq.
Qed.

Lemma NSEC3PARAM_roundtrip (x : NSEC3PARAM.t) w d0 :
  param_ok x ->
  exists w', NSEC3PARAM.Encode x w = Ok w' /\
    NSEC3PARAM.Decode (Buf w') d0 (length (Buf w)) = Ok (x, length (Buf w'), None).
Proof.
  intros H. destruct (NSEC3PARAM_roundtrip_framed x w d0 [] H) as (w' & He & Hd).
  exists w'. split; [exact He|]. now rewrite app_nil_r in Hd.
Qed.

Lemma NSEC3_roundtrip (x : NSEC3.t) w d0 :
  legal_rdata legal (RD_NSEC3 x) ->
  exists w', NSEC3.Encode x w = Ok w' /\
    NSEC3.Decode (Buf w') d0 (length (Buf w)) = Ok (x, length (Buf w'), None).
Proof.
  intros (Hp & Hn). unfold NSEC3.Encode, NSEC3.Decode, andThen, embedded, local.
  destruct (NSEC3PARAM_roundtrip_framed (NSEC3.PARAM x) w (NSEC3.PARAM d0)
    ([byte_of_N (N.shiftr (N.of_nat (length (NSEC3.NextHashedOwnerName x))) 8);
      byte_of_N (N.of_nat (length (NSEC3.NextHashedOwnerName x)))]
     ++ NSEC3.NextHashedOwnerName x ++ NSEC3.TypeBitMaps x) Hp)
    as (w1 & He & Hd).
  rewrite He. cbn [obind]. start.
  replace (((Buf w1 ++ [byte_of_N (N.shiftr (N.of_nat (length (NSEC3.NextHashedOwnerName x))) 8);
                        byte_of_N (N.of_nat (length (NSEC3.NextHashedOwnerName x)))])
            ++ NSEC3.NextHashedOwnerName x) ++ NSEC3.TypeBitMaps x)
    with (Buf w1 ++ [byte_of_N (N.shiftr (N.of_nat (length (NSEC3.NextHashedOwnerName x))) 8);
                     byte_of_N (N.of_nat (length (NSEC3.NextHashedOwnerName x)))]
            ++ NSEC3.NextHashedOwnerName x ++ NSEC3.TypeBitMaps x)
    by list_eq.
  rewrite Hd.
  rd2 (Buf w1). rewrite Nat2N.id.
  match goal with |- context [Nat.ltb ?a ?b] => destruct (Nat.ltb_spec a b) as [H|_] end.
  - revert H. len_eq.
  - replace (length (Buf w1) + 2) with
      (length (Buf w1 ++ [byte_of_N (N.shiftr (N.of_nat (length (NSEC3.NextHashedOwnerName x))) 8);
                          byte_of_N (N.of_nat (length (NSEC3.NextHashedOwnerName x)))]))
      by len_eq.
    rewrite (app_assoc (Buf w1)), skipn_app_at0, firstn_app_exact.
    rewrite <- length_app, (app_assoc (Buf w1 ++ _)), skipn_app_at0.
    rewrite length_app, Nat.add_comm, Nat.add_sub, firstn_all.
    destruct x. simpl. repeat f_equal.
Qed.

Lemma RRSIG_roundtrip (x : RRSIG.t) w d0 :
  legal_rdata legal (RD_RRSIG x) ->
  exists w', RRSIG.Encode x w = Ok w' /\
    RRSIG.Decode (Buf w') d0 (length (Buf w)) = Ok (x, length (Buf w'), None).
Proof.
  intros (Ht & Ha & Hl & Httl & Hex & Hin & Hk & Hn & Hs).
  unfold RRSIG.Encode, RRSIG.Decode, andThen, field. open_names. start.
  do 7 dstep. rdn.
  match goal with |- context [skipn ?p (?pre ++ RRSIG.Signature x)] =>
    replace p with (length pre) by len_eq;
    destruct (rest_of pre (RRSIG.Signature x) Hs) as (-> & -> & ->)
  end.
  destruct x. cbn [RRSIG.TTL] in Httl.
  cbv [RRSIG.set_Signature RRSIG.set_Name RRSIG.set_KeyTag RRSIG.set_Inception
       RRSIG.set_Expiration RRSIG.set_TTL RRSIG.set_Labels RRSIG.set_AlgorithmType
       RRSIG.set_Type RRSIG.Type_ RRSIG.AlgorithmType RRSIG.Labels RRSIG.TTL
       RRSIG.Expiration RRSIG.Inception RRSIG.KeyTag RRSIG.Name RRSIG.Signature].
  rewrite int32_roundtrip by assumption. reflexivity.
Qed.

Lemma SOA_roundtrip (x : SOA.t) w d0 :
  legal_rdata legal (RD_SOA x) ->
  exists w', SOA.Encode x w = Ok w' /\
    SOA.Decode (Buf w') d0 (length (Buf w)) = Ok (x, length (Buf w'), None).
Proof.
  intros (Hm & Hr & H1 & H2 & H3 & H4 & H5).
  unfold SOA.Encode, SOA.Decode, andThen, dropErr, field. open_names. start.
  rdn. rdn. do 5 dstep.
  destruct x.
  cbv [SOA.set_Minimum SOA.set_Expire SOA.set_Retry SOA.set_Refresh SOA.set_Serial
       SOA.set_RName SOA.set_MName SOA.MName SOA.RName SOA.Serial SOA.Refresh
       SOA.Retry SOA.Expire SOA.Minimum].
  repeat f_equal. len_eq.
Qed.

Lemma loop_end rounds b s pos :
  length b <= pos -> TXT.loop rounds b s pos = (s, pos, None).
Proof.
  intros H. destruct rounds; cbn [TXT.loop];
    destruct (Nat.ltb_spec pos (length b)); try lia; reflexivity.
Qed.

Lemma loop_step rounds b s pos part pos' :
  pos < length b -> CharString_Decode b pos = Ret part pos' ->
  TXT.loop (S rounds) b s pos = TXT.loop rounds b (s ++ part)%string pos'.
Proof.
  intros H Hc. cbn [TXT.loop]. rewrite Hc.
  destruct (Nat.ltb_spec pos (length b)); [reflexivity | lia].
Qed.

Lemma TXT_roundtrip (x : TXT.t) w d0 :
  legal_rdata legal (RD_TXT x) ->
  exists w', TXT.Encode x w = Ok w' /\
    TXT.Decode (Buf w') d0 (length (Buf w)) = Ok (x, length (Buf w'), None).
Proof.
  intros H. simpl in H. unfold TXT.Encode, TXT.Decode. start.
  set (B := (Buf w ++ [byte_of_N (N.of_nat (String.length (TXT.S x)))])
            ++ bytes_of_string (TXT.S x)).
  assert (HB : length B = length (Buf w) + 1 + String.length (TXT.S x)).
  { subst B. rewrite !length_app, length_bytes_of_string. simpl. lia. }
  assert (Hc : CharString_Decode B (length (Buf w))
               = Ret (TXT.S x) (length (Buf w) + 1 + String.length (TXT.S x))).
  { unfold CharString_Decode.
    assert (Hn : N.to_nat (byte_at B (length (Buf w))) = String.length (TXT.S x)).
    { subst B. rewrite <- app_assoc, byte_at_app0. unfold byte_at. cbn [nth app].
      rewrite N_of_byte_of_N, N.mod_small by lia. apply Nat2N.id. }
    rewrite Hn.
    destruct (Nat.ltb_spec (length B) (length (Buf w) + 1)); [lia|].
    destruct (Nat.ltb_spec (length B) (length (Buf w) + 1 + String.length (TXT.S x)));
      [lia|].
    f_equal. subst B.
    replace (length (Buf w) + 1)
      with (length (Buf w ++ [byte_of_N (N.of_nat (String.length (TXT.S x)))]))
      by len_eq.
    rewrite skipn_app_at0. rewrite <- length_bytes_of_string, firstn_all.
    apply string_of_list_ascii_of_string. }
  assert (Hlt : length (Buf w) < length B) by lia.
  assert (Hge : length B <= length (Buf w) + 1 + String.length (TXT.S x)) by lia.
  assert (Hr : exists rounds, length B = S rounds)
    by (exists (length B - 1); lia).
  destruct Hr as [rounds Hr]. rewrite Hr.
  rewrite (loop_step rounds B "" (length (Buf w)) _ _ Hlt Hc).
  rewrite (loop_end _ _ _ _ Hge).
  cbn [String.append]. destruct x as [s]. cbn [TXT.S] in *. repeat f_equal. lia.
Qed.

Lemma RDATA_roundtrip (x : RDATA.t) w d0 :
  exists w', RDATA.Encode x w = Ok w' /\
    RDATA.Decode (Buf w') d0 (length (Buf w)) = Ok (x, length (Buf w'), None).
Proof.
  unfold RDATA.Encode, RDATA.Decode. start.
  destruct (Nat.ltb_spec (length (Buf w ++ x)) (length (Buf w))) as [H|_].
  - revert H. len_eq.
  - rewrite skipn_app_at0, length_app.
    replace (length (Buf w) + length x - length (Buf w)) with (length x) by lia.
    reflexivity.
Qed.

Ltac lift L :=
  let w' := fresh "w'" in
  let He := fresh "He" in
  let Hd := fresh "Hd" in
  destruct L as (w' & He & Hd);
  exists w'; split; [exact He|]; cbn [RR.RData_Decode zero_like decoded_form];
  rewrite Hd; reflexivity.

(** The variants decode what they encode.  The decode runs on the buffer
    cut at the end of the RDATA, from the cursor the encoding started at,
    into the fresh value of the variant. *)
Lemma RData_decode_encode (v : RData) (w : Wirebuf) :
  legal_rdata legal v -> decodable v ->
  exists w', RR.RData_Encode v w = Ok w' /\
    RR.RData_Decode (Buf w') (zero_like v) (length (Buf w))
    = Ok (decoded_form v, length (Buf w'), None).
Proof.
  intros H Hd. destruct v; cbn [RR.RData_Encode].
  - cbn [legal_rdata] in H. cbn [decoded_form].
    destruct (To4 (A.Address x)) as [p4|] eqn:E; [|contradiction].
    destruct (A_roundtrip x w A.zero p4 E) as (w' & He & Hdec).
    exists w'. split; [exact He|]. cbn [RR.RData_Decode zero_like].
    rewrite Hdec. reflexivity.
  - cbn [legal_rdata] in H. cbn [decoded_form].
    destruct (To16 (AAAA.Address x)) as [p16|] eqn:E; [|contradiction].
    destruct (AAAA_roundtrip x w AAAA.zero p16 E) as (w' & He & Hdec).
    exists w'. split; [exact He|]. cbn [RR.RData_Decode zero_like].
    rewrite Hdec. reflexivity.
  - lift (CNAME_roundtrip x w CNAME.zero H).
  - lift (DNSKEY_roundtrip x w DNSKEY.zero H).
  - lift (DS_roundtrip x w DS.zero H Hd).
  - destruct H as [Hp Hn]. lift (MX_roundtrip x w MX.zero Hp Hn).
  - lift (NODATA_roundtrip x w NODATA.zero H).
  - lift (NXDOMAIN_roundtrip x w NXDOMAIN.zero).
  - lift (NS_roundtrip x w NS.zero H).
  - lift (NSEC3_roundtrip x w NSEC3.zero H).
  - lift (NSEC3PARAM_roundtrip x w NSEC3PARAM.zero H).
  - lift (PTR_roundtrip x w PTR.zero H).
  - lift (RRSIG_roundtrip x w RRSIG.zero H).
  - lift (SOA_roundtrip x w SOA.zero H).
  - lift (TXT_roundtrip x w TXT.zero H).
  - lift (RDATA_roundtrip x w RDATA.zero).
  - destruct H.
Qed.

(** What comes back of an address: the same address in 16 octets. *)
Lemma decoded_address (v : RData) :
  legal_rdata legal v -> came_back v (decoded_form v).
Proof.
  intros H. destruct v; try reflexivity;
    cbn [legal_rdata decoded_form came_back] in *.
  - destruct x as [ip]. cbn [A.Address] in *.
    destruct (To4 ip) as [p4|] eqn:E; [|contradiction]. cbn [A.Address].
    split; [now apply To4_widen, (To4_length ip)|].
    split; [reflexivity|].
    intros Hl. f_equal. now apply widen_To4.
  - destruct x as [ip]. cbn [AAAA.Address] in *.
    destruct (To16 ip) as [p16|] eqn:E; [|contradiction]. cbn [AAAA.Address].
    split; [reflexivity|]. intros Hl. f_equal. revert E. unfold To16.
    rewrite Hl. cbn [Nat.eqb]. now intros [= <-].
Qed.

(** C1, as the code has it.  For every RDATA value within the limits of its
    wire form, [Encode] returns, and the decode of what it wrote, on the
    input cut at the end of the RDATA, succeeds, ends at the end of the
    input and returns the value field for field, with two exceptions.
    An address comes back in its 16-byte form: [ip4.Decode] builds it with
    [net.IPv4], so the four octets of an A address come back as another
    slice, of 16 octets, that is the same address ([To4] narrows both to
    the same octets); an address given in 16 octets comes back as it is.
    And [DS.Decode] knows one digest type: for a DS value of another type
    it returns the error "unsupported digest type", and of a SHA-1 digest
    it reads 20 octets, which is an error on a shorter digest and leaves
    the rest of a longer one unread. *)
Theorem RData_roundtrip (v : RData) (w : Wirebuf) :
  legal_rdata legal v ->
  exists w', RR.RData_Encode v w = Ok w' /\
    let back := RR.RData_Decode (Buf w') (zero_like v) (length (Buf w)) in
    match v with
    | RD_DS x =>
        if N.eqb (DS.DigestType x) HashAlgorithmSHA1 then
          if Nat.ltb (length (DS.Digest x)) 20
          then back = Ok (RD_DS (DS.set_Digest [] x), length (Buf w) + 4,
                          Some "DS.Decode - buffer underflow"%string)
          else back = Ok (RD_DS (DS.set_Digest (firstn 20 (DS.Digest x)) x),
                          length (Buf w) + 24, None) /\
               (length (DS.Digest x) = 20 ->
                back = Ok (v, length (Buf w'), None))
        else back = Ok (RD_DS (DS.set_Digest [] x), length (Buf w) + 4,
                        Some ("unsupported digest type "
                              ++ itoa (Z.of_N (DS.DigestType x)))%string)
    | _ =>
        back = Ok (decoded_form v, length (Buf w'), None) /\
        came_back v (decoded_form v)
    end.
Proof.
  intros H.
  assert (Hrest : decodable v ->
    exists w', RR.RData_Encode v w = Ok w' /\
      RR.RData_Decode (Buf w') (zero_like v) (length (Buf w))
      = Ok (decoded_form v, length (Buf w'), None) /\
      came_back v (decoded_form v)).
  { intros Hd. destruct (RData_decode_encode v w H Hd) as (w' & He & Hdec).
    exists w'. split; [exact He|]. split; [exact Hdec|].
    exact (decoded_address v H). }
  destruct v;
    try (destruct (Hrest I) as (w' & He & Hdec & Hform);
         exists w'; split; [exact He|]; cbv zeta; split; assumption).
  clear Hrest.
  destruct (DS_decode_encode x w DS.zero H) as (w' & He & Hlen & Hdec).
  exists w'. split; [exact He|]. cbv zeta.
  cbn [RR.RData_Decode zero_like]. rewrite Hdec. cbn [DS.Digest DS.zero].
  destruct (N.eqb (DS.DigestType x) HashAlgorithmSHA1); [|reflexivity].
  destruct (Nat.ltb (length (DS.Digest x)) 20); [reflexivity|].
  split; [reflexivity|]. intros Hd. cbn [RR.via]. rewrite Hlen, Hd.
  apply Ok_triple; [|lia]. f_equal.
  replace (firstn 20 (DS.Digest x)) with (DS.Digest x)
    by (rewrite <- Hd; symmetry; apply firstn_all).
  now destruct x.
Qed.

Lemma length_hi_lo (L : nat) :
  byte_of_N (Z.to_N (Z.shiftr (Z.of_nat L) 8 mod 256))
  = byte_of_N (N.shiftr (N.of_nat L) 8) /\
  byte_of_N (Z.to_N (Z.of_nat L mod 256)) = byte_of_N (N.of_nat L).
Proof.
  rewrite <- nat_N_Z. unfold byte_of_N.
  change 8%Z with (Z.of_N 8). change 256%Z with (Z.of_N 256).
  rewrite <- N2Z.inj_shiftr, <- !N2Z.inj_mod, !N2Z.id.
  rewrite !N.Div0.mod_mod. split; reflexivity.
Qed.

(** [RR.Decode] on a record of a type outside the switch: when the header
    is read and the buffer holds the announced RDATA, the record is returned
    with the RDATA bytes in the fallback variant. *)
Lemma Decode_unknown_type b rr0 pos name p1 t p2 c p3 ttl p4 n p5 :
  ~ In t decodeTable ->
  DomainName_Decode b pos = Ret name p1 ->
  Octets2_Decode b p1 = Ret t p2 ->
  Octets2_Decode b p2 = Ret c p3 ->
  Octets4_Decode b p3 = Ret ttl p4 ->
  Octets2_Decode b p4 = Ret n p5 ->
  p5 + N.to_nat n <= length b ->
  RR.Decode b rr0 pos
  = Ok ({| RR.Name := name; RR.Type_ := t; RR.Class := c;
           RR.TTL := int32_of_uint32 ttl;
           RR.RData_ := RD_RDATA (firstn (N.to_nat n) (skipn p5 b)) |},
        p5 + N.to_nat n, None).
Proof.
  intros Ht Hn H1 H2 H3 H4 Hlen.
  unfold RR.Decode, andThen, field, local, embedded.
  rewrite Hn, H1, H2, H3, H4.
  cbv [RR.set_RData RR.set_TTL RR.set_Class RR.set_Type RR.set_Name
       RR.Name RR.Type_ RR.Class RR.TTL RR.RData_].
  destruct (Nat.ltb_spec (length b) (p5 + N.to_nat n)) as [H|_]; [lia|].
  rewrite (newRData_fallback t Ht). cbn [RR.RData_Decode RR.via]. unfold RDATA.Decode.
  rewrite length_firstn, Nat.min_l by lia.
  destruct (Nat.ltb_spec (p5 + N.to_nat n) p5) as [H|_]; [lia|].
  cbn [RR.via]. rewrite skipn_firstn_comm.
  replace (p5 + N.to_nat n - p5) with (N.to_nat n) by lia.
  repeat f_equal; lia.
Qed.

(** What [RR.Encode] writes for a record with opaque RDATA [d]: the name,
    type, class, TTL, the length of [d] and [d]. *)
Lemma Encode_opaque name t c ttl (d : bytes) w :
  exists e,
    Buf (DomainName_Encode name w) = Buf w ++ e /\
    RR.Encode {| RR.Name := name; RR.Type_ := t; RR.Class := c; RR.TTL := ttl;
                 RR.RData_ := RD_RDATA d |} w
    = Ok {| Buf := Buf w ++ e
              ++ [byte_of_N (N.shiftr t 8); byte_of_N t]
              ++ [byte_of_N (N.shiftr c 8); byte_of_N c]
              ++ [byte_of_N (N.shiftr (uint32_of_int32 ttl) 24);
                  byte_of_N (N.shiftr (uint32_of_int32 ttl) 16);
                  byte_of_N (N.shiftr (uint32_of_int32 ttl) 8);
                  byte_of_N (uint32_of_int32 ttl)]
              ++ [byte_of_N (N.shiftr (N.of_nat (length d)) 8);
                  byte_of_N (N.of_nat (length d))]
              ++ d;
            Zip := Zip w |}.
Proof.
  destruct (dn_appends _ _ laws name w) as [e He]. exists e.
  split; [now rewrite He|].
  unfold RR.Encode. cbn [RR.Name RR.Type_ RR.Class RR.TTL RR.RData_].
  rewrite He.
  cbn [Buf Zip wappend Type_Encode Class_Encode Octets2_Encode Octets4_Encode
       RR.RData_Encode RDATA.Encode obind].
  set (H := (((Buf w ++ e) ++ [byte_of_N (N.shiftr t 8); byte_of_N t])
             ++ [byte_of_N (N.shiftr c 8); byte_of_N c])
            ++ [byte_of_N (N.shiftr (uint32_of_int32 ttl) 24);
                byte_of_N (N.shiftr (uint32_of_int32 ttl) 16);
                byte_of_N (N.shiftr (uint32_of_int32 ttl) 8);
                byte_of_N (uint32_of_int32 ttl)]).
  replace (Z.of_nat (length ((H ++ [x00; x00]) ++ d)) - (Z.of_nat (length H) + 2))%Z
    with (Z.of_nat (length d)) by (rewrite !length_app; cbn [length]; lia).
  destruct (length_hi_lo (length d)) as [-> ->].
  replace ((H ++ [x00; x00]) ++ d) with (H ++ x00 :: x00 :: d) by list_eq.
  rewrite store_at. cbn [obind].
  replace (length H + 1) with (length (H ++ [byte_of_N (N.shiftr (N.of_nat (length d)) 8)]))
    by len_eq.
  replace (H ++ byte_of_N (N.shiftr (N.of_nat (length d)) 8) :: x00 :: d)
    with ((H ++ [byte_of_N (N.shiftr (N.of_nat (length d)) 8)]) ++ x00 :: d)
    by list_eq.
  rewrite store_at. cbn [obind]. f_equal. f_equal. subst H. list_eq.
Qed.

(** C2.  A type code outside the switch of [RR.Decode] selects the opaque
    fallback variant; on such a record [RR.Decode] fails only where the
    header or the buffer fails, never on the type; and a record of such a
    type that is encoded and decoded again comes back with the same RDATA
    bytes (and the same header). *)
Theorem unknown_type_passthrough (t : RRType) :
  ~ In t decodeTable ->
  RR.newRData t = RD_RDATA RDATA.zero /\
  (forall b rr0 pos name p1 p2 c p3 ttl p4 n p5,
      DomainName_Decode b pos = Ret name p1 ->
      Octets2_Decode b p1 = Ret t p2 ->
      Octets2_Decode b p2 = Ret c p3 ->
      Octets4_Decode b p3 = Ret ttl p4 ->
      Octets2_Decode b p4 = Ret n p5 ->
      p5 + N.to_nat n <= length b ->
      RR.Decode b rr0 pos
      = Ok ({| RR.Name := name; RR.Type_ := t; RR.Class := c;
               RR.TTL := int32_of_uint32 ttl;
               RR.RData_ := RD_RDATA (firstn (N.to_nat n) (skipn p5 b)) |},
            p5 + N.to_nat n, None)) /\
  (forall name c ttl (d : bytes) w rr0,
      legal name -> (t < 2 ^ 16)%N -> (c < 2 ^ 16)%N ->
      (- 2 ^ 31 <= ttl < 2 ^ 31)%Z -> (N.of_nat (length d) < 2 ^ 16)%N ->
      let rr := {| RR.Name := name; RR.Type_ := t; RR.Class := c; RR.TTL := ttl;
                   RR.RData_ := RD_RDATA d |} in
      exists w', RR.Encode rr w = Ok w' /\
        RR.Decode (Buf w') rr0 (length (Buf w)) = Ok (rr, length (Buf w'), None)).
Proof.
  intros Ht. split; [|split].
  - now apply newRData_fallback.
  - intros. eapply Decode_unknown_type; eassumption.
  - intros name c ttl d w rr0 Hn Htr Hc Httl Hd rr.
    destruct (Encode_opaque name t c ttl d w) as (e & He & Henc).
    eexists. split; [exact Henc|]. cbn [Buf].
    set (T := [byte_of_N (N.shiftr t 8); byte_of_N t]).
    set (C := [byte_of_N (N.shiftr c 8); byte_of_N c]).
    set (U := [byte_of_N (N.shiftr (uint32_of_int32 ttl) 24);
               byte_of_N (N.shiftr (uint32_of_int32 ttl) 16);
               byte_of_N (N.shiftr (uint32_of_int32 ttl) 8);
               byte_of_N (uint32_of_int32 ttl)]).
    set (L := [byte_of_N (N.shiftr (N.of_nat (length d)) 8);
               byte_of_N (N.of_nat (length d))]).
    rewrite (Decode_unknown_type _ rr0 (length (Buf w)) name
               (length (Buf w) + length e) t
               (length (Buf w) + length e + 2) c
               (length (Buf w) + length e + 2 + 2) (uint32_of_int32 ttl)
               (length (Buf w) + length e + 2 + 2 + 4) (N.of_nat (length d))
               (length (Buf w) + length e + 2 + 2 + 4 + 2) Ht).
    + rewrite Nat2N.id, int32_roundtrip by assumption.
      replace (length (Buf w) + length e + 2 + 2 + 4 + 2)
        with (length (Buf w ++ e ++ T ++ C ++ U ++ L)) by (subst T C U L; len_eq).
      replace (Buf w ++ e ++ T ++ C ++ U ++ L ++ d)
        with ((Buf w ++ e ++ T ++ C ++ U ++ L) ++ d) by list_eq.
      rewrite skipn_app_at0, firstn_all. subst rr. repeat f_equal.
      rewrite !length_app. lia.
    + now apply (name_at _ _ w name e (T ++ C ++ U ++ L ++ d)).
    + apply (Octets2_Decode_at _ _ (Buf w ++ e) t (C ++ U ++ L ++ d));
        [assumption | subst T; list_eq | len_eq].
    + apply (Octets2_Decode_at _ _ (Buf w ++ e ++ T) c (U ++ L ++ d));
        [assumption | subst C; list_eq | subst T; len_eq].
    + apply (Octets4_Decode_at _ _ (Buf w ++ e ++ T ++ C) _ (L ++ d));
        [apply uint32_of_int32_lt | subst U; list_eq | subst T C; len_eq].
    + apply (Octets2_Decode_at _ _ (Buf w ++ e ++ T ++ C ++ U) _ d);
        [assumption | subst L; list_eq | subst T C U; len_eq].
    + rewrite Nat2N.id. subst T C U L. rewrite !length_app. cbn [length]. lia.
Qed.
End Roundtrip.
End Roundtrip.

(** ** The plain name codec satisfies the laws of the interface *)

Module PlainNameFacts.
Import PlainName.

Lemma append_nil_r (s : string) : (s ++ "")%string = s.
Proof. induction s; simpl; congruence. Qed.

Lemma append_assoc (a b c : string) : ((a ++ b) ++ c)%string = (a ++ b ++ c)%string.
Proof. induction a; simpl; congruence. Qed.

Lemma emit_nonempty (l : string) :
  l <> ""%string -> emit (bytes_of_string l) = enc_label l.
Proof.
  destruct l; [congruence|]. intros _. unfold emit, enc_label.
  now rewrite length_bytes_of_string.
Qed.

Lemma labels_label l : forall cur r,
  Forall (fun c => c <> dot) (list_ascii_of_string l) ->
  labels cur (l ++ String dot r)%string = emit (cur ++ bytes_of_string l) ++ labels [] r.
Proof.
  induction l as [|c l IH]; intros cur r H; cbn [String.append labels bytes_of_string
    list_ascii_of_string].
  - rewrite Ascii.eqb_refl. now rewrite app_nil_r.
  - inversion H as [|? ? Hc Hl]; subst.
    destruct (Ascii.eqb_spec c dot) as [->|_]; [congruence|].
    rewrite IH by assumption. now rewrite <- app_assoc.
Qed.

Lemma labels_join ls : Forall label_ok ls -> labels [] (join ls) = enc_ls ls.
Proof.
  induction 1 as [|l ls (Hne & _ & Hd) _ IH]; [reflexivity|].
  cbn [join fold_right]. fold (join ls).
  change (l ++ "." ++ join ls)%string with (l ++ String dot (join ls))%string.
  rewrite labels_label by assumption. rewrite IH. cbn [app]. rewrite emit_nonempty by assumption.
  unfold enc_ls. cbn [map concat]. now rewrite <- app_assoc.
Qed.

Lemma labels_legal n ls :
  Forall label_ok ls ->
  n = match ls with [] => "."%string | _ => join ls end ->
  labels [] n = enc_ls ls.
Proof.
  intros H ->. destruct ls; [reflexivity|]. now apply labels_join.
Qed.

Lemma length_enc_ls ls : length ls < length (enc_ls ls).
Proof.
  unfold enc_ls. rewrite length_app. cbn [length].
  induction ls as [|l ls IH]; cbn [map concat length]; [lia|].
  rewrite length_app. unfold enc_label at 1. cbn [length]. lia.
Qed.

Lemma read_enc ls : forall pre rest acc rounds,
  Forall label_ok ls -> length ls < rounds ->
  read rounds (pre ++ enc_ls ls ++ rest) (length pre) acc
  = Ret (final (acc ++ join ls)) (length pre + length (enc_ls ls)).
Proof.
  induction ls as [|l ls IH]; intros pre rest acc rounds Hls Hr;
    (destruct rounds as [|rounds]; [lia|]); cbn [read].
  - destruct (Nat.ltb_spec (length pre) (length (pre ++ enc_ls [] ++ rest))) as [_|H];
      [|rewrite !length_app in H; cbn [enc_ls map concat app length] in H; lia].
    rewrite byte_at_app0. cbn. now rewrite append_nil_r.
  - inversion Hls as [|? ? (Hne & Hlen & Hd) Hls']; subst.
    assert (Henc : pre ++ enc_ls (l :: ls) ++ rest
                   = (pre ++ enc_label l) ++ enc_ls ls ++ rest).
    { unfold enc_ls. cbn [map concat]. now rewrite <- !app_assoc. }
    assert (Hn : N.to_nat (byte_at (pre ++ enc_ls (l :: ls) ++ rest) (length pre))
                 = String.length l).
    { rewrite byte_at_app0. unfold enc_ls, byte_at. cbn [map concat enc_label app nth].
      rewrite N_of_byte_of_N, N.mod_small by lia. apply Nat2N.id. }
    rewrite Hn.
    destruct (Nat.ltb_spec (length pre) (length (pre ++ enc_ls (l :: ls) ++ rest)))
      as [_|H].
    2:{ rewrite Henc, !length_app in H. unfold enc_label in H. cbn [length] in H. lia. }
    destruct (Nat.eqb_spec (String.length l) 0) as [H0|_].
    { destruct l; [congruence | discriminate H0]. }
    destruct (Nat.ltb_spec (length (pre ++ enc_ls (l :: ls) ++ rest))
                (length pre + 1 + String.length l)) as [H|_].
    { rewrite Henc, !length_app in H. unfold enc_label in H. cbn [length] in H.
      rewrite length_bytes_of_string in H. lia. }
    assert (Hlab : firstn (String.length l)
                     (skipn (length pre + 1) (pre ++ enc_ls (l :: ls) ++ rest))
                   = bytes_of_string l).
    { rewrite Henc. unfold enc_label.
      replace ((pre ++ byte_of_N (N.of_nat (String.length l)) :: bytes_of_string l)
               ++ enc_ls ls ++ rest)
        with ((pre ++ [byte_of_N (N.of_nat (String.length l))])
              ++ bytes_of_string l ++ enc_ls ls ++ rest) by list_eq.
      replace (length pre + 1)
        with (length (pre ++ [byte_of_N (N.of_nat (String.length l))])) by len_eq.
      rewrite skipn_app_at0. rewrite <- length_bytes_of_string.
      apply firstn_app_exact. }
    rewrite Hlab. unfold string_of_bytes, bytes_of_string.
    rewrite string_of_list_ascii_of_string.
    rewrite Henc.
    replace (length pre + 1 + String.length l) with (length (pre ++ enc_label l)).
    2:{ rewrite length_app. unfold enc_label. cbn [length].
        rewrite length_bytes_of_string. lia. }
    cbn [length] in Hr. rewrite IH by (assumption || lia).
    f_equal.
    + cbn [join fold_right]. fold (join ls). now rewrite !append_assoc.
    + unfold enc_ls. cbn [map concat]. rewrite !length_app. lia.
Qed.

Lemma final_join ls :
  Forall label_ok ls ->
  final (join ls) = match ls with [] => "."%string | _ => join ls end.
Proof.
  intros H. destruct ls as [|l ls]; [reflexivity|].
  inversion H as [|? ? (Hne & _) _]; subst.
  cbn [join fold_right]. destruct l; [congruence|]. reflexivity.
Qed.

Lemma plain_laws : DomainNameLaws plainName legal.
Proof.
  split.
  - intros n w. exists (labels [] n). reflexivity.
  - intros n w e rest (ls & Hls & Hn) He.
    cbn [DomainName_Encode plainName Encode wappend Buf] in He.
    apply app_inv_head in He. subst e.
    cbn [DomainName_Decode plainName]. unfold Decode.
    rewrite (labels_legal n ls Hls Hn).
    rewrite read_enc.
    + cbn [String.append]. now rewrite final_join, Hn.
    + assumption.
    + pose proof (length_enc_ls ls). rewrite !length_app. lia.
Qed.
End PlainNameFacts.

(** ** Addresses that cannot be narrowed *)

Module AddressFacts.
Section AddressFacts.
Context {NT : NetText}.

(** C5, as the code has it.  For an A value whose address [To4] cannot
    narrow, and an AAAA value whose address [To16] cannot narrow, [Encode]
    panics when the package constant [asserts] is true; with
    [asserts = false], the value the constant has, [Encode] returns and
    leaves the buffer as it was: no address octet is written. *)
Theorem Encode_not_narrowable (a : A.t) (a6 : AAAA.t) (b : Wirebuf) :
  To4 (A.Address a) = None ->
  To16 (AAAA.Address a6) = None ->
  (exists msg, ip4.EncodeWith true (A.Address a) b = Panic msg) /\
  A.Encode a b = Ok b /\
  (exists msg, ip6.EncodeWith true (AAAA.Address a6) b = Panic msg) /\
  AAAA.Encode a6 b = Ok b.
Proof.
  intros H4 H6.
  unfold A.Encode, AAAA.Encode, ip4.Encode, ip6.Encode, ip4.EncodeWith,
    ip6.EncodeWith, asserts.
  rewrite H4, H6. cbn [andb orNil]. destruct b as [buf zip].
  unfold wappend. cbn [Buf Zip]. rewrite app_nil_r. eauto 6.
Qed.
End AddressFacts.
End AddressFacts.

(** ** Text of a record of a type without mnemonic *)

Lemma typeStr_None_not_decodable (t : RRType) :
  lookup t typeStr = None -> ~ In t decodeTable.
Proof.
  intros H Hin. unfold decodeTable in Hin. cbn [In] in Hin.
  repeat (destruct Hin as [<- | Hin]; [discriminate H|]). exact Hin.
Qed.

Module StringFacts.
Section StringFacts.
Context {NT : NetText} {TL : TextLib} {FL : Fmt}.

Lemma fmt_s_Ok (s : string) : exists s', fmt_s (Ok s) = Ok s'.
Proof. eexists. reflexivity. Qed.

Lemma fmt_s_recovers (r : outcome string) :
  recovers -> (forall m, r <> Fatal m) -> exists s, fmt_s r = Ok s.
Proof.
  intros Hr Hf. destruct r as [s|m|m]; cbn [fmt_s].
  - now exists s.
  - apply Hr.
  - now elim (Hf m).
Qed.

Lemma fmt_s_Type t : recovers -> exists s, fmt_s (Type_String t) = Ok s.
Proof.
  intros Hr. apply (fmt_s_recovers _ Hr). unfold Type_String.
  destruct (lookup t typeStr); discriminate.
Qed.

Lemma fmt_s_Class c : recovers -> exists s, fmt_s (Class_String c) = Ok s.
Proof.
  intros Hr. apply (fmt_s_recovers _ Hr). unfold Class_String.
  destruct (lookup c classStr); discriminate.
Qed.

Lemma fmt_s_RData d : recovers -> exists s, fmt_s (RData_String d) = Ok s.
Proof.
  intros Hr. apply (fmt_s_recovers _ Hr). intros m.
  destruct d; cbn [RData_String];
    try (unfold A_String, AAAA_String, CNAME_String, DNSKEY_String, DS_String,
           MX_String, NXDOMAIN_String, NS_String, NSEC3PARAM_String, PTR_String,
           RDATA_String, SOA_String, TXT_String, asserts;
         cbn [andb]; discriminate).
  - unfold NODATA_String. destruct (fmt_s_Type (NODATA.Type_ x) Hr) as [s ->].
    discriminate.
  - unfold NSEC3_String. destruct (TypesText _); discriminate.
  - unfold RRSIG_String. destruct (fmt_s_Type (RRSIG.Type_ x) Hr) as [s ->].
    cbn [obind]. discriminate.
Qed.

(** C10, as the code has it.  For a type code without entry in [typeStr],
    [Type.String] panics, and [RR.Decode] gives such a record the opaque
    fallback variant.  [RR.String] hands the type to [fmt.Sprintf] as an
    operand of the verb [%s], so what it does is what package fmt does
    with the panic of a [String] method.  With a package fmt that lets the
    panic through, [RR.String] panics, with the value of [Type.String]
    when the class has a mnemonic.  With a package fmt that recovers,
    [RR.String] returns, and the text fmt writes for the panic stands in
    the place of the mnemonic. *)
Theorem String_of_unknown_type (rr : RR.t) :
  lookup (RR.Type_ rr) typeStr = None ->
  let msg := ("unexpected Type " ++ utoa (RR.Type_ rr))%string in
  Type_String (RR.Type_ rr) = Panic msg /\
  RR.newRData (RR.Type_ rr) = RD_RDATA RDATA.zero /\
  (propagates ->
   (exists m, RR.String rr = Panic m) /\
   (lookup (RR.Class rr) classStr <> None -> RR.String rr = Panic msg)) /\
  (recovers ->
   exists class text rdata,
     catchPanic msg = Ok text /\
     RR.String rr
     = Ok (RR.Name rr ++ tab ++ class ++ tab ++ itoa (RR.TTL rr) ++ tab ++
           text ++ " " ++ rdata)%string).
Proof.
  intros H msg.
  assert (Ht : Type_String (RR.Type_ rr) = Panic msg)
    by (unfold Type_String; now rewrite H).
  split; [exact Ht|]. split; [|split].
  - apply newRData_fallback. now apply typeStr_None_not_decodable.
  - intros Hp. unfold RR.String. rewrite Ht. cbn [fmt_s].
    unfold Class_String.
    destruct (lookup (RR.Class rr) classStr) as [s|]; cbn [fmt_s obind].
    + rewrite Hp. cbn [obind]. split; [now exists msg | reflexivity].
    + rewrite Hp. cbn [obind]. split; [eauto | now intros []].
  - intros Hr.
    destruct (fmt_s_Class (RR.Class rr) Hr) as [class Hc].
    destruct (fmt_s_RData (RR.RData_ rr) Hr) as [rdata Hd].
    destruct (Hr msg) as [text Hm].
    exists class, text, rdata. split; [exact Hm|].
    unfold RR.String. rewrite Hc, Hd, Ht. cbn [fmt_s obind]. rewrite Hm.
    reflexivity.
Qed.
End StringFacts.
End StringFacts.

(** ** The other methods of the record slices: Filter, SetAdd, Unique *)

Module SliceFacts.
Section SliceFacts.
Context {NT : NetText} {UC : Unicode}.

Lemma Filter_from_spec want r : forall wanted other,
  Filter_from want r wanted other
  = (wanted ++ filter want r, other ++ filter (fun x => negb (want x)) r).
Proof.
  induction r as [|x r IH]; intros wanted other; cbn [Filter_from filter].
  - now rewrite !app_nil_r.
  - destruct (want x); cbn [negb]; rewrite IH, <- app_assoc; reflexivity.
Qed.

Lemma filter_split {A} (p : A -> bool) (l : list A) :
  Permutation (filter p l ++ filter (fun x => negb (p x)) l) l.
Proof.
  induction l as [|x l IH]; cbn [filter]; [constructor|].
  destruct (p x); cbn [negb app].
  - now constructor.
  - symmetry. apply Permutation_cons_app. now symmetry.
Qed.

(** X1.  [Filter] splits the slice in two: [wanted] holds the records
    [want] accepts and [other] the records it refuses, both in the order of
    the slice; no record is lost or repeated. *)
Theorem Filter_partitions (want : RR.t -> bool) (r : RRs.t) :
  let (wanted, other) := RRs_Filter want r in
  wanted = filter want r /\
  other = filter (fun x => negb (want x)) r /\
  length wanted + length other = length r /\
  Permutation (wanted ++ other) r.
Proof.
  unfold RRs_Filter. rewrite Filter_from_spec. cbn [app].
  split; [reflexivity|]. split; [reflexivity|].
  pose proof (filter_split want r) as H. split; [|exact H].
  apply Permutation_length in H. now rewrite length_app in H.
Qed.

Lemma sublist_nil {A} (l : list A) : sublist [] l.
Proof. destruct l; exact I. Qed.

Lemma sublist_skip {A} (x : list A) b l : sublist x l -> sublist x (b :: l).
Proof. destruct x; [intros; exact I | intros H; right; exact H]. Qed.

Lemma sublist_In {A} (x : list A) : forall l a, sublist x l -> In a x -> In a l.
Proof.
  induction x as [|c x IH]; intros l a Hs Ha; [destruct Ha|].
  induction l as [|d l IHl]; [destruct Hs|].
  cbn [sublist] in Hs. destruct Hs as [[-> Hs] | Hs].
  - destruct Ha as [<- | Ha]; [now left | right; eapply IH; eauto].
  - right. apply IHl. exact Hs.
Qed.

Lemma EqualDefined_incl s s' : EqualDefined s -> incl s' s -> EqualDefined s'.
Proof. intros H Hi a b Ha Hb. apply H; apply Hi; assumption. Qed.

Lemma SetAdd_shape rrs : forall r r',
  RRs.SetAdd r rrs = Ok r' -> exists added, r' = r ++ added /\ sublist added rrs.
Proof.
  induction rrs as [|x rrs IH]; cbn [RRs.SetAdd]; intros r r' H.
  - inversion H; subst. exists []. rewrite app_nil_r. split; [reflexivity | exact I].
  - destruct (RRs.isNew x r) as [[]| |]; cbn [obind] in H; try discriminate;
      destruct (IH _ _ H) as (added & -> & Hs).
    + exists (x :: added). rewrite <- app_assoc. split; [reflexivity|].
      left. split; [reflexivity | exact Hs].
    + exists added. split; [reflexivity | now apply sublist_skip].
Qed.

(** X2.  [SetAdd] only appends: on records [Equal] is defined on, it
    returns the receiver followed by some of the records of its argument,
    in their order; nothing of the receiver is dropped or moved. *)
Theorem SetAdd_extends (r rrs : RRs.t) :
  EqualDefined (r ++ rrs) ->
  exists added,
    RRs.SetAdd r rrs = Ok (r ++ added) /\ sublist added rrs /\
    length r <= length (r ++ added) <= length r + length rrs.
Proof.
  intros Hd.
  destruct (SetFacts.SetAdd_defined (r ++ rrs) rrs r Hd) as [r' Hr'].
  { apply incl_appr, incl_refl. }
  { apply incl_appl, incl_refl. }
  destruct (SetAdd_shape _ _ _ Hr') as (added & -> & Hs).
  exists added. split; [exact Hr'|]. split; [exact Hs|].
  pose proof (SetFacts.SetAdd_length _ _ _ Hr') as Hl.
  rewrite length_app in *. lia.
Qed.

Lemma isNew_true x r :
  RRs.isNew x r = Ok true -> forall y, In y r -> RR.Equal x y = Ok false.
Proof.
  induction r as [|z r IH]; cbn [RRs.isNew]; intros H y Hy; [destruct Hy|].
  destruct (RR.Equal x z) as [[]| |] eqn:E; cbn [obind] in H; try discriminate.
  destruct Hy as [<- | Hy]; [exact E | now apply IH].
Qed.

Lemma isNew_false x r :
  RRs.isNew x r = Ok false -> exists y, In y r /\ RR.Equal x y = Ok true.
Proof.
  induction r as [|z r IH]; cbn [RRs.isNew]; intros H; [discriminate|].
  destruct (RR.Equal x z) as [[]| |] eqn:E; cbn [obind] in H; try discriminate.
  - exists z. split; [now left | exact E].
  - destruct (IH H) as (y & Hy & Hxy). exists y. split; [now right | exact Hxy].
Qed.

Lemma Equal_self_defined x b : RR.Equal x x = Ok b -> b = true.
Proof.
  intros H. destruct (RR.RData_ x) eqn:E;
    try (rewrite EqualFacts.Equal_refl in H;
         [now inversion H | unfold known; rewrite E; discriminate]).
  destruct (EqualFacts.Equal_nil x E) as [m Hm]. congruence.
Qed.

Lemma SetAdd_covers rrs : forall r r',
  RRs.SetAdd r rrs = Ok r' ->
  (forall x, In x rrs -> RR.Equal x x = Ok true) ->
  forall x, In x rrs -> exists y, In y r' /\ RR.Equal x y = Ok true.
Proof.
  induction rrs as [|z rrs IH]; cbn [RRs.SetAdd]; intros r r' H Hrefl x Hx;
    [destruct Hx|].
  destruct (RRs.isNew z r) as [[]| |] eqn:E; cbn [obind] in H; try discriminate.
  - destruct Hx as [<- | Hx].
    + destruct (SetAdd_shape _ _ _ H) as (added & -> & _).
      exists z. split; [|apply Hrefl; now left].
      apply in_or_app. left. apply in_or_app. right. now left.
    + eapply IH; eauto. intros y Hy. apply Hrefl. now right.
  - destruct Hx as [<- | Hx].
    + destruct (isNew_false _ _ E) as (y & Hy & Hzy).
      destruct (SetAdd_shape _ _ _ H) as (added & -> & _).
      exists y. split; [apply in_or_app; now left | exact Hzy].
    + eapply IH; eauto. intros y Hy. apply Hrefl. now right.
Qed.

(** X3.  [Unique] keeps one record of each class of [Equal] records, the
    first: the result is the slice with some records left out, no record
    of it is [Equal] to a record before it, and every record of the slice
    is [Equal] to a record of the result. *)
Theorem Unique_representatives (s : RRs.t) :
  EqualDefined s ->
  exists u,
    RRs.Unique s = Ok u /\ sublist u s /\
    (forall p x q y, u = p ++ x :: q -> In y p -> RR.Equal x y = Ok false) /\
    (forall x, In x s -> exists y, In y u /\ RR.Equal x y = Ok true).
Proof.
  intros Hs.
  destruct (SetFacts.SetAdd_defined s s [] Hs (incl_refl s)) as [u Hu].
  { intros x []. }
  exists u. unfold RRs.Unique. split; [exact Hu|].
  destruct (SetAdd_shape _ _ _ Hu) as (added & Heq & Hsub). cbn [app] in Heq.
  subst added. split; [exact Hsub|]. split.
  - intros p x q y Hq Hy.
    assert (Hdist : distinct u).
    { eapply SetFacts.SetAdd_distinct; [apply SetFacts.distinct_nil | exact Hu]. }
    exact (isNew_true x p (Hdist p x q Hq) y Hy).
  - apply (SetAdd_covers _ _ _ Hu). intros x Hx.
    destruct (Hs x x Hx Hx) as [b Hb]. now rewrite (Equal_self_defined _ _ Hb) in Hb.
Qed.
End SliceFacts.
End SliceFacts.

(** ** Partition, Parts.Join and Parts.SetAdd *)

Module PartsFacts.
Section PartsFacts.
Context {NT : NetText} {UC : Unicode}.

Lemma get_set typ k v p :
  Parts.get typ (Parts.set k v p) = if N.eqb typ k then Some v else Parts.get typ p.
Proof.
  induction p as [|[k' w] p IH]; cbn [Parts.set Parts.get]; [reflexivity|].
  destruct (N.eqb_spec k k') as [->|Hk]; cbn [Parts.get].
  - destruct (N.eqb typ k'); reflexivity.
  - destruct (N.eqb_spec typ k') as [->|Ht]; [|exact IH].
    destruct (N.eqb_spec k' k); [congruence | reflexivity].
Qed.

Lemma at_set typ k v p :
  Parts.at_ typ (Parts.set k v p) = if N.eqb typ k then v else Parts.at_ typ p.
Proof. unfold Parts.at_. rewrite get_set. now destruct (N.eqb typ k). Qed.

Lemma get_keys typ p : Parts.get typ p <> None <-> In typ (Parts.keys p).
Proof.
  induction p as [|[k w] p IH]; cbn [Parts.get Parts.keys map fst In].
  - split; [congruence | intros []].
  - destruct (N.eqb_spec typ k) as [->|Ht].
    + split; [now left | discriminate].
    + rewrite IH. unfold Parts.keys. split; [now right | intros [E|H]; congruence].
Qed.

Lemma get_None_keys typ p : Parts.get typ p = None <-> ~ In typ (Parts.keys p).
Proof.
  rewrite <- get_keys. destruct (Parts.get typ p); split; try congruence.
  intros H. exfalso. apply H. discriminate.
Qed.

Lemma NoDup_set k v p : NoDup (Parts.keys p) -> NoDup (Parts.keys (Parts.set k v p)).
Proof.
  induction p as [|[k' w] p IH]; cbn [Parts.set Parts.keys map fst]; intros H.
  - repeat constructor. intros [].
  - inversion H as [|? ? Hn Hp]; subst.
    destruct (N.eqb_spec k k') as [->|Hk]; cbn [map fst]; [exact H|].
    constructor; [|apply IH; exact Hp].
    intros Hin. apply get_keys in Hin. rewrite get_set in Hin.
    destruct (N.eqb_spec k' k); [congruence|].
    apply get_keys in Hin. contradiction.
Qed.

Lemma grouped_fold r : grouped r = fold_left Partition_step r [].
Proof. reflexivity. Qed.

Lemma fold_at r : forall p0 typ,
  Parts.at_ typ (fold_left Partition_step r p0) = Parts.at_ typ p0 ++ of_type typ r.
Proof.
  induction r as [|v r IH]; intros p0 typ; cbn [fold_left of_type filter].
  - now rewrite app_nil_r.
  - fold (of_type typ r). rewrite IH. unfold Partition_step. rewrite at_set.
    rewrite (N.eqb_sym (RR.Type_ v) typ).
    destruct (N.eqb_spec typ (RR.Type_ v)) as [->|Ht].
    + now rewrite <- app_assoc.
    + reflexivity.
Qed.

Lemma fold_get_None r : forall p0 typ,
  Parts.get typ (fold_left Partition_step r p0) = None
  <-> Parts.get typ p0 = None /\ of_type typ r = [].
Proof.
  induction r as [|v r IH]; intros p0 typ; cbn [fold_left of_type filter].
  - tauto.
  - fold (of_type typ r). rewrite IH. unfold Partition_step. rewrite get_set.
    rewrite (N.eqb_sym (RR.Type_ v) typ).
    destruct (N.eqb_spec typ (RR.Type_ v)) as [->|Ht].
    + split; [intros [H _]; discriminate | intros [_ H]; discriminate].
    + tauto.
Qed.

Lemma fold_NoDup r : forall p0,
  NoDup (Parts.keys p0) -> NoDup (Parts.keys (fold_left Partition_step r p0)).
Proof.
  induction r as [|v r IH]; intros p0 H; cbn [fold_left]; [exact H|].
  apply IH. now apply NoDup_set.
Qed.

Lemma grouped_get typ r :
  Parts.get typ (grouped r) = match of_type typ r with [] => None | l => Some l end.
Proof.
  rewrite grouped_fold.
  pose proof (fold_at r [] typ) as Hat. pose proof (fold_get_None r [] typ) as Hn.
  unfold Parts.at_ in Hat. cbn [Parts.get app] in Hat, Hn.
  destruct (Parts.get typ (fold_left Partition_step r [])) as [v|].
  - subst v. destruct (of_type typ r); [|reflexivity].
    destruct Hn as [_ Hn]. now rewrite Hn.
  - destruct Hn as [Hn _]. destruct (Hn eq_refl) as [_ ->]. reflexivity.
Qed.

(** X4.  [Partition(false)] groups the records by type: the part of a type
    holds the records of that type, in the order of the slice, and a type
    without a record has no entry. *)
Theorem Partition_groups (order : list RRType) (r : RRs.t) :
  exists parts,
    RRs_Partition order false r = Ok parts /\
    NoDup (Parts.keys parts) /\
    forall typ,
      Parts.get typ parts = match of_type typ r with [] => None | l => Some l end.
Proof.
  exists (grouped r). split; [reflexivity|]. split.
  - rewrite grouped_fold. apply fold_NoDup. constructor.
  - intros typ. apply grouped_get.
Qed.

Lemma of_type_incl typ r : incl (of_type typ r) r.
Proof. intros x Hx. apply filter_In in Hx. tauto. Qed.

Lemma unique_fold order : forall p,
  NoDup order ->
  (forall typ, In typ order -> exists u, RRs.Unique (Parts.at_ typ p) = Ok u) ->
  exists p',
    fold_left (fun acc typ =>
                 parts <- acc ;;
                 part <- RRs.Unique (Parts.at_ typ parts) ;;
                 Ok (Parts.set typ part parts)) order (Ok p) = Ok p' /\
    forall typ,
      (In typ order ->
       exists u, RRs.Unique (Parts.at_ typ p) = Ok u /\ Parts.get typ p' = Some u) /\
      (~ In typ order -> Parts.get typ p' = Parts.get typ p).
Proof.
  induction order as [|k order IH]; intros p Hnd Hdef; cbn [fold_left].
  - exists p. split; [reflexivity|]. intros typ. split; [intros [] | reflexivity].
  - inversion Hnd as [|? ? Hk Hnd']; subst.
    destruct (Hdef k (or_introl eq_refl)) as [u Hu]. cbn [obind]. rewrite Hu.
    cbn [obind].
    assert (Hother : forall typ, typ <> k ->
              Parts.at_ typ (Parts.set k u p) = Parts.at_ typ p).
    { intros typ Ht. rewrite at_set. now destruct (N.eqb_spec typ k). }
    destruct (IH (Parts.set k u p) Hnd') as (p' & Hp' & Hspec).
    { intros typ Ht. rewrite Hother by (intros ->; contradiction).
      apply Hdef. now right. }
    exists p'. split; [exact Hp'|]. intros typ. split.
    + intros [<- | Hin].
      * exists u. split; [exact Hu|].
        destruct (Hspec k) as [_ Hout]. rewrite (Hout Hk), get_set.
        now rewrite N.eqb_refl.
      * destruct (Hspec typ) as [Hin' _]. destruct (Hin' Hin) as (u' & Hu' & Hg).
        exists u'. rewrite Hother in Hu' by (intros ->; contradiction).
        split; assumption.
    + intros Hout. destruct (Hspec typ) as [_ Hout'].
      rewrite Hout' by (intros H; apply Hout; now right). rewrite get_set.
      destruct (N.eqb_spec typ k) as [->|]; [|reflexivity].
      exfalso. apply Hout. now left.
Qed.

(** X5.  [Partition(true)], over records [Equal] is defined on and
    whatever the order in which the map is ranged over: the part of a type
    is [Unique] of the records of that type, and a type without a record
    has no entry. *)
Theorem Partition_unique (order : list RRType) (r : RRs.t) :
  range_of order r -> EqualDefined r ->
  exists parts,
    RRs_Partition order true r = Ok parts /\
    forall typ,
      match of_type typ r with
      | [] => Parts.get typ parts = None
      | l => exists u, RRs.Unique l = Ok u /\ Parts.get typ parts = Some u
      end.
Proof.
  intros [Hnd Hcov] Hd. unfold RRs_Partition.
  assert (Hat : forall typ, Parts.at_ typ (grouped r) = of_type typ r).
  { intros typ. rewrite grouped_fold, fold_at. reflexivity. }
  destruct (unique_fold order (grouped r) Hnd) as (p' & Hp' & Hspec).
  { intros typ _. rewrite Hat.
    apply (SetFacts.SetAdd_defined (of_type typ r)).
    - eapply SliceFacts.EqualDefined_incl; [exact Hd | apply of_type_incl].
    - apply incl_refl.
    - intros x []. }
  exists p'. split; [exact Hp'|]. intros typ.
  destruct (Hspec typ) as [Hin Hout]. rewrite Hat in Hin.
  destruct (of_type typ r) as [|x l] eqn:E.
  - rewrite Hout, grouped_get, E; [reflexivity|].
    intros H. apply Hcov in H. contradiction.
  - apply Hin. apply Hcov. rewrite E. discriminate.
Qed.

Lemma Join_flat order p :
  Parts.Join order p = flat_map (fun typ => Parts.at_ typ p) order.
Proof.
  unfold Parts.Join.
  enough (H : forall acc,
             fold_left (fun rrs typ => rrs ++ Parts.at_ typ p) order acc
             = acc ++ flat_map (fun typ => Parts.at_ typ p) order) by apply H.
  induction order as [|k order IH]; intros acc; cbn [fold_left flat_map].
  - now rewrite app_nil_r.
  - now rewrite IH, app_assoc.
Qed.

Lemma filter_disjoint {A} (p q : A -> bool) (l : list A) :
  (forall x, p x = true -> q x = false) ->
  Permutation (filter p l ++ filter q l) (filter (fun x => p x || q x)%bool l).
Proof.
  intros H. induction l as [|x l IH]; cbn [filter]; [constructor|].
  destruct (p x) eqn:Ep; cbn [orb].
  - rewrite (H x Ep). cbn [app]. now constructor.
  - destruct (q x); [|exact IH].
    symmetry. apply Permutation_cons_app. now symmetry.
Qed.

Lemma flat_of_type order r :
  NoDup order ->
  Permutation (flat_map (fun typ => of_type typ r) order)
              (filter (fun v => existsb (N.eqb (RR.Type_ v)) order) r).
Proof.
  induction order as [|k order IH]; intros Hnd; cbn [flat_map existsb].
  - induction r; cbn [filter]; [constructor | assumption].
  - inversion Hnd as [|? ? Hk Hnd']; subst.
    eapply Permutation_trans; [apply Permutation_app_head, IH, Hnd'|].
    apply (filter_disjoint (fun v => N.eqb (RR.Type_ v) k)).
    intros x Hx. apply N.eqb_eq in Hx. subst k.
    destruct (existsb (N.eqb (RR.Type_ x)) order) eqn:E; [|reflexivity].
    apply existsb_exists in E. destruct E as (y & Hy & Heq).
    apply N.eqb_eq in Heq. subst y. contradiction.
Qed.

(** X6.  [Join] of the parts of [Partition(false)] returns every record of
    the slice once, whatever the order in which the map is ranged over:
    the result is a permutation of the slice. *)
Theorem Join_Partition (order : list RRType) (r : RRs.t) :
  range_of order r ->
  exists parts,
    RRs_Partition order false r = Ok parts /\
    Permutation (Parts.Join order parts) r /\
    length (Parts.Join order parts) = length r.
Proof.
  intros [Hnd Hcov]. exists (grouped r). split; [reflexivity|].
  assert (H : Permutation (Parts.Join order (grouped r)) r).
  { rewrite Join_flat.
    rewrite (flat_map_ext _ (fun typ => of_type typ r))
      by (intros typ; now rewrite grouped_fold, fold_at).
    eapply Permutation_trans; [apply flat_of_type, Hnd|].
    assert (E : forall l, incl l r ->
                filter (fun v => existsb (N.eqb (RR.Type_ v)) order) l = l).
    { induction l as [|x l IH]; intros Hl; cbn [filter]; [reflexivity|].
      assert (Hx : existsb (N.eqb (RR.Type_ x)) order = true).
      { apply existsb_exists. exists (RR.Type_ x). split; [|apply N.eqb_refl].
        apply Hcov. intros Hn.
        assert (Hin : In x (of_type (RR.Type_ x) r)).
        { apply filter_In. split; [apply Hl; now left | apply N.eqb_refl]. }
        rewrite Hn in Hin. destruct Hin. }
      rewrite Hx, IH; [reflexivity|]. intros y Hy. apply Hl. now right. }
    rewrite (E r (incl_refl r)). apply Permutation_refl. }
  split; [exact H | now apply Permutation_length].
Qed.

Lemma get_records typ p v :
  Parts.get typ p = Some v -> incl v (flat_map snd p).
Proof.
  induction p as [|[k w] p IH]; cbn [Parts.get flat_map snd]; [discriminate|].
  destruct (N.eqb typ k); intros H.
  - inversion H; subst. apply incl_appl, incl_refl.
  - apply incl_appr, IH, H.
Qed.

Lemma at_records typ p : incl (Parts.at_ typ p) (flat_map snd p).
Proof.
  unfold Parts.at_. destruct (Parts.get typ p) eqn:E.
  - eapply get_records; eassumption.
  - intros x [].
Qed.

Lemma SetAdd_fold (b : Parts.t) order : forall a,
  NoDup order ->
  (forall typ old, In typ order -> Parts.get typ a = Some old ->
                   exists u, RRs.SetAdd old (Parts.at_ typ b) = Ok u) ->
  exists a',
    Parts.SetAdd order a b = Ok a' /\
    forall typ,
      (~ In typ order -> Parts.get typ a' = Parts.get typ a) /\
      (In typ order ->
       match Parts.get typ a with
       | None => Parts.get typ a' = Some (Parts.at_ typ b)
       | Some old =>
           exists u, RRs.SetAdd old (Parts.at_ typ b) = Ok u /\
                     Parts.get typ a' = Some u
       end).
Proof.
  unfold Parts.SetAdd.
  induction order as [|k order IH]; intros a Hnd Hdef; cbn [fold_left].
  - exists a. split; [reflexivity|]. intros typ. split; [reflexivity | intros []].
  - inversion Hnd as [|? ? Hk Hnd']; subst. cbn [obind].
    assert (Hstep : exists v,
               match Parts.get k a with
               | None => Ok (Parts.set k (Parts.at_ k b) a)
               | Some oldrecs =>
                   oldrecs <- RRs.SetAdd oldrecs (Parts.at_ k b) ;;
                   Ok (Parts.set k oldrecs a)
               end = Ok (Parts.set k v a) /\
               match Parts.get k a with
               | None => v = Parts.at_ k b
               | Some old => RRs.SetAdd old (Parts.at_ k b) = Ok v
               end).
    { destruct (Parts.get k a) as [old|] eqn:E.
      - destruct (Hdef k old (or_introl eq_refl) E) as [u Hu].
        exists u. rewrite Hu. split; [reflexivity | reflexivity].
      - exists (Parts.at_ k b). split; reflexivity. }
    destruct Hstep as (v & -> & Hv).
    destruct (IH (Parts.set k v a) Hnd') as (a' & Ha' & Hspec).
    { intros typ old Hin Hg. rewrite get_set in Hg.
      destruct (N.eqb_spec typ k) as [->|]; [contradiction|].
      apply (Hdef typ old); [now right | exact Hg]. }
    exists a'. split; [exact Ha'|]. intros typ.
    destruct (Hspec typ) as [Hout Hin]. rewrite get_set in Hout, Hin. split.
    + intros Hn. rewrite Hout by (intros H; apply Hn; now right).
      destruct (N.eqb_spec typ k) as [E|]; [|reflexivity].
      exfalso. apply Hn. left. now symmetry.
    + intros [E | Hi].
      * subst typ. rewrite N.eqb_refl in Hout. rewrite (Hout Hk).
        destruct (Parts.get k a); [exists v; split; [exact Hv | reflexivity]
                                  | now subst v].
      * destruct (N.eqb_spec typ k) as [E|]; [|now apply Hin].
        rewrite E in Hi. contradiction.
Qed.

(** X7.  [Parts.SetAdd], over records [Equal] is defined on and whatever
    the order in which [b] is ranged over: a type [b] has no part of keeps
    its part in [a]; a type only [b] has a part of gets that part as it is;
    a type both have a part of gets [RRs.SetAdd] of the two parts. *)
Theorem Parts_SetAdd_by_type (order : list RRType) (a b : Parts.t) :
  range_over order b ->
  EqualDefined (flat_map snd a ++ flat_map snd b) ->
  exists a',
    Parts.SetAdd order a b = Ok a' /\
    forall typ,
      match Parts.get typ b, Parts.get typ a with
      | None, _ => Parts.get typ a' = Parts.get typ a
      | Some newrecs, None => Parts.get typ a' = Some newrecs
      | Some newrecs, Some oldrecs =>
          exists u, RRs.SetAdd oldrecs newrecs = Ok u /\
                    Parts.get typ a' = Some u
      end.
Proof.
  intros [Hnd Hkeys] Hd.
  destruct (SetAdd_fold b order a Hnd) as (a' & Ha' & Hspec).
  { intros typ old _ Hg.
    apply (SetFacts.SetAdd_defined _ _ _ Hd).
    - apply incl_appr, at_records.
    - apply incl_appl. eapply get_records; eassumption. }
  exists a'. split; [exact Ha'|]. intros typ.
  destruct (Hspec typ) as [Hout Hin].
  destruct (Parts.get typ b) as [newrecs|] eqn:Eb.
  - assert (Hi : In typ order).
    { apply Hkeys. apply get_keys. rewrite Eb. discriminate. }
    specialize (Hin Hi). unfold Parts.at_ in Hin. rewrite Eb in Hin. exact Hin.
  - apply Hout. intros Hi. apply Hkeys in Hi. apply get_keys in Hi. contradiction.
Qed.

(** The types of the records, each once, are an order a range can take. *)
Lemma types_range (r : RRs.t) : range_of (nodup N.eq_dec (map RR.Type_ r)) r.
Proof.
  split; [apply NoDup_nodup|]. intros typ. rewrite nodup_In, in_map_iff. split.
  - intros (v & Hv & Hin) Hn.
    assert (H : In v (of_type typ r)).
    { apply filter_In. split; [exact Hin | now apply N.eqb_eq]. }
    rewrite Hn in H. destruct H.
  - intros Hn. destruct (of_type typ r) as [|v l] eqn:E; [contradiction|].
    assert (H : In v (of_type typ r)) by (rewrite E; now left).
    apply filter_In in H. destruct H as [Hin Ht]. apply N.eqb_eq in Ht.
    exists v. split; assumption.
Qed.
End PartsFacts.
End PartsFacts.

(** ** RR.Equal as a relation *)

Module EquivFacts.
Section EquivFacts.
Context {NT : NetText} {UC : Unicode}.

Lemma header_differs a b :
  (negb (N.eqb (RR.Type_ a) (RR.Type_ b)) || negb (N.eqb (RR.Class a) (RR.Class b))
   || negb (String.eqb (ToLower (RR.Name a)) (ToLower (RR.Name b))))%bool = false
  <-> same_header a b.
Proof.
  unfold same_header.
  rewrite !orb_false_iff, !negb_false_iff, !N.eqb_eq, String.eqb_eq. tauto.
Qed.

Lemma header_same a b :
  same_header a b ->
  (negb (N.eqb (RR.Type_ a) (RR.Type_ b)) || negb (N.eqb (RR.Class a) (RR.Class b))
   || negb (String.eqb (ToLower (RR.Name a)) (ToLower (RR.Name b))))%bool = false.
Proof. apply header_differs. Qed.

Ltac split_hyps :=
  repeat match goal with
  | H : (_ && _)%bool = true |- _ => apply andb_prop in H; destruct H
  | H : N.eqb _ _ = true |- _ => apply N.eqb_eq in H
  | H : Z.eqb _ _ = true |- _ => apply Z.eqb_eq in H
  | H : String.eqb _ _ = true |- _ => apply String.eqb_eq in H
  | H : bytes_Equal _ _ = true |- _ => apply bytes_Equal_eq in H
  end.

Ltac split_goal :=
  repeat (apply andb_true_intro; split);
  first [ apply N.eqb_eq | apply Z.eqb_eq | apply String.eqb_eq
        | apply bytes_Equal_eq ];
  congruence.

Lemma Equal_sym a b :
  same_variant (RR.RData_ a) (RR.RData_ b) = true -> RR.Equal b a = RR.Equal a b.
Proof.
  intros Hv. unfold RR.Equal.
  rewrite (N.eqb_sym (RR.Type_ b)), (N.eqb_sym (RR.Class b)),
    (String.eqb_sym (ToLower (RR.Name b))).
  match goal with |- (if ?h then _ else _) = _ => destruct h end; [reflexivity|].
  destruct (RR.RData_ a), (RR.RData_ b); try discriminate Hv; try reflexivity;
    f_equal; apply eq_iff_eq_true; split; intros H; split_hyps; split_goal.
Qed.

Lemma Equal_true_header a b : RR.Equal a b = Ok true -> same_header a b.
Proof.
  unfold RR.Equal. intros H. apply header_differs.
  match type of H with (if ?h then _ else _) = _ => destruct h end;
    [discriminate H | reflexivity].
Qed.

Lemma Equal_trans a b c :
  RR.Equal a b = Ok true -> RR.Equal b c = Ok true -> RR.Equal a c = Ok true.
Proof.
  intros H1 H2.
  pose proof (Equal_true_header _ _ H1) as (Ht1 & Hc1 & Hn1).
  pose proof (Equal_true_header _ _ H2) as (Ht2 & Hc2 & Hn2).
  assert (H13 : same_header a c) by (repeat split; congruence).
  unfold RR.Equal in *.
  rewrite (header_same a b) in H1 by (repeat split; assumption).
  rewrite (header_same b c) in H2 by (repeat split; assumption).
  rewrite (header_same a c H13).
  destruct (RR.RData_ a), (RR.RData_ b); try discriminate H1;
    destruct (RR.RData_ c); try discriminate H2; try reflexivity;
    injection H1 as H1; injection H2 as H2; f_equal; split_hyps; split_goal.
Qed.

(** X8.  On records of one RDATA variant [Equal] is an equivalence: it is
    reflexive and symmetric, and [Equal] records are [Equal] to the same
    records; the TTL of the records plays no part in it. *)
Theorem Equal_equivalence (a b c : RR.t) :
  known (RR.RData_ a) ->
  same_variant (RR.RData_ a) (RR.RData_ b) = true ->
  RR.Equal a a = Ok true /\
  RR.Equal b a = RR.Equal a b /\
  (RR.Equal a b = Ok true -> RR.Equal b c = Ok true -> RR.Equal a c = Ok true) /\
  (forall ttl ttl', RR.Equal (RR.set_TTL ttl a) (RR.set_TTL ttl' b) = RR.Equal a b).
Proof.
  intros Hk Hv. split; [now apply EqualFacts.Equal_refl|].
  split; [now apply Equal_sym|]. split; [apply Equal_trans|].
  intros ttl ttl'. reflexivity.
Qed.

(** X9.  Once type, class and owner name agree, [Equal] asserts that the
    RDATA of its argument has the variant of the receiver: it panics when
    the variants differ, but for a receiver holding NXDOMAIN, on which it
    returns true whatever the argument holds. *)
Theorem Equal_variant_mismatch (a b : RR.t) :
  same_header a b ->
  match RR.RData_ a with
  | RD_nil => exists m, RR.Equal a b = Fatal m
  | RD_NXDOMAIN _ => RR.Equal a b = Ok true
  | _ => same_variant (RR.RData_ a) (RR.RData_ b) = false ->
         exists m, RR.Equal a b = Panic m
  end.
Proof.
  intros H. unfold RR.Equal. rewrite (header_same a b H).
  destruct (RR.RData_ a), (RR.RData_ b); cbn [same_variant];
    try reflexivity; try (intros; discriminate); eauto.
Qed.

(** X10.  [Equal] compares the addresses of A records by their text: the
    four octets of an address and the 16-byte form [net.IPv4] gives them,
    the form [A.Decode] returns, are [Equal], in both directions. *)
Theorem Equal_A_both_forms (name : string) (class : RRClass) (ttl ttl' : Z)
    (a0 a1 a2 a3 : byte) :
  let short :=
    {| RR.Name := name; RR.Type_ := TYPE_A; RR.Class := class; RR.TTL := ttl;
       RR.RData_ := RD_A {| A.Address := [a0; a1; a2; a3] |} |} in
  let long :=
    {| RR.Name := name; RR.Type_ := TYPE_A; RR.Class := class; RR.TTL := ttl';
       RR.RData_ := RD_A {| A.Address := IPv4 a0 a1 a2 a3 |} |} in
  RR.Equal short long = Ok true /\ RR.Equal long short = Ok true.
Proof.
  cbv zeta. unfold RR.Equal. cbn [RR.Type_ RR.Class RR.Name RR.RData_ A.Address].
  rewrite !N.eqb_refl, String.eqb_refl. cbn [negb orb].
  assert (E : IP_String (IPv4 a0 a1 a2 a3) = IP_String [a0; a1; a2; a3]).
  { unfold IP_String, To4, IPv4.
    cbn [length Nat.eqb firstn skipn isZeros forallb nth andb].
    rewrite !byte_eqb_refl. reflexivity. }
  rewrite E, String.eqb_refl. split; reflexivity.
Qed.
End EquivFacts.
End EquivFacts.

(** ** What the RDATA decoders accept *)

Module DecodeFacts.

Lemma Octet_Decode_ok b pos :
  pos + 1 <= length b -> Octet_Decode b pos = Ret (byte_at b pos) (pos + 1).
Proof.
  intros H. unfold Octet_Decode.
  destruct (Nat.ltb_spec (length b) (pos + 1)); [lia | reflexivity].
Qed.

Lemma Octet_Decode_short b pos :
  length b < pos + 1 -> exists e, Octet_Decode b pos = Fail e.
Proof.
  intros H. unfold Octet_Decode.
  destruct (Nat.ltb_spec (length b) (pos + 1)); [eauto | lia].
Qed.

Lemma Octets2_Decode_ok b pos :
  pos + 2 <= length b -> Octets2_Decode b pos = Ret (uint16_at b pos) (pos + 2).
Proof.
  intros H. unfold Octets2_Decode.
  destruct (Nat.ltb_spec (length b) (pos + 2)); [lia | reflexivity].
Qed.

Lemma Octets2_Decode_short b pos :
  length b < pos + 2 -> exists e, Octets2_Decode b pos = Fail e.
Proof.
  intros H. unfold Octets2_Decode.
  destruct (Nat.ltb_spec (length b) (pos + 2)); [eauto | lia].
Qed.

(** The fixed head of DNSKEY and DS: two octets and two single octets. *)
Ltac head4 b pos :=
  let H := fresh "H" in
  let e := fresh "e" in
  destruct (Nat.le_gt_cases (pos + 2) (length b)) as [H|H];
    [ rewrite (Octets2_Decode_ok b pos H)
    | destruct (Octets2_Decode_short b pos H) as [e ->];
      solve [do 3 eexists; reflexivity] ];
  clear H;
  destruct (Nat.le_gt_cases (pos + 2 + 1) (length b)) as [H|H];
    [ rewrite (Octet_Decode_ok b (pos + 2) H)
    | destruct (Octet_Decode_short b (pos + 2) H) as [e ->];
      solve [do 3 eexists; reflexivity] ];
  clear H;
  destruct (Nat.le_gt_cases (pos + 2 + 1 + 1) (length b)) as [H|H];
    [ rewrite (Octet_Decode_ok b (pos + 2 + 1) H)
    | destruct (Octet_Decode_short b (pos + 2 + 1) H) as [e ->];
      solve [do 3 eexists; reflexivity] ].

(** X11.  [DNSKEY.Decode] needs the four octets of flags, protocol and
    algorithm and at least one octet of key: with more than four octets
    left it returns them and takes all the rest of the buffer as the key;
    with four or less it returns an error. *)
Theorem DNSKEY_Decode_accepts (b : bytes) (d : DNSKEY.t) (pos : nat) :
  (pos + 4 < length b ->
   DNSKEY.Decode b d pos
   = Ok ({| DNSKEY.Flags := uint16_at b pos;
            DNSKEY.Protocol := byte_at b (pos + 2);
            DNSKEY.Algorithm := byte_at b (pos + 3);
            DNSKEY.Key := skipn (pos + 4) b |}, length b, None)) /\
  (length b <= pos + 4 ->
   exists d' pos' e, DNSKEY.Decode b d pos = Ok (d', pos', Some e)).
Proof.
  unfold DNSKEY.Decode, andThen, field. split; intros H.
  - rewrite (Octets2_Decode_ok b pos) by lia.
    rewrite (Octet_Decode_ok b (pos + 2)) by lia.
    rewrite (Octet_Decode_ok b (pos + 2 + 1)) by lia.
    destruct (Z.leb_spec (Z.of_nat (length b) - Z.of_nat (pos + 2 + 1 + 1)) 0);
      [lia|].
    cbv [DNSKEY.set_Flags DNSKEY.set_Protocol DNSKEY.set_Algorithm DNSKEY.set_Key
         DNSKEY.Flags DNSKEY.Protocol DNSKEY.Algorithm DNSKEY.Key].
    replace (pos + 2 + 1 + 1) with (pos + 4) by lia.
    replace (pos + 2 + 1) with (pos + 3) by lia.
    repeat f_equal. lia.
  - head4 b pos.
    destruct (Z.leb_spec (Z.of_nat (length b) - Z.of_nat (pos + 2 + 1 + 1)) 0);
      [do 3 eexists; reflexivity | lia].
Qed.

(** X12.  [DS.Decode] accepts one digest type, SHA-1, and reads a digest of
    20 octets: with 24 octets left and the digest type 1 it returns key
    tag, algorithm, digest type and the 20 octets that follow, leaving the
    cursor after them; in every other case, any other digest type among
    them, it returns an error. *)
Theorem DS_Decode_accepts (b : bytes) (d : DS.t) (pos : nat) :
  (pos + 24 <= length b -> byte_at b (pos + 3) = HashAlgorithmSHA1 ->
   DS.Decode b d pos
   = Ok ({| DS.KeyTag := uint16_at b pos;
            DS.AlgorithmType := byte_at b (pos + 2);
            DS.DigestType := HashAlgorithmSHA1;
            DS.Digest := firstn 20 (skipn (pos + 4) b) |}, pos + 24, None)) /\
  (pos + 4 <= length b -> byte_at b (pos + 3) <> HashAlgorithmSHA1 ->
   exists d',
     DS.Decode b d pos
     = Ok (d', pos + 4,
           Some ("unsupported digest type "
                 ++ itoa (Z.of_N (byte_at b (pos + 3))))%string)) /\
  (length b < pos + 24 ->
   exists d' pos' e, DS.Decode b d pos = Ok (d', pos', Some e)).
Proof.
  unfold DS.Decode, andThen, field. split; [|split].
  - intros H H1.
    rewrite (Octets2_Decode_ok b pos) by lia.
    rewrite (Octet_Decode_ok b (pos + 2)) by lia.
    rewrite (Octet_Decode_ok b (pos + 2 + 1)) by lia.
    cbv [DS.set_KeyTag DS.set_AlgorithmType DS.set_DigestType DS.set_Digest
         DS.KeyTag DS.AlgorithmType DS.DigestType DS.Digest].
    replace (pos + 2 + 1 + 1) with (pos + 4) by lia.
    replace (pos + 2 + 1) with (pos + 3) by lia.
    rewrite H1, N.eqb_refl.
    destruct (Nat.ltb_spec (length b) (pos + 4 + 20)); [lia|].
    replace (pos + 4 + 20) with (pos + 24) by lia. reflexivity.
  - intros H H1.
    rewrite (Octets2_Decode_ok b pos) by lia.
    rewrite (Octet_Decode_ok b (pos + 2)) by lia.
    rewrite (Octet_Decode_ok b (pos + 2 + 1)) by lia.
    cbv [DS.set_KeyTag DS.set_AlgorithmType DS.set_DigestType DS.set_Digest
         DS.KeyTag DS.AlgorithmType DS.DigestType DS.Digest].
    replace (pos + 2 + 1 + 1) with (pos + 4) by lia.
    replace (pos + 2 + 1) with (pos + 3) by lia.
    destruct (N.eqb_spec (byte_at b (pos + 3)) HashAlgorithmSHA1);
      [contradiction | eexists; reflexivity].
  - intros H. head4 b pos.
    match goal with
    | |- context [if N.eqb ?x ?y then _ else _] => destruct (N.eqb x y)
    end; [|do 3 eexists; reflexivity].
    destruct (Nat.ltb_spec (length b) (pos + 2 + 1 + 1 + 20));
      [do 3 eexists; reflexivity | lia].
Qed.

Lemma byte_of_N_mod n : byte_of_N (n mod 256) = byte_of_N n.
Proof. unfold byte_of_N. now rewrite N.Div0.mod_mod. Qed.

(** X13.  [NSEC3PARAM.Encode] writes the length of the salt in one octet
    without a check: the salt comes back from [Decode] cut to its length
    modulo 256, whole when it has at most 255 octets, and the cursor stops
    after the octets read. *)
Theorem NSEC3PARAM_salt_length (x : NSEC3PARAM.t) (w : Wirebuf)
    (d0 : NSEC3PARAM.t) :
  (NSEC3PARAM.HashAlgorithm x < 256)%N -> (NSEC3PARAM.Flags x < 256)%N ->
  (NSEC3PARAM.Iterations x < 2 ^ 16)%N ->
  let kept := length (NSEC3PARAM.Salt x) mod 256 in
  exists w',
    NSEC3PARAM.Encode x w = Ok w' /\
    length (Buf w') = length (Buf w) + 5 + length (NSEC3PARAM.Salt x) /\
    NSEC3PARAM.Decode (Buf w') d0 (length (Buf w))
    = Ok (NSEC3PARAM.set_Salt (firstn kept (NSEC3PARAM.Salt x)) x,
          length (Buf w) + 5 + kept, None).
Proof.
  intros Hh Hf Hi kept.
  unfold NSEC3PARAM.Encode, NSEC3PARAM.Decode, andThen, field, local.
  cbv [asserts andb].
  eexists. split; [reflexivity|].
  cbn [Buf Zip wappend Octets2_Encode Octet_Encode].
  split; [len_eq|].
  assert (Hk : kept <= length (NSEC3PARAM.Salt x)).
  { subst kept. apply Nat.Div0.mod_le. }
  assert (Hm : (N.of_nat (length (NSEC3PARAM.Salt x)) mod 256 < 256)%N)
    by (apply N.mod_lt; discriminate).
  assert (Hkm : N.to_nat (N.of_nat (length (NSEC3PARAM.Salt x)) mod 256) = kept).
  { subst kept. change 256%N with (N.of_nat 256).
    rewrite <- Nat2N.inj_mod. apply Nat2N.id. }
  rewrite <- (byte_of_N_mod (N.of_nat (length (NSEC3PARAM.Salt x)))).
  match goal with
  | |- context [Octet_Decode ?B _] => with_prefix rd1 B
  end.
  match goal with
  | |- context [Octet_Decode ?B _] => with_prefix rd1 B
  end.
  match goal with
  | |- context [Octets2_Decode ?B _] => with_prefix rd2 B
  end.
  match goal with
  | |- context [Octet_Decode ?B _] => with_prefix rd1 B
  end.
  rewrite Hkm.
  match goal with |- context [skipn ?p (?pre ++ NSEC3PARAM.Salt x)] =>
    replace p with (length pre) by len_eq; rewrite (skipn_app_at0 pre)
  end.
  match goal with |- context [Nat.ltb ?a ?b] => destruct (Nat.ltb_spec a b) as [H|_] end.
  - revert H. len_eq.
  - destruct x. cbn [NSEC3PARAM.Salt NSEC3PARAM.set_Salt NSEC3PARAM.HashAlgorithm
                     NSEC3PARAM.Flags NSEC3PARAM.Iterations
                     NSEC3PARAM.set_HashAlgorithm NSEC3PARAM.set_Flags
                     NSEC3PARAM.set_Iterations] in *.
    cbv [NSEC3PARAM.set_Salt NSEC3PARAM.set_HashAlgorithm NSEC3PARAM.set_Flags
         NSEC3PARAM.set_Iterations NSEC3PARAM.HashAlgorithm NSEC3PARAM.Flags
         NSEC3PARAM.Iterations NSEC3PARAM.Salt].
    repeat f_equal. len_eq.
Qed.

Lemma CharString_Decode_at pre s rest :
  String.length s <= 255 ->
  CharString_Decode (pre ++ CharString_wire s ++ rest) (length pre)
  = Ret s (length (pre ++ CharString_wire s)).
Proof.
  intros Hs. unfold CharString_Decode, CharString_wire.
  assert (Hl : length (bytes_of_string s) = String.length s)
    by apply length_bytes_of_string.
  assert (Hn : N.to_nat (byte_at (pre ++ (byte_of_N (N.of_nat (String.length s))
                                          :: bytes_of_string s) ++ rest)
                                 (length pre)) = String.length s).
  { rewrite byte_at_app0. unfold byte_at. cbn [nth app].
    rewrite N_of_byte_of_N, N.mod_small by lia. apply Nat2N.id. }
  rewrite Hn.
  match goal with |- context [Nat.ltb ?a ?b] => destruct (Nat.ltb_spec a b) as [H|_] end.
  { revert H. rewrite !length_app. cbn [length]. lia. }
  match goal with |- context [Nat.ltb ?a ?b] => destruct (Nat.ltb_spec a b) as [H|_] end.
  { revert H. rewrite !length_app. cbn [length]. lia. }
  f_equal.
  - replace (pre ++ (byte_of_N (N.of_nat (String.length s)) :: bytes_of_string s)
                 ++ rest)
      with ((pre ++ [byte_of_N (N.of_nat (String.length s))])
            ++ bytes_of_string s ++ rest) by list_eq.
    replace (length pre + 1)
      with (length (pre ++ [byte_of_N (N.of_nat (String.length s))])) by len_eq.
    rewrite skipn_app_at0, <- Hl, firstn_app_exact.
    apply string_of_list_ascii_of_string.
  - rewrite length_app. cbn [length]. lia.
Qed.

Lemma loop_parts parts : forall pre s rounds,
  Forall (fun p => String.length p <= 255) parts ->
  length parts <= rounds ->
  TXT.loop rounds (pre ++ flat_map CharString_wire parts) s (length pre)
  = ((s ++ String.concat "" parts)%string,
     length (pre ++ flat_map CharString_wire parts), None).
Proof.
  induction parts as [|p parts IH]; intros pre s rounds Hp Hr;
    cbn [flat_map String.concat].
  - rewrite app_nil_r.
    replace (s ++ "")%string with s by (induction s; cbn; congruence).
    destruct rounds; cbn [TXT.loop];
      destruct (Nat.ltb_spec (length pre) (length pre)); try lia; reflexivity.
  - inversion Hp as [|? ? Hp1 Hp2]; subst.
    destruct rounds as [|rounds]; [cbn [length] in Hr; lia|].
    cbn [TXT.loop].
    match goal with |- context [Nat.ltb ?a ?b] => destruct (Nat.ltb_spec a b) as [_|H] end.
    2:{ revert H. rewrite !length_app. unfold CharString_wire. cbn [length]. lia. }
    rewrite (CharString_Decode_at pre p _ Hp1).
    rewrite app_assoc.
    rewrite (IH (pre ++ CharString_wire p) (s ++ p)%string rounds Hp2)
      by (cbn [length] in Hr; lia).
    f_equal. f_equal.
    destruct parts.
    + cbn [String.concat]. now rewrite PlainNameFacts.append_nil_r.
    + rewrite PlainNameFacts.append_assoc. reflexivity.
Qed.

(** X14.  [TXT.Decode] reads character strings up to the end of the buffer
    and returns their concatenation: of RDATA made of several character
    strings the text comes back, in one piece, and the boundaries between
    the strings are gone; [TXT.Encode] writes one character string. *)
Theorem TXT_Decode_concatenates (parts : list string) (pre : bytes) (d : TXT.t) :
  Forall (fun p => String.length p <= 255) parts ->
  TXT.Decode (pre ++ flat_map CharString_wire parts) d (length pre)
  = Ok ({| TXT.S := String.concat "" parts |},
        length (pre ++ flat_map CharString_wire parts), None) /\
  forall w, TXT.Encode {| TXT.S := String.concat "" parts |} w
            = Ok (wappend w (CharString_wire (String.concat "" parts))).
Proof.
  intros Hp. split.
  - unfold TXT.Decode. rewrite (loop_parts parts pre "" _ Hp).
    + reflexivity.
    + rewrite length_app. clear Hp.
      induction parts as [|p parts IH]; cbn [flat_map length]; [lia|].
      rewrite length_app. unfold CharString_wire at 1. cbn [length]. lia.
  - intros w. unfold TXT.Encode, CharString_Encode, wappend, CharString_wire.
    cbn [TXT.S Buf Zip]. now rewrite <- app_assoc.
Qed.
End DecodeFacts.

(** ** The record envelope: RR.Encode and RR.Decode *)

Module EnvelopeFacts.
Section EnvelopeFacts.
Context {DN : DomainName} {NT : NetText}.

(** After the head, [RR.Decode] hands the buffer cut at the end of the
    RDATA to the decoder of the variant of the type. *)
Lemma Decode_header b rr0 pos name t c ttl n p5 :
  header_at b pos name t c ttl n p5 ->
  p5 + N.to_nat n <= length b ->
  RR.Decode b rr0 pos
  = embedded RR.RData_ RR.set_RData
      (RR.RData_Decode (firstn (p5 + N.to_nat n) b))
      {| RR.Name := name; RR.Type_ := t; RR.Class := c;
         RR.TTL := int32_of_uint32 ttl; RR.RData_ := RR.newRData t |} p5.
Proof.
  intros (p1 & Hn & H1 & H2 & H3 & H4 & ->) Hlen.
  unfold RR.Decode, andThen, field, local.
  rewrite Hn, H1, H2, H3, H4.
  cbv [RR.set_RData RR.set_TTL RR.set_Class RR.set_Type RR.set_Name
       RR.Name RR.Type_ RR.Class RR.TTL RR.RData_].
  destruct (Nat.ltb_spec (length b) (p1 + 2 + 2 + 4 + 2 + N.to_nat n)) as [H|_];
    [lia | reflexivity].
Qed.

Lemma nth_firstn_lt (l : bytes) i k : i < k -> nth i (firstn k l) x00 = nth i l x00.
Proof.
  revert i k. induction l as [|c l IH]; intros i k H.
  - now rewrite firstn_nil.
  - destruct k; [lia|]. destruct i; cbn [firstn nth]; [reflexivity|].
    apply IH. lia.
Qed.

(** X15.  [RR.Decode] does not check that the decoder of the variant takes
    the RDLENGTH octets of the RDATA.  On a record of type A whose
    RDLENGTH is 4 or more it returns the address made of the first four
    octets and leaves the cursor after them, inside the record when
    RDLENGTH is more than 4; with an RDLENGTH of less than 4 it returns
    the error of [ip4.Decode], whatever the buffer holds after. *)
Theorem Decode_A_ignores_RDLENGTH (b : bytes) (rr0 : RR.t) (pos : nat)
    (name : string) (c : RRClass) (ttl n : N) (p5 : nat) :
  header_at b pos name TYPE_A c ttl n p5 ->
  p5 + N.to_nat n <= length b ->
  (4 <= N.to_nat n ->
   RR.Decode b rr0 pos
   = Ok ({| RR.Name := name; RR.Type_ := TYPE_A; RR.Class := c;
            RR.TTL := int32_of_uint32 ttl;
            RR.RData_ :=
              RD_A {| A.Address := IPv4 (nth p5 b x00) (nth (p5 + 1) b x00)
                                        (nth (p5 + 2) b x00) (nth (p5 + 3) b x00) |} |},
         p5 + 4, None)) /\
  (N.to_nat n < 4 ->
   RR.Decode b rr0 pos
   = Ok ({| RR.Name := name; RR.Type_ := TYPE_A; RR.Class := c;
            RR.TTL := int32_of_uint32 ttl; RR.RData_ := RD_A A.zero |},
         p5, Some "ip4.Decode() - buffer underflow"%string)).
Proof.
  intros Hh Hlen. rewrite (Decode_header _ _ _ _ _ _ _ _ _ Hh Hlen).
  unfold embedded. cbn [RR.RData_ RR.newRData N.eqb TYPE_A Pos.eqb RR.RData_Decode].
  unfold A.Decode, field, ip4.Decode.
  rewrite length_firstn, Nat.min_l by exact Hlen.
  split; intros H.
  - destruct (Nat.ltb_spec (p5 + N.to_nat n) (p5 + 4)) as [H'|_]; [lia|].
    cbn [RR.via]. rewrite !nth_firstn_lt by lia. reflexivity.
  - destruct (Nat.ltb_spec (p5 + N.to_nat n) (p5 + 4)) as [_|H']; [|lia].
    reflexivity.
Qed.

Lemma name_free_appends (v : RData) (w : Wirebuf) :
  name_free v = true -> RR.RData_Encode v w = Ok (wappend w (RData_wire v)).
Proof.
  destruct v; try discriminate; intros _; unfold RData_wire;
    cbn [RR.RData_Encode];
    unfold A.Encode, AAAA.Encode, ip4.Encode, ip6.Encode, ip4.EncodeWith,
      ip6.EncodeWith, DNSKEY.Encode, DS.Encode, NODATA.Encode, NXDOMAIN.Encode,
      NSEC3.Encode, NSEC3PARAM.Encode, TXT.Encode, RDATA.Encode, Type_Encode,
      CharString_Encode;
    cbv [asserts andb obind wappend Octet_Encode Octets2_Encode Octets4_Encode
         newWirebuf];
    cbn [Buf Zip app]; rewrite ?app_nil_r;
    try (destruct w; reflexivity); f_equal; f_equal; list_eq.
Qed.

Variable legal : string -> Prop.
Hypothesis laws : DomainNameLaws DN legal.

(** X16.  A whole record comes back from its wire form: for a record
    whose RDATA holds no domain name, is within the limits of its wire
    form and shorter than 65536 octets, is a value its decoder takes
    back (a DS holds a SHA-1 digest of 20 octets, the one kind
    [DS.Decode] knows), and is of the variant of the type of the record,
    [RR.Decode] of what [RR.Encode] wrote returns the record (an address
    in its 16-byte form) and ends at the end of the buffer. *)
Theorem RR_roundtrip (rr rr0 : RR.t) (w : Wirebuf) :
  legal (RR.Name rr) ->
  (RR.Type_ rr < 2 ^ 16)%N -> (RR.Class rr < 2 ^ 16)%N ->
  (- 2 ^ 31 <= RR.TTL rr < 2 ^ 31)%Z ->
  name_free (RR.RData_ rr) = true ->
  legal_rdata legal (RR.RData_ rr) ->
  decodable (RR.RData_ rr) ->
  RR.newRData (RR.Type_ rr) = zero_like (RR.RData_ rr) ->
  (N.of_nat (length (RData_wire (RR.RData_ rr))) < 2 ^ 16)%N ->
  exists w',
    RR.Encode rr w = Ok w' /\
    RR.Decode (Buf w') rr0 (length (Buf w))
    = Ok (RR.set_RData (decoded_form (RR.RData_ rr)) rr, length (Buf w'), None).
Proof.
  destruct rr as [name t c ttl v].
  cbn [RR.Name RR.Type_ RR.Class RR.TTL RR.RData_].
  intros Hn Ht Hc Httl Hfree Hlegal Hback Hnew Hlen.
  remember (RData_wire v) as d eqn:Ed.
  destruct (Roundtrip.Encode_opaque legal laws name t c ttl d w)
    as (e & He & Henc).
  assert (Hsame :
    RR.Encode {| RR.Name := name; RR.Type_ := t; RR.Class := c; RR.TTL := ttl;
                 RR.RData_ := v |} w
    = RR.Encode {| RR.Name := name; RR.Type_ := t; RR.Class := c; RR.TTL := ttl;
                   RR.RData_ := RD_RDATA d |} w).
  { unfold RR.Encode. cbn [RR.Name RR.Type_ RR.Class RR.TTL RR.RData_].
    rewrite (name_free_appends v _ Hfree), <- Ed. reflexivity. }
  rewrite Hsame, Henc. eexists. split; [reflexivity|]. cbn [Buf].
  remember [byte_of_N (N.shiftr t 8); byte_of_N t] as T eqn:ET.
  remember [byte_of_N (N.shiftr c 8); byte_of_N c] as C eqn:EC.
  remember [byte_of_N (N.shiftr (uint32_of_int32 ttl) 24);
            byte_of_N (N.shiftr (uint32_of_int32 ttl) 16);
            byte_of_N (N.shiftr (uint32_of_int32 ttl) 8);
            byte_of_N (uint32_of_int32 ttl)] as U eqn:EU.
  remember [byte_of_N (N.shiftr (N.of_nat (length d)) 8);
            byte_of_N (N.of_nat (length d))] as L eqn:EL.
  assert (HT : length T = 2) by (subst T; reflexivity).
  assert (HC : length C = 2) by (subst C; reflexivity).
  assert (HU : length U = 4) by (subst U; reflexivity).
  assert (HL : length L = 2) by (subst L; reflexivity).
  remember (length (Buf w) + length e) as p1 eqn:Ep1.
  assert (Hh : header_at (Buf w ++ e ++ T ++ C ++ U ++ L ++ d) (length (Buf w))
                 name t c (uint32_of_int32 ttl) (N.of_nat (length d))
                 (p1 + 2 + 2 + 4 + 2)).
  { exists p1. repeat split.
    - rewrite Ep1.
      now apply (Roundtrip.name_at legal laws _ _ w name e
                   (T ++ C ++ U ++ L ++ d)).
    - apply (Octets2_Decode_at _ _ (Buf w ++ e) t (C ++ U ++ L ++ d));
        [assumption | subst T; list_eq | rewrite length_app; lia].
    - apply (Octets2_Decode_at _ _ (Buf w ++ e ++ T) c (U ++ L ++ d));
        [assumption | subst C; list_eq | rewrite !length_app; lia].
    - apply (Octets4_Decode_at _ _ (Buf w ++ e ++ T ++ C) _ (L ++ d));
        [apply uint32_of_int32_lt | subst U; list_eq | rewrite !length_app; lia].
    - apply (Octets2_Decode_at _ _ (Buf w ++ e ++ T ++ C ++ U) _ d);
        [assumption | subst L; list_eq | rewrite !length_app; lia]. }
  remember (Buf w ++ e ++ T ++ C ++ U ++ L) as H eqn:EH.
  assert (Hp5 : p1 + 2 + 2 + 4 + 2 = length H)
    by (subst H; rewrite !length_app; lia).
  assert (EB : Buf w ++ e ++ T ++ C ++ U ++ L ++ d = H ++ d)
    by (subst H; rewrite <- !app_assoc; reflexivity).
  rewrite EB in *.
  rewrite (Decode_header _ rr0 _ _ _ _ _ _ _ Hh)
    by (rewrite Nat2N.id, Hp5, length_app; lia).
  rewrite Nat2N.id, Hp5, <- length_app, firstn_all, Hnew.
  rewrite int32_roundtrip by assumption.
  destruct (Roundtrip.RData_decode_encode legal laws v
              {| Buf := H; Zip := Zip w |} Hlegal Hback)
    as (w'' & Hw'' & Hdec).
  rewrite (name_free_appends v _ Hfree), <- Ed in Hw''. injection Hw'' as <-.
  unfold wappend in Hdec. cbn [Buf] in Hdec.
  unfold embedded. cbn [RR.RData_]. rewrite Hdec. reflexivity.
Qed.
End EnvelopeFacts.
End EnvelopeFacts.

(** ** The scanner: line ends, parentheses and the end of the input *)

Module LexFacts.
Section LexFacts.
Context {NP : NetParse}.

Ltac each_state H :=
  unfold declared in H; cbn [In] in H;
  destruct H as [<-|[<-|[<-|[<-|[<-|[<-|[<-|[<-|[<-|[<-|[]]]]]]]]]]].

(** Evaluate a round on a state whose fields are variables: the source is
    empty or not, the scan starts a line or not. *)
Ltac by_scan sr :=
  destruct sr as [|? ?];
  unfold yyround, yystart;
  match goal with
  | |- context [yyb ?x] => generalize (yyb x); intros [|]
  end;
  vm_compute;
  repeat match goal with
  | |- context [if ?h ?m then _ else _] => destruct (h m)
  end;
  reflexivity.

Lemma round_newline l lval :
  In (startCond_ l) declared -> peek l = nl \/ peek l = cr ->
  yyround l (peek l) None lval
  = Ok (took l, peek (took l), lval,
        Continue (if inParen l then None else Some (T_char nl))).
Proof.
  destruct l as [rh eh sc bf la pk ln col nm sr pv ip]. cbn [startCond_ peek].
  intros Hsc [-> | ->]; unfold took; destruct ip; each_state Hsc; by_scan sr.
Qed.

Lemma round_lparen l lval :
  In (startCond_ l) declared -> peek l = "("%char ->
  yyround l (peek l) None lval
  = (l' <- (if inParen l then Error (took l) "nested parenthesis"
            else Ok (took l)) ;;
     Ok (set_inParen true l', peek (took l), lval, Continue None)).
Proof.
  destruct l as [rh eh sc bf la pk ln col nm sr pv ip]. cbn [startCond_ peek].
  intros Hsc ->. unfold took. destruct ip; destruct eh as [h|];
    each_state Hsc; by_scan sr.
Qed.

Lemma round_rparen l lval :
  In (startCond_ l) declared -> peek l = ")"%char ->
  yyround l (peek l) None lval
  = (l' <- (if inParen l then Ok (took l)
            else Error (took l)
                   ("enexpected " ++ String dquote ")" ++ String dquote "")) ;;
     Ok (set_inParen false l', peek (took l), lval,
         Continue (Some (T_char nl)))).
Proof.
  destruct l as [rh eh sc bf la pk ln col nm sr pv ip]. cbn [startCond_ peek].
  intros Hsc ->. unfold took. destruct ip; destruct eh as [h|];
    each_state Hsc; by_scan sr.
Qed.

Lemma round_nul l lval :
  In (startCond_ l) declared -> peek l = x00 ->
  yyround l (peek l) None lval
  = Ok (fst (getc x00 (set_buf [] l)), x00, lval, Return (T_char x00)).
Proof.
  destruct l as [rh eh sc bf la pk ln col nm sr pv ip]. cbn [startCond_ peek].
  intros Hsc ->. each_state Hsc; by_scan sr.
Qed.

Lemma buf_took l : peek l <> x00 -> buf (took l) = [peek l].
Proof.
  intros H. unfold took, getc. cbn [buf set_buf peek src].
  unfold byte_eqb. destruct (Ascii.eqb_spec (peek l) x00) as [E|_]; [contradiction|].
  now destruct (src l).
Qed.

Lemma src_took l : length (src (took l)) = length (src l) - 1.
Proof.
  unfold took, getc. cbn [src set_buf]. destruct (src l); simpl; lia.
Qed.

(** A round that leaves [ret] set is followed by the return at
    [yystate0]. *)
Lemma Lex_of_round l lval l' c' lval' tok :
  yyround l (peek l) None lval = Ok (l', c', lval', Continue (Some tok)) ->
  Lex l lval = Ok (tok, l', set_str (string_of_bytes (buf l')) lval').
Proof.
  intros H. unfold Lex. cbn [yyloop]. rewrite H. reflexivity.
Qed.

(** A round that leaves [ret] unset is followed by another round. *)
Lemma Lex_next_round l lval l' c' lval' :
  yyround l (peek l) None lval = Ok (l', c', lval', Continue None) ->
  Lex l lval = yyloop (S (S (length (src l)))) l' c' None lval'.
Proof.
  intros H. unfold Lex.
  change (yyloop (S (S (S (length (src l))))) l (peek l) None lval)
    with (x <- yyround l (peek l) None lval ;;
          match x with
          | (l1, c1, lval1, Return tok) => Ok (tok, l1, lval1)
          | (l1, c1, lval1, Continue ret) =>
              yyloop (S (S (length (src l)))) l1 c1 ret lval1
          end).
  rewrite H. reflexivity.
Qed.

(** X17.  A line end, a newline or a carriage return, in any start
    condition: outside parentheses [Lex] takes it and returns the token of
    the newline, the end of a record; inside parentheses it is taken
    without a token and the scan goes on with the next character. *)
Theorem newline_rule (l : lex) (lval : yySymType) :
  In (startCond_ l) declared -> peek l = nl \/ peek l = cr ->
  if inParen l
  then Lex l lval
       = yyloop (S (S (length (src l)))) (took l) (peek (took l)) None lval
  else Lex l lval = Ok (T_char nl, took l, set_str (String (peek l) "") lval).
Proof.
  intros Hsc Hc. pose proof (round_newline l lval Hsc Hc) as H.
  destruct (inParen l).
  - now apply Lex_next_round.
  - rewrite (Lex_of_round _ _ _ _ _ _ H).
    rewrite buf_took by (destruct Hc as [-> | ->]; discriminate).
    reflexivity.
Qed.

(** X18.  Parentheses, in any start condition.  [(] sets the flag and is
    no token: the scan goes on; with the flag set already it first calls
    [l.Error] with "nested parenthesis".  [)] clears the flag and [Lex]
    returns the token of the newline, with the text [)]; with the flag
    clear it first calls [l.Error].  When [l.Error] returns, its handler
    having returned true, the scan goes on as if there were no error. *)
Theorem paren_rules (l : lex) (lval : yySymType) :
  In (startCond_ l) declared ->
  (peek l = "("%char ->
   Lex l lval
   = (l' <- (if inParen l then Error (took l) "nested parenthesis"
             else Ok (took l)) ;;
      yyloop (S (S (length (src l)))) (set_inParen true l') (peek (took l))
             None lval)) /\
  (peek l = ")"%char ->
   Lex l lval
   = (l' <- (if inParen l then Ok (took l)
             else Error (took l)
                    ("enexpected " ++ String dquote ")" ++ String dquote "")) ;;
      Ok (T_char nl, set_inParen false l', set_str ")" lval))).
Proof.
  intros Hsc. split; intros Hc.
  - pose proof (round_lparen l lval Hsc Hc) as H.
    destruct (inParen l); [|now apply Lex_next_round].
    unfold Error in *. destruct (errHandler (took l)) as [h|].
    + destruct (h _); cbn [obind] in *.
      * now apply Lex_next_round.
      * unfold Lex. cbn [yyloop]. rewrite H. reflexivity.
    + cbn [obind] in *. unfold Lex. cbn [yyloop]. rewrite H. reflexivity.
  - pose proof (round_rparen l lval Hsc Hc) as H.
    assert (Hb : buf (took l) = [")"%char])
      by (rewrite buf_took by (rewrite Hc; discriminate); now rewrite Hc).
    destruct (inParen l).
    + cbn [obind] in *. rewrite (Lex_of_round _ _ _ _ _ _ H).
      cbn [buf set_inParen]. now rewrite Hb.
    + unfold Error in *. destruct (errHandler (took l)) as [h|].
      * destruct (h _); cbn [obind] in *.
        -- rewrite (Lex_of_round _ _ _ _ _ _ H). cbn [buf set_inParen].
           now rewrite Hb.
        -- unfold Lex. cbn [yyloop]. rewrite H. reflexivity.
      * cbn [obind] in *. unfold Lex. cbn [yyloop]. rewrite H. reflexivity.
Qed.

(** X19.  At the end of the input, where the character ahead is 0, and on
    a byte 0 of the input, no rule matches: [Lex] returns the token 0, the
    end of the input for the parser, with the semantic value untouched,
    in any start condition and as often as it is called at the end. *)
Theorem Lex_at_end (l : lex) (lval : yySymType) :
  In (startCond_ l) declared -> peek l = x00 ->
  let l' := fst (getc x00 (set_buf [] l)) in
  Lex l lval = Ok (T_char x00, l', lval) /\
  startCond_ l' = startCond_ l /\ inParen l' = inParen l /\
  (src l = [] -> peek l' = x00 /\ src l' = []).
Proof.
  intros Hsc Hc. cbv zeta. split.
  - pose proof (round_nul l lval Hsc Hc) as H.
    unfold Lex. cbn [yyloop]. rewrite H. reflexivity.
  - unfold getc. cbn [src set_buf peek startCond_ inParen].
    destruct (src l); cbn [fst startCond_ inParen peek src];
      repeat split; discriminate.
Qed.
End LexFacts.
End LexFacts.

(** ** The scanner: tokens made of a run of characters *)

Module TokenFacts.
Section TokenFacts.
Context {NP : NetParse}.

Lemma getc_peek c l : snd (getc c l) = peek (fst (getc c l)).
Proof. unfold getc. now destruct (src l). Qed.

Lemma getc_ahead c l :
  peek (fst (getc c l)) = hd x00 (src l) /\ src (fst (getc c l)) = tl (src l).
Proof. unfold getc. now destruct (src l). Qed.

Lemma getc_buf c l :
  c <> x00 -> buf (fst (getc c l)) = buf l ++ [c].
Proof.
  intros H. unfold getc, byte_eqb.
  destruct (Ascii.eqb_spec c x00); [contradiction|]. now destruct (src l).
Qed.

Lemma getc_kept c l :
  startCond_ (fst (getc c l)) = startCond_ l /\
  inParen (fst (getc c l)) = inParen l /\
  errHandler (fst (getc c l)) = errHandler l /\
  rrHandler (fst (getc c l)) = rrHandler l /\
  name (fst (getc c l)) = name l.
Proof. unfold getc. now destruct (src l). Qed.

Lemma nth_hd_tl (s : bytes) i : nth i (hd x00 s :: tl s) x00 = nth i s x00.
Proof. destruct s; [now destruct i as [|[|]] | reflexivity]. Qed.

Lemma peek_advance i : forall l, peek (advance i l) = nth i (ahead l) x00.
Proof.
  induction i as [|i IH]; intros l; cbn [advance]; [reflexivity|].
  rewrite IH. unfold ahead. destruct (getc_ahead (peek l) l) as [-> ->].
  cbn [nth]. apply nth_hd_tl.
Qed.

Lemma advance_kept n : forall l,
  startCond_ (advance n l) = startCond_ l /\
  inParen (advance n l) = inParen l /\
  errHandler (advance n l) = errHandler l /\
  rrHandler (advance n l) = rrHandler l /\
  name (advance n l) = name l.
Proof.
  induction n as [|n IH]; intros l; cbn [advance]; [tauto|].
  destruct (IH (fst (getc (peek l) l))) as (-> & -> & -> & -> & ->).
  apply getc_kept.
Qed.

(** The scanner after the moves over [ds]: the text taken, and what is
    ahead. *)
Lemma advance_over d ds : forall l rest,
  ahead l = (d :: ds) ++ rest ->
  Forall (fun c => c <> x00) (d :: ds) ->
  buf (advance (length (d :: ds)) l) = buf l ++ d :: ds /\
  peek (advance (length (d :: ds)) l) = hd x00 rest /\
  src (advance (length (d :: ds)) l) = tl rest.
Proof.
  revert d. induction ds as [|d' ds IH]; intros d l rest Ha Hz;
    unfold ahead in Ha; injection Ha as Hp Hs;
    pose proof (Forall_inv Hz) as Hd; pose proof (Forall_inv_tail Hz) as Hz';
    cbv beta in Hd; cbn [length advance];
    destruct (getc_ahead (peek l) l) as [Hp1 Hs1];
    rewrite Hp in *; pose proof (getc_buf d l Hd) as Hb1;
    rewrite Hs in Hp1, Hs1.
  - cbn [app] in *. now rewrite Hb1, Hp1, Hs1.
  - cbn [app hd tl] in Hp1, Hs1.
    destruct (IH d' (fst (getc d l)) rest) as (Hb & Hp' & Hs').
    + unfold ahead. now rewrite Hp1, Hs1.
    + exact Hz'.
    + cbn [length advance] in Hb, Hp', Hs'.
      rewrite Hb, Hp', Hs', Hb1, <- app_assoc.
      repeat split.
Qed.

Lemma yywalk_step m st l c :
  yynext c st <> [] ->
  yywalk (S m) st l c
  = yywalk m (yynext c st) (fst (getc c l)) (peek (fst (getc c l))).
Proof.
  intros H. cbn [yywalk]. fold (yynext c st).
  destruct (yynext c st); [contradiction|].
  rewrite <- getc_peek. now destruct (getc c l).
Qed.

Lemma yywalk_stop m st l c :
  yynext c st = [] -> yywalk m st l c = (l, c, yyaccept c st).
Proof.
  intros H. destruct m; cbn [yywalk]; fold (yynext c st); now rewrite H.
Qed.

(** The walk through a run of characters of the class [p], one rule being
    left whose pattern goes on with any number of them. *)
Lemma walk_run (r : rule) (p : ascii -> bool) :
  eol r = false ->
  forall n l moves,
    n <= moves ->
    (forall i, i < n -> p (peek (advance i l)) = true) ->
    p (peek (advance n l)) = false ->
    yywalk moves [(r, Star (Cls p))] l (peek l)
    = (advance n l, peek (advance n l), Some r).
Proof.
  intros Hr. induction n as [|n IH]; intros l moves Hm Hin Hout.
  - cbn [advance] in *. rewrite yywalk_stop.
    + unfold yyaccept. cbn [find fst snd nullable andb]. now rewrite Hr.
    + unfold yynext. cbn [map filter fst snd der]. now rewrite Hout.
  - destruct moves as [|moves]; [lia|].
    assert (H0 : p (peek l) = true) by (apply (Hin 0); lia).
    assert (Hn : yynext (peek l) [(r, Star (Cls p))] = [(r, Star (Cls p))]).
    { unfold yynext. cbn [map filter fst snd der]. now rewrite H0. }
    rewrite yywalk_step by (rewrite Hn; discriminate).
    rewrite Hn. cbn [advance]. apply IH; [lia | | exact Hout].
    intros i Hi. apply (Hin (S i)). lia.
Qed.

Lemma in_run (p : ascii -> bool) ds rest l :
  ahead l = ds ++ rest -> Forall (fun c => p c = true) ds ->
  forall i, i < length ds -> p (peek (advance i l)) = true.
Proof.
  intros Ha Hp i Hi. rewrite peek_advance, Ha, app_nth1 by exact Hi.
  rewrite Forall_forall in Hp. apply Hp, nth_In, Hi.
Qed.

Lemma out_run (p : ascii -> bool) ds rest l :
  ahead l = ds ++ rest -> p (hd x00 rest) = false ->
  p (peek (advance (length ds) l)) = false.
Proof.
  intros Ha Hp. rewrite peek_advance, Ha, app_nth2, Nat.sub_diag by lia.
  now destruct rest.
Qed.

(** A round on a run [d :: ds] of the class [p], when the first character
    leaves the rule [r] alone with [p]* to go: the run is taken and the
    action of [r] runs on it. *)
Lemma round_run (r : rule) (p : ascii -> bool) l lval d ds rest :
  eol r = false -> p x00 = false ->
  In (startCond_ l) declared ->
  yynext d (yystart (set_buf [] l)) = [(r, Star (Cls p))] ->
  ahead l = (d :: ds) ++ rest ->
  Forall (fun c => p c = true) (d :: ds) -> p (hd x00 rest) = false ->
  let l' := advance (length (d :: ds)) (set_buf [] l) in
  buf l' = d :: ds /\ peek l' = hd x00 rest /\ src l' = tl rest /\
  yyround l (peek l) None lval
  = (x <- act r l' lval ;;
     let '(l2, lval2, f) := x in Ok (l2, hd x00 rest, lval2, f)).
Proof.
  intros Hr Hp0 Hsc Hfirst Ha Hp Hout l'.
  assert (Ha0 : ahead (set_buf [] l) = (d :: ds) ++ rest) by exact Ha.
  assert (Hz : Forall (fun c => c <> x00) (d :: ds)).
  { eapply Forall_impl; [|exact Hp]. intros c Hc ->. congruence. }
  destruct (advance_over d ds (set_buf [] l) rest Ha0 Hz) as (Hb & Hpk & Hs).
  fold l' in Hb, Hpk, Hs. cbn [buf set_buf app] in Hb.
  split; [exact Hb|]. split; [exact Hpk|]. split; [exact Hs|].
  assert (Hd : peek l = d) by (unfold ahead in Ha; now injection Ha).
  assert (Hlen : length (src l) = length ds + length rest).
  { unfold ahead in Ha. injection Ha as _ ->. apply length_app. }
  unfold yyround.
  assert (Hdecl : existsb (startCond_eqb (startCond_ (set_buf [] l))) declared = true).
  { apply existsb_exists. exists (startCond_ l). split; [exact Hsc|].
    cbn [startCond_ set_buf]. now destruct (startCond_ l). }
  rewrite Hdecl, Hd.
  rewrite yywalk_step by (rewrite Hfirst; discriminate).
  rewrite Hfirst.
  change (fst (getc d (set_buf [] l))) with (fst (getc d (set_buf [] l))).
  assert (E1 : fst (getc d (set_buf [] l)) = advance 1 (set_buf [] l))
    by (cbn [advance]; now rewrite <- Hd).
  rewrite E1.
  rewrite (walk_run r p Hr (length ds) (advance 1 (set_buf [] l))).
  - assert (E2 : advance (length ds) (advance 1 (set_buf [] l)) = l').
    { subst l'. cbn [length advance]. reflexivity. }
    rewrite E2, Hpk. reflexivity.
  - cbn [src set_buf]. lia.
  - intros i Hi. change (advance i (advance 1 (set_buf [] l)))
      with (advance (S i) (set_buf [] l)).
    apply (in_run p (d :: ds) rest); [exact Ha0 | exact Hp | cbn [length]; lia].
  - change (advance (length ds) (advance 1 (set_buf [] l)))
      with (advance (length (d :: ds)) (set_buf [] l)).
    now apply (out_run p (d :: ds) rest).
Qed.

Lemma filter_map_comm {A B} (g : B -> bool) (h : A -> B) (l : list A) :
  filter g (map h l) = map h (filter (fun x => g (h x)) l).
Proof.
  induction l as [|x l IH]; cbn [map filter]; [reflexivity|].
  destruct (g (h x)); cbn [map]; now rewrite IH.
Qed.

Lemma filter_filter {A} (f g : A -> bool) (l : list A) :
  filter f (filter g l) = filter (fun x => g x && f x)%bool l.
Proof.
  induction l as [|x l IH]; cbn [filter]; [reflexivity|].
  destruct (g x); cbn [filter andb]; [destruct (f x)|]; now rewrite IH.
Qed.

Lemma filter_sel {A} (f : A -> bool) (l : list A) : filter f l = sel (map f l) l.
Proof.
  induction l as [|x l IH]; cbn [filter map sel]; [reflexivity|].
  destruct (f x); now rewrite IH.
Qed.

(** The first move of the DFA, from the start state: the rules of the
    start condition whose pattern can begin with [d]. *)
Lemma yynext_start d l :
  yynext d (yystart l)
  = map (fun r => (r, der d (pat r)))
        (sel (map (fun r => active l r && negb (dead (der d (pat r))))%bool rules)
             rules).
Proof.
  unfold yynext, yystart. rewrite map_map. cbn [fst snd].
  rewrite filter_map_comm. cbn [fst snd].
  rewrite filter_filter, <- filter_sel. reflexivity.
Qed.

Lemma der_plus (p : ascii -> bool) d :
  p d = true -> der d (plus (Cls p)) = Star (Cls p).
Proof. intros H. unfold plus. cbn [der nullable]. now rewrite H. Qed.

Ltac each_byte c H :=
  destruct c as [[] [] [] [] [] [] [] []]; try discriminate H.

(** The mask of the first move is a list of booleans: it is computed, and
    the rules it picks are read off [rules]. *)
Ltac first_step :=
  rewrite yynext_start; unfold active;
  match goal with
  | |- context [yyb ?x] => generalize (yyb x); intros [|]
  end;
  match goal with
  | |- context [sel ?m rules] =>
      let v := eval vm_compute in m in
      replace m with v by (vm_compute; reflexivity)
  end;
  unfold rules; cbn [sel app map type_mnemonics pat mk].

Lemma first_digit l d :
  startCond_ l = sc_RRHEAD \/ startCond_ l = sc_NUM -> is_digit d = true ->
  yynext d (yystart (set_buf [] l)) = [(rule_number, Star (Cls is_digit))].
Proof.
  destruct l as [rh eh sc bf la pk ln col nm sr pv ip].
  cbn [startCond_ set_buf]. intros Hsc Hd.
  each_byte d Hd; destruct Hsc as [-> | ->]; first_step;
    unfold digit; rewrite (der_plus _ _ Hd); reflexivity.
Qed.

Lemma first_hex l d :
  startCond_ l = sc_HEX -> is_hex d = true ->
  yynext d (yystart (set_buf [] l)) = [(rule_hex, Star (Cls is_hex))].
Proof.
  destruct l as [rh eh sc bf la pk ln col nm sr pv ip].
  cbn [startCond_ set_buf]. intros -> Hd.
  each_byte d Hd; first_step;
    unfold hex; rewrite (der_plus _ _ Hd); reflexivity.
Qed.

(** X20.  A decimal number in the start conditions of the record head and
    of numbers: [Lex] takes the whole run of digits, up to a character that
    is no digit or to the end of the input; it returns the token of a
    number with the text and its value when the value fits 64 bits, and
    panics with "invalid number" and the text when it does not: the panic
    has no source name, line and column and the error handler of the
    scanner is not asked, whatever it is. *)
Theorem number_token (l : lex) (lval : yySymType) (d : byte) (ds rest : bytes) :
  startCond_ l = sc_RRHEAD \/ startCond_ l = sc_NUM ->
  Forall (fun c => is_digit c = true) (d :: ds) ->
  is_digit (hd x00 rest) = false ->
  ahead l = (d :: ds) ++ rest ->
  let l' := advance (length (d :: ds)) (set_buf [] l) in
  let text := string_of_bytes (d :: ds) in
  buf l' = d :: ds /\ peek l' = hd x00 rest /\ src l' = tl rest /\
  Lex l lval
  = match Atoui64 (d :: ds) with
    | Some v => Ok (tDECADIC, l', set_str text (set_u64 v (set_str text lval)))
    | None => Panic ("invalid number " ++ fmt_q (d :: ds))
    end.
Proof.
  intros Hsc Hp Hout Ha l' text.
  assert (Hd : is_digit d = true) by (now inversion Hp).
  assert (Hdecl : In (startCond_ l) declared)
    by (destruct Hsc as [-> | ->]; cbn; tauto).
  destruct (round_run rule_number is_digit l lval d ds rest eq_refl eq_refl Hdecl
              (first_digit l d Hsc Hd) Ha Hp Hout) as (Hb & Hpk & Hs & Hround).
  fold l' in Hb, Hpk, Hs, Hround.
  split; [exact Hb|]. split; [exact Hpk|]. split; [exact Hs|].
  cbn [act rule_number mk] in Hround. unfold act_number in Hround.
  rewrite Hb in Hround. fold text in Hround.
  unfold Lex. cbn [yyloop]. rewrite Hround.
  destruct (Atoui64 (d :: ds)) as [v|]; cbn [obind]; [|reflexivity].
  unfold yyround. now rewrite Hb.
Qed.

(** X21.  A run of hexadecimal digits in the start condition of
    hexadecimal data: [Lex] takes the whole run and returns the token of
    hexadecimal data with the octets the digits stand for; on a run of odd
    length it calls [l.Error] with "expected hex string", which panics with
    source name, line and column in front, or, when the error handler
    returns true, lets [Lex] return the token without octets. *)
Theorem hex_token (l : lex) (lval : yySymType) (d : byte) (ds rest : bytes) :
  startCond_ l = sc_HEX ->
  Forall (fun c => is_hex c = true) (d :: ds) ->
  is_hex (hd x00 rest) = false ->
  ahead l = (d :: ds) ++ rest ->
  let l' := advance (length (d :: ds)) (set_buf [] l) in
  let text := string_of_bytes (d :: ds) in
  buf l' = d :: ds /\ peek l' = hd x00 rest /\ src l' = tl rest /\
  Lex l lval
  = match hex_DecodeString (d :: ds) with
    | Some octets => Ok (tHEX, l', set_str text (set_data octets lval))
    | None =>
        match errHandler l with
        | Some h =>
            if h (Error_message l' "expected hex string")
            then Ok (tHEX, l', set_str text (set_data [] lval))
            else Panic (Error_message l' "expected hex string")
        | None => Panic (Error_message l' "expected hex string")
        end
    end.
Proof.
  intros Hsc Hp Hout Ha l' text.
  assert (Hd : is_hex d = true) by (now inversion Hp).
  assert (Hdecl : In (startCond_ l) declared) by (rewrite Hsc; cbn; tauto).
  destruct (round_run rule_hex is_hex l lval d ds rest eq_refl eq_refl Hdecl
              (first_hex l d Hsc Hd) Ha Hp Hout) as (Hb & Hpk & Hs & Hround).
  fold l' in Hb, Hpk, Hs, Hround.
  split; [exact Hb|]. split; [exact Hpk|]. split; [exact Hs|].
  cbn [act rule_hex mk] in Hround. unfold act_hex in Hround.
  rewrite Hb in Hround.
  assert (He : errHandler l' = errHandler l).
  { subst l'. destruct (advance_kept (length (d :: ds)) (set_buf [] l))
      as (_ & _ & -> & _). reflexivity. }
  unfold Lex. cbn [yyloop]. rewrite Hround.
  destruct (hex_DecodeString (d :: ds)) as [octets|]; cbn [obind].
  - unfold yyround. now rewrite Hb.
  - unfold Error. rewrite He. destruct (errHandler l) as [h|]; [|reflexivity].
    destruct (h _); cbn [obind]; [|reflexivity].
    unfold yyround. now rewrite Hb.
Qed.

Lemma first_base32ext l d :
  startCond_ l = sc_BASE32EXT -> is_base32ext d = true ->
  yynext d (yystart (set_buf [] l))
  = [(rule_base32ext, Star (Cls is_base32ext))].
Proof.
  destruct l as [rh eh sc bf la pk ln col nm sr pv ip].
  cbn [startCond_ set_buf]. intros -> Hd.
  each_byte d Hd; first_step;
    change (der ?c (plus (Cls ?p))) with (der c (plus (Cls is_base32ext)));
    rewrite (der_plus _ _ Hd); reflexivity.
Qed.

Lemma first_base64 l d :
  startCond_ l = sc_BASE64 -> is_base64 d = true ->
  yynext d (yystart (set_buf [] l)) = [(rule_base64, Star (Cls is_base64))].
Proof.
  destruct l as [rh eh sc bf la pk ln col nm sr pv ip].
  cbn [startCond_ set_buf]. intros -> Hd.
  each_byte d Hd; first_step;
    change (der ?c (plus (Cls ?p))) with (der c (plus (Cls is_base64)));
    rewrite (der_plus _ _ Hd); reflexivity.
Qed.

(** X22.  Base32 and base64 text, in their start conditions: [Lex] takes
    the whole run of characters of the alphabet, padding included, and
    returns its token with the run as the text of the semantic value; the
    text is not decoded and its shape is not checked. *)
Theorem base_text_tokens (l : lex) (lval : yySymType) (d : byte)
    (ds rest : bytes) :
  ahead l = (d :: ds) ++ rest ->
  let l' := advance (length (d :: ds)) (set_buf [] l) in
  let lval' := set_str (string_of_bytes (d :: ds)) lval in
  (startCond_ l = sc_BASE32EXT ->
   Forall (fun c => is_base32ext c = true) (d :: ds) ->
   is_base32ext (hd x00 rest) = false ->
   Lex l lval = Ok (tBASE32EXT, l', lval') /\
   buf l' = d :: ds /\ peek l' = hd x00 rest /\ src l' = tl rest) /\
  (startCond_ l = sc_BASE64 ->
   Forall (fun c => is_base64 c = true) (d :: ds) ->
   is_base64 (hd x00 rest) = false ->
   Lex l lval = Ok (tBASE64, l', lval') /\
   buf l' = d :: ds /\ peek l' = hd x00 rest /\ src l' = tl rest).
Proof.
  intros Ha. cbv zeta. split; intros Hsc Hp Hout.
  - assert (Hd : is_base32ext d = true) by (now inversion Hp).
    assert (Hdecl : In (startCond_ l) declared) by (rewrite Hsc; cbn; tauto).
    destruct (round_run rule_base32ext is_base32ext l lval d ds rest eq_refl
                eq_refl Hdecl (first_base32ext l d Hsc Hd) Ha Hp Hout)
      as (Hb & Hpk & Hs & Hround).
    split; [|split; [exact Hb | split; [exact Hpk | exact Hs]]].
    cbn [act rule_base32ext mk] in Hround. unfold act_ret in Hround.
    cbn [obind] in Hround.
    unfold Lex. cbn [yyloop]. rewrite Hround. cbn [obind].
    unfold yyround. now rewrite Hb.
  - assert (Hd : is_base64 d = true) by (now inversion Hp).
    assert (Hdecl : In (startCond_ l) declared) by (rewrite Hsc; cbn; tauto).
    destruct (round_run rule_base64 is_base64 l lval d ds rest eq_refl
                eq_refl Hdecl (first_base64 l d Hsc Hd) Ha Hp Hout)
      as (Hb & Hpk & Hs & Hround).
    split; [|split; [exact Hb | split; [exact Hpk | exact Hs]]].
    cbn [act rule_base64 mk] in Hround. unfold act_ret in Hround.
    cbn [obind] in Hround.
    unfold Lex. cbn [yyloop]. rewrite Hround. cbn [obind].
    unfold yyround. now rewrite Hb.
Qed.
End TokenFacts.
End TokenFacts.

(** ** The scanner: quoted strings *)

Module QuotedFacts.
Section QuotedFacts.
Context {NP : NetParse}.

Lemma plain_facts c :
  plain_char c = true ->
  not_nul c = true /\ Ascii.eqb c backslash = false /\
  Ascii.eqb c dquote = false /\ Ascii.eqb c nl = false /\
  Ascii.eqb c cr = false.
Proof.
  unfold plain_char. rewrite !andb_true_iff, !negb_true_iff. tauto.
Qed.

Lemma der_open_quote : der dquote qstr_re = qstr_open.
Proof. reflexivity. Qed.

Lemma der_plain c : plain_char c = true -> der c qstr_open = qstr_open.
Proof.
  intros H. pose proof (plain_facts c H) as (Hn & Hb & Hq & _ & _).
  unfold qstr_open, qstr_body, chr, any. cbn [der nullable].
  rewrite H, (Ascii.eqb_sym backslash c), Hb, (Ascii.eqb_sym dquote c), Hq.
  reflexivity.
Qed.

Lemma der_backslash : der backslash qstr_open = qstr_escaped.
Proof. reflexivity. Qed.

Lemma der_escaped c :
  not_nul c = true -> c <> nl -> der c qstr_escaped = qstr_open.
Proof.
  intros Hn Hl. unfold qstr_escaped, qstr_open, qstr_body, chr, any.
  cbn [der nullable andb]. rewrite Hn.
  destruct (Ascii.eqb_spec c nl) as [E|_]; [contradiction|]. reflexivity.
Qed.

Lemma der_close_quote : der dquote qstr_open = Eps.
Proof. reflexivity. Qed.

Lemma quoted_nonzero bs : quoted_text bs -> Forall (fun c => c <> x00) bs.
Proof.
  induction 1 as [|c r Hc _ IH|c r Hc _ _ IH].
  - constructor.
  - constructor; [|exact IH]. intros ->. discriminate Hc.
  - constructor; [discriminate|]. constructor; [|exact IH].
    intros ->. discriminate Hc.
Qed.

Lemma ahead_getc l c s :
  ahead l = c :: s -> s <> [] -> ahead (fst (getc (peek l) l)) = s.
Proof.
  unfold ahead. intros H Hs. injection H as _ Hsrc.
  destruct (TokenFacts.getc_ahead (peek l) l) as [-> ->]. rewrite Hsrc.
  destruct s; [contradiction | reflexivity].
Qed.

(** The walk through the text of a quoted string and its closing quote. *)
Lemma walk_quoted (r : rule) :
  eol r = false ->
  forall bs, quoted_text bs ->
  forall l moves rest,
    ahead l = bs ++ dquote :: rest ->
    length bs + 1 <= moves ->
    yywalk moves [(r, qstr_open)] l (peek l)
    = (advance (length bs + 1) l, peek (advance (length bs + 1) l), Some r).
Proof.
  intros Hr bs Hq.
  induction Hq as [|c bs Hc _ IH|c bs Hn Hl _ IH]; intros l moves rest Ha Hm.
  - cbn [app length Nat.add] in *.
    assert (Hp : peek l = dquote) by (unfold ahead in Ha; now injection Ha).
    destruct moves as [|moves]; [lia|].
    assert (E : yynext dquote [(r, qstr_open)] = [(r, Eps)]) by reflexivity.
    rewrite Hp, TokenFacts.yywalk_step by (rewrite E; discriminate).
    rewrite E, TokenFacts.yywalk_stop by reflexivity.
    cbn [advance]. rewrite Hp. unfold yyaccept.
    cbn [find fst snd nullable andb]. now rewrite Hr.
  - cbn [app length Nat.add] in *.
    assert (Hp : peek l = c) by (unfold ahead in Ha; now injection Ha).
    destruct moves as [|moves]; [lia|].
    assert (E : yynext c [(r, qstr_open)] = [(r, qstr_open)]).
    { unfold yynext. cbn [map filter fst snd]. now rewrite (der_plain c Hc). }
    rewrite Hp, TokenFacts.yywalk_step by (rewrite E; discriminate).
    rewrite E. cbn [advance]. rewrite Hp.
    apply (IH _ _ rest); [|lia].
    rewrite <- Hp. apply (ahead_getc l c); [exact Ha | now destruct bs].
  - cbn [app length Nat.add] in *.
    assert (Hp : peek l = backslash) by (unfold ahead in Ha; now injection Ha).
    destruct moves as [|[|moves]]; try lia.
    assert (E : yynext backslash [(r, qstr_open)] = [(r, qstr_escaped)])
      by reflexivity.
    rewrite Hp, TokenFacts.yywalk_step by (rewrite E; discriminate).
    rewrite E.
    set (l1 := fst (getc backslash l)).
    assert (Ha1 : ahead l1 = c :: bs ++ dquote :: rest).
    { subst l1. rewrite <- Hp. apply (ahead_getc l backslash); [exact Ha|].
      discriminate. }
    assert (Hp1 : peek l1 = c) by (unfold ahead in Ha1; now injection Ha1).
    assert (E1 : yynext c [(r, qstr_escaped)] = [(r, qstr_open)]).
    { unfold yynext. cbn [map filter fst snd].
      now rewrite (der_escaped c Hn Hl). }
    rewrite Hp1, TokenFacts.yywalk_step by (rewrite E1; discriminate).
    rewrite E1. cbn [advance]. rewrite Hp. fold l1. rewrite Hp1.
    apply (IH _ _ rest); [|lia].
    rewrite <- Hp1. apply (ahead_getc l1 c); [exact Ha1 | now destruct bs].
Qed.

Ltac each_state H :=
  unfold declared in H; cbn [In] in H;
  destruct H as [<-|[<-|[<-|[<-|[<-|[<-|[<-|[<-|[<-|[<-|[]]]]]]]]]]].

Lemma first_quote l :
  In (startCond_ l) declared ->
  yynext dquote (yystart (set_buf [] l)) = [(rule_qstr, qstr_open)].
Proof.
  destruct l as [rh eh sc bf la pk ln col nm sr pv ip].
  cbn [startCond_ set_buf]. intros Hsc.
  each_state Hsc;
    (rewrite TokenFacts.yynext_start; unfold active;
     match goal with
     | |- context [yyb ?x] => generalize (yyb x); intros [|]
     end;
     match goal with
     | |- context [sel ?m rules] =>
         let v := eval vm_compute in m in
         replace m with v by (vm_compute; reflexivity)
     end;
     unfold rules; cbn [sel app map type_mnemonics pat mk];
     reflexivity).
Qed.

Lemma inner_text (bs : bytes) :
  firstn (length (dquote :: bs ++ [dquote]) - 1 - 1)
         (skipn 1 (dquote :: bs ++ [dquote])) = bs.
Proof.
  cbn [length skipn]. rewrite length_app. cbn [length].
  replace (S (length bs + 1) - 1 - 1) with (length bs) by lia.
  apply firstn_app_exact.
Qed.

Lemma Lex_quoted (l : lex) (lval : yySymType) (bs rest : bytes) :
  In (startCond_ l) declared ->
  quoted_text bs ->
  ahead l = (dquote :: bs ++ [dquote]) ++ rest ->
  let l' := advance (length (dquote :: bs ++ [dquote])) (set_buf [] l) in
  buf l' = dquote :: bs ++ [dquote] /\ peek l' = hd x00 rest /\
  src l' = tl rest /\
  Lex l lval
  = Ok (tQSTR, l', set_str (string_of_bytes (unescape_quotes bs)) lval).
Proof.
  intros Hsc Hq Ha. cbv zeta.
  assert (Ha0 : ahead (set_buf [] l) = (dquote :: bs ++ [dquote]) ++ rest)
    by exact Ha.
  assert (Hz : Forall (fun c => c <> x00) (dquote :: bs ++ [dquote])).
  { constructor; [discriminate|]. apply Forall_app. split.
    - now apply quoted_nonzero.
    - constructor; [discriminate | constructor]. }
  destruct (TokenFacts.advance_over dquote (bs ++ [dquote]) (set_buf [] l) rest
              Ha0 Hz) as (Hb & Hpk & Hs).
  cbn [buf set_buf app] in Hb.
  match type of Hb with buf ?X = _ => remember X as l' eqn:El' end.
  assert (Eg : advance (length (dquote :: bs ++ [dquote])) (set_buf [] l) = l')
    by (rewrite El'; reflexivity).
  rewrite Eg.
  split; [exact Hb|]. split; [exact Hpk|]. split; [exact Hs|].
  assert (Hp : peek l = dquote) by (unfold ahead in Ha; now injection Ha).
  assert (Hlen : length (src l) = length bs + 1 + length rest).
  { unfold ahead in Ha. injection Ha as _ ->. rewrite !length_app.
    reflexivity. }
  unfold Lex. cbn [yyloop]. unfold yyround.
  assert (Hdecl : existsb (startCond_eqb (startCond_ (set_buf [] l))) declared
                  = true).
  { apply existsb_exists. exists (startCond_ l). split; [exact Hsc|].
    cbn [startCond_ set_buf]. now destruct (startCond_ l). }
  rewrite Hdecl, Hp.
  rewrite TokenFacts.yywalk_step by (rewrite (first_quote l Hsc); discriminate).
  rewrite (first_quote l Hsc).
  set (l1 := fst (getc dquote (set_buf [] l))).
  assert (Ha1 : ahead l1 = bs ++ dquote :: rest).
  { subst l1.
    pose proof (ahead_getc (set_buf [] l) dquote (bs ++ dquote :: rest)) as H.
    cbn [peek set_buf] in H. rewrite Hp in H. apply H.
    - rewrite Ha0. cbn [app]. now rewrite <- app_assoc.
    - now destruct bs. }
  rewrite (walk_quoted rule_qstr eq_refl bs Hq l1 _ rest Ha1)
    by (cbn [src set_buf]; lia).
  assert (E : advance (length bs + 1) l1 = l').
  { subst l' l1. cbn [length advance]. rewrite length_app.
    cbn [length peek set_buf]. now rewrite Hp. }
  rewrite E. cbn [act rule_qstr mk]. unfold act_qstr. rewrite Hb, inner_text.
  reflexivity.
Qed.

(** X23.  A quoted string, in any start condition: [Lex] takes the text
    from the opening quote to the next quote that no backslash stands
    before, and returns the token of a quoted string whose value is the
    text between the quotes with every backslash-quote replaced by a
    quote; a backslash before another character stays. *)
Theorem quoted_string_token (l : lex) (lval : yySymType) (bs rest : bytes) :
  In (startCond_ l) declared ->
  quoted_text bs ->
  ahead l = (dquote :: bs ++ [dquote]) ++ rest ->
  let l' := advance (length (dquote :: bs ++ [dquote])) (set_buf [] l) in
  buf l' = dquote :: bs ++ [dquote] /\ peek l' = hd x00 rest /\
  src l' = tl rest /\
  Lex l lval
  = Ok (tQSTR, l', set_str (string_of_bytes (unescape_quotes bs)) lval).
Proof. apply Lex_quoted. Qed.

Lemma bytes_of_append (a b : string) :
  bytes_of_string (a ++ b) = bytes_of_string a ++ bytes_of_string b.
Proof.
  induction a as [|c a IH]; cbn [String.append bytes_of_string
                                 list_ascii_of_string app]; [reflexivity|].
  unfold bytes_of_string in IH. now rewrite IH.
Qed.

Lemma quoted_escape (S : string) :
  Forall (fun c => plain_char c = true \/ c = dquote) (bytes_of_string S) ->
  quoted_text (bytes_of_string (escape_quotes S)).
Proof.
  induction S as [|c S IH]; cbn [bytes_of_string list_ascii_of_string escape_quotes];
    intros H; [constructor|].
  pose proof (Forall_inv H) as Hc. pose proof (Forall_inv_tail H) as Ht.
  specialize (IH Ht). cbv beta in Hc.
  change (ascii_of_N 34) with dquote. change (ascii_of_N 92) with backslash.
  destruct (Ascii.eqb_spec c dquote) as [->|Hn];
    cbn [bytes_of_string list_ascii_of_string].
  - apply qt_escape; [reflexivity | discriminate | exact IH].
  - destruct Hc as [Hc | Hc]; [|contradiction]. apply qt_plain; assumption.
Qed.

Lemma unescape_escape (S : string) :
  Forall (fun c => plain_char c = true \/ c = dquote) (bytes_of_string S) ->
  unescape_quotes (bytes_of_string (escape_quotes S)) = bytes_of_string S.
Proof.
  induction S as [|c S IH]; cbn [bytes_of_string list_ascii_of_string escape_quotes];
    intros H; [reflexivity|].
  pose proof (Forall_inv H) as Hc. pose proof (Forall_inv_tail H) as Ht.
  specialize (IH Ht). cbv beta in Hc.
  change (ascii_of_N 34) with dquote. change (ascii_of_N 92) with backslash.
  destruct (Ascii.eqb_spec c dquote) as [->|Hn];
    cbn [bytes_of_string list_ascii_of_string].
  - cbn [unescape_quotes]. rewrite !Ascii.eqb_refl. cbn [andb].
    unfold bytes_of_string in IH. now rewrite IH.
  - destruct Hc as [Hc | Hc]; [|contradiction].
    destruct (plain_facts c Hc) as (_ & Hb & _).
    unfold bytes_of_string in IH.
    destruct (list_ascii_of_string (escape_quotes S)) as [|e E] eqn:EE.
    + cbn [unescape_quotes] in *. now rewrite <- IH.
    + cbn [unescape_quotes]. rewrite Hb. cbn [andb].
      change (c :: unescape_quotes (e :: E) = c :: list_ascii_of_string S).
      now rewrite IH.
Qed.

(** X24.  What [TXT.String] writes, [Lex] reads back: for a text without
    backslash, line end and byte 0, the quoted string [TXT.String]
    returns, with its quotes escaped, is taken by [Lex] as one quoted
    string whose value is the text. *)
Theorem TXT_String_scans_back (S : string) (l : lex) (lval : yySymType)
    (rest : bytes) :
  In (startCond_ l) declared ->
  Forall (fun c => plain_char c = true \/ c = dquote) (bytes_of_string S) ->
  ahead l = bytes_of_string (quote ++ escape_quotes S ++ quote) ++ rest ->
  TXT_String {| TXT.S := S |} = Ok (quote ++ escape_quotes S ++ quote)%string /\
  exists l',
    Lex l lval = Ok (tQSTR, l', set_str S lval) /\
    peek l' = hd x00 rest /\ src l' = tl rest.
Proof.
  intros Hsc HS Ha. split; [reflexivity|].
  rewrite !bytes_of_append in Ha.
  change (bytes_of_string quote) with [dquote] in Ha. cbn [app] in Ha.
  destruct (Lex_quoted l lval (bytes_of_string (escape_quotes S)) rest Hsc
              (quoted_escape S HS) Ha) as (_ & Hpk & Hs & HL).
  eexists. split; [|split; [exact Hpk | exact Hs]].
  rewrite HL, (unescape_escape S HS). unfold string_of_bytes, bytes_of_string.
  now rewrite string_of_list_ascii_of_string.
Qed.
End QuotedFacts.
End QuotedFacts.

(** ** The scanner: the position kept by getc *)

Module PositionFacts.

Lemma firstn_succ (s : bytes) k :
  firstn (S k) s
  = firstn k s ++ (if Nat.ltb k (length s) then [nth k s x00] else []).
Proof.
  revert k. induction s as [|c s IH]; intros k.
  - now rewrite !firstn_nil.
  - destruct k as [|k].
    + cbn [firstn length nth app Nat.ltb Nat.leb]. reflexivity.
    + change (firstn (S (S k)) (c :: s)) with (c :: firstn (S k) s).
      rewrite IH. reflexivity.
Qed.

Lemma skipn_hd_tl (s : bytes) k :
  hd x00 (skipn k s) = nth k s x00 /\ tl (skipn k s) = skipn (S k) s.
Proof.
  revert k. induction s as [|c s IH]; intros k.
  - rewrite !skipn_nil. now destruct k.
  - destruct k as [|k]; [split; reflexivity|]. cbn [skipn nth]. apply IH.
Qed.

Lemma skipn_nil_iff (s : bytes) k : skipn k s = [] <-> length s <= k.
Proof.
  revert k. induction s as [|c s IH]; intros k.
  - rewrite skipn_nil. cbn [length]. split; [lia | reflexivity].
  - destruct k as [|k]; cbn [skipn length].
    + split; [discriminate | lia].
    + rewrite IH. lia.
Qed.

Lemma getc_position s k l c :
  at_position s k l ->
  at_position s (S k) (fst (getc c l)) /\
  peek (fst (getc c l)) = nth k s x00.
Proof.
  intros (Hs & Hl & Hc).
  destruct (skipn_hd_tl s k) as [Hhd Htl].
  unfold at_position, getc. rewrite firstn_succ.
  unfold line_after, column_after. rewrite !fold_left_app.
  fold (line_after (firstn k s)). fold (column_after (firstn k s)).
  rewrite <- Hl, <- Hc.
  destruct (src l) as [|b rest] eqn:E; cbn [fst src line column peek].
  - symmetry in Hs. pose proof (proj1 (skipn_nil_iff s k) Hs) as Hk.
    destruct (Nat.ltb_spec k (length s)) as [H|_]; [lia|]. cbn [fold_left].
    repeat split.
    + symmetry. apply skipn_nil_iff. lia.
    + symmetry. apply nth_overflow. exact Hk.
  - assert (Hk : k < length s).
    { destruct (Nat.lt_ge_cases k (length s)) as [H|H]; [exact H|].
      apply skipn_nil_iff in H. rewrite H in Hs. discriminate. }
    destruct (Nat.ltb_spec k (length s)) as [_|H]; [|lia].
    rewrite <- Hs in Hhd, Htl. cbn [hd tl] in Hhd, Htl.
    subst b. cbn [fold_left]. repeat split. exact Htl.
Qed.

Lemma getcs_position s cs : forall k l c0,
  at_position s k l ->
  at_position s (S (k + length cs)) (getcs cs (fst (getc c0 l))) /\
  peek (getcs cs (fst (getc c0 l))) = nth (k + length cs) s x00.
Proof.
  induction cs as [|c cs IH]; intros k l c0 H; cbn [getcs length].
  - rewrite Nat.add_0_r. now apply getc_position.
  - destruct (getc_position s k l c0 H) as [H1 _].
    replace (k + S (length cs)) with (S k + length cs) by lia.
    now apply IH.
Qed.

Lemma line_counts (read : bytes) :
  line_after read = (1 + Z.of_nat (count_occ ascii_dec read nl))%Z.
Proof.
  unfold line_after. induction read as [|b read IH] using rev_ind;
    [reflexivity|].
  rewrite fold_left_app, count_occ_app. cbn [fold_left count_occ].
  rewrite IH. unfold byte_eqb, byte in *.
  destruct (Ascii.eqb_spec b nl) as [->|Hb].
  - destruct (ascii_dec nl nl); [cbv iota; lia | contradiction].
  - destruct (ascii_dec b nl); [contradiction | cbv iota; lia].
Qed.

Lemma column_counts (read : bytes) :
  exists pre run,
    read = pre ++ run /\ ~ In nl run /\
    (pre = [] \/ exists p, pre = p ++ [nl]) /\
    column_after read = Z.of_nat (length run).
Proof.
  unfold column_after. induction read as [|b read IH] using rev_ind.
  - exists [], []. repeat split; [intros [] | now left].
  - destruct IH as (pre & run & -> & Hrun & Hpre & Hcol).
    rewrite fold_left_app. cbn [fold_left]. rewrite Hcol. unfold byte_eqb.
    destruct (Ascii.eqb_spec b nl) as [->|Hb].
    + exists ((pre ++ run) ++ [nl]), []. rewrite app_nil_r.
      repeat split; [intros [] | right; now exists (pre ++ run)].
    + exists pre, (run ++ [b]). rewrite app_assoc, length_app.
      cbn [length]. repeat split; [|exact Hpre | lia].
      intros Hin. apply in_app_or in Hin.
      destruct Hin as [Hin | [Hin | []]]; [contradiction | congruence].
Qed.

(** X25.  The position the scanner reports in its errors: after [newLex]
    and any number of calls of [getc], whatever their arguments, the
    character ahead is the last byte read, 0 past the end of the source;
    [line] is one more than the number of newlines among the bytes read,
    and [column] is the number of bytes read after the last of them. *)
Theorem getc_counts_lines (name : string) (s : bytes)
    (eh : option (string -> bool)) (rh : option (RR.t -> bool)) (cs : bytes) :
  let l := getcs cs (newLex name s eh rh) in
  let read := firstn (S (length cs)) s in
  peek l = nth (length cs) s x00 /\
  line l = (1 + Z.of_nat (count_occ ascii_dec read nl))%Z /\
  exists pre run,
    read = pre ++ run /\ ~ In nl run /\
    (pre = [] \/ exists p, pre = p ++ [nl]) /\
    column l = Z.of_nat (length run).
Proof.
  cbv zeta. unfold newLex.
  set (l0 := mkLex rh eh sc_INITIAL [] x00 x00 1 0 name s None false).
  assert (H0 : at_position s 0 l0) by (repeat split).
  destruct (getcs_position s cs 0 l0 x00 H0) as ((_ & Hl & Hc) & Hp).
  cbn [Nat.add] in Hl, Hc, Hp.
  split; [exact Hp|]. split; [now rewrite Hl, line_counts|].
  rewrite Hc. apply column_counts.
Qed.
End PositionFacts.

(** ** The scanner and the mnemonics of package rr *)

Module MnemonicFacts.
Section MnemonicFacts.
Context {NP : NetParse}.

Ltac scan_text :=
  lazymatch goal with
  | |- context [Lex ?a ?b] =>
      let v := eval vm_compute in (Lex a b) in
      let E := fresh "E" in
      assert (E : Lex a b = v) by (vm_cast_no_check (eq_refl v));
      rewrite E; clear E
  end.

Ltac one_mnemonic Hsc Ha :=
  cbn [bytes_of_string list_ascii_of_string app] in Ha;
  injection Ha as -> ->;
  destruct Hsc as [-> | ->];
  cbn [existsb String.eqb Ascii.eqb Bool.eqb type_mnemonics orb];
  scan_text;
  first [ eexists; split; reflexivity
        | split; [cbn [In]; tauto | eexists; eexists; reflexivity] ].

(** X26.  The type mnemonics [Type.String] writes and the scanner: in the
    start conditions of the record head and of types, the mnemonic of a
    type, followed by a blank as [RR.String] writes it, is taken by [Lex]
    as the token of that type, for 16 of the 25 mnemonics of [typeStr];
    the scanner has no rule for the 9 others, MB, MD, MF, MG, MINFO, MR,
    NULL, NODATA and NXDOMAIN, on which [Lex] returns
    [unicode.ReplacementChar] after their first letter. *)
Theorem type_text_scans_back (l : lex) (lval : yySymType) (t : RRType)
    (m : string) (rest : bytes) :
  startCond_ l = sc_RRHEAD \/ startCond_ l = sc_TYPE ->
  In (t, m) typeStr ->
  ahead l = bytes_of_string m ++ " "%char :: rest ->
  if existsb (String.eqb m) type_mnemonics
  then exists l',
         Lex l lval = Ok (tTYPE m, l', set_str m lval) /\
         ahead l' = " "%char :: rest
  else In m [ "MB"; "MD"; "MF"; "MG"; "MINFO"; "MR"; "NULL"; "NODATA";
              "NXDOMAIN" ]%string /\
       exists l' lval', Lex l lval = Ok (ReplacementChar, l', lval').
Proof.
  intros Hsc Hin Ha. destruct l as [rh eh sc bf la pk ln col nm sr pv ip].
  cbn [startCond_] in Hsc. unfold ahead in Ha. cbn [peek src] in Ha.
  unfold typeStr in Hin. cbn [In] in Hin.
  repeat (destruct Hin as [Hin | Hin];
          [injection Hin as <- <-; one_mnemonic Hsc Ha |]).
  destruct Hin.
Qed.
End MnemonicFacts.
End MnemonicFacts.

(** ** The scanner: every call of [Lex] returns *)

Module RoundFacts.
Section RoundFacts.
Context {NP : NetParse}.

Lemma dead_alt a b : dead (alt a b) = (dead a && dead b)%bool.
Proof.
  destruct a, b; cbn [alt dead andb]; rewrite ?andb_true_r, ?andb_false_r;
    reflexivity.
Qed.

Lemma dead_cat a b : dead (cat a b) = (dead a || dead b)%bool.
Proof.
  destruct a, b; cbn [cat dead orb]; rewrite ?orb_true_r, ?orb_false_r;
    reflexivity.
Qed.

Lemma nul_free_alt a b :
  nul_free a = true -> nul_free b = true -> nul_free (alt a b) = true.
Proof.
  intros Ha Hb. destruct a, b; cbn [alt nul_free] in *;
    try assumption; try reflexivity; rewrite ?Ha, ?Hb; reflexivity.
Qed.

Lemma nul_free_cat a b :
  nul_free a = true -> nul_free b = true -> nul_free (cat a b) = true.
Proof.
  intros Ha Hb. destruct a, b; cbn [cat nul_free] in *;
    try assumption; try reflexivity; rewrite ?Ha, ?Hb; reflexivity.
Qed.

Lemma nul_free_der c r : nul_free r = true -> nul_free (der c r) = true.
Proof.
  induction r as [| |p|a IHa b IHb|a IHa b IHb|a IHa]; cbn [der nul_free];
    intros H; try reflexivity.
  - now destruct (p c).
  - apply andb_true_iff in H. destruct H. now apply nul_free_alt; auto.
  - apply andb_true_iff in H. destruct H as [Ha Hb]. apply nul_free_alt.
    + apply nul_free_cat; auto.
    + destruct (nullable a); auto.
  - apply nul_free_cat; auto.
Qed.

(** No pattern goes on with the byte 0. *)
Lemma dead_der_nul r : nul_free r = true -> dead (der x00 r) = true.
Proof.
  induction r as [| |p|a IHa b IHb|a IHa b IHb|a IHa]; cbn [der nul_free];
    intros H; try reflexivity.
  - apply negb_true_iff in H. now rewrite H.
  - apply andb_true_iff in H. destruct H. rewrite dead_alt, IHa, IHb; auto.
  - apply andb_true_iff in H. destruct H as [Ha Hb].
    rewrite dead_alt, dead_cat, IHa by exact Ha. cbn [orb andb].
    destruct (nullable a); [now apply IHb | reflexivity].
  - rewrite dead_cat, IHa by exact H. reflexivity.
Qed.

(** The patterns of the rules: none matches the empty text, none holds the
    byte 0. *)
Lemma rules_patterns :
  forallb (fun r => nul_free (pat r) && negb (nullable (pat r)))%bool rules = true.
Proof. vm_compute. reflexivity. Qed.

Ltac tame_action :=
  let l := fresh "l" in let lval := fresh "lval" in
  intros l lval;
  cbv [act mk act_skip act_ret act_newline act_lparen act_rparen act_qstr
       act_number act_class act_ip act_hex act_hex_none Error obind];
  repeat match goal with
         | |- context [if ?b then _ else _] => destruct b
         | |- context [match ?x with Some _ => _ | None => _ end] => destruct x
         end;
  cbn [src startCond_ set_inParen]; auto.

Lemma tame_rules : Forall (fun r => tame (act r)) rules.
Proof.
  unfold rules. apply Forall_app. split; [|apply Forall_app; split].
  - repeat constructor; tame_action.
  - apply Forall_forall. intros r Hr. apply in_map_iff in Hr.
    destruct Hr as (m & <- & _). tame_action.
  - repeat constructor; tame_action.
Qed.

Lemma reachable_start l : reachable (yystart l).
Proof.
  unfold reachable, yystart. apply Forall_forall. intros x Hx.
  apply in_map_iff in Hx. destruct Hx as (r & <- & Hr).
  apply filter_In in Hr. destruct Hr as [Hr _]. cbn [fst snd].
  split; [exact Hr|].
  pose proof rules_patterns as H. rewrite forallb_forall in H.
  specialize (H r Hr). apply andb_true_iff in H. tauto.
Qed.

Lemma reachable_next c st : reachable st -> reachable (yynext c st).
Proof.
  unfold reachable, yynext. rewrite !Forall_forall. intros H x Hx.
  apply filter_In in Hx. destruct Hx as [Hx _].
  apply in_map_iff in Hx. destruct Hx as (y & <- & Hy). cbn [fst snd].
  destruct (H y Hy) as [H1 H2]. split; [exact H1 | now apply nul_free_der].
Qed.

(** On the byte 0 the DFA has no move. *)
Lemma next_nul st : reachable st -> yynext x00 st = [].
Proof.
  unfold reachable, yynext. induction st as [|x st IH]; intros H; [reflexivity|].
  cbn [map filter fst snd].
  rewrite (dead_der_nul (snd x)) by (apply (Forall_inv H)).
  cbn [negb]. apply IH, (Forall_inv_tail H).
Qed.

(** No rule accepts in the start state. *)
Lemma accept_start c l : yyaccept c (yystart l) = None.
Proof.
  unfold yyaccept.
  destruct (find _ (yystart l)) as [x|] eqn:E; [|reflexivity].
  apply find_some in E. destruct E as [Hin Hx].
  unfold yystart in Hin. apply in_map_iff in Hin.
  destruct Hin as (r & <- & Hr). apply filter_In in Hr. destruct Hr as [Hr _].
  cbn [fst snd] in Hx.
  pose proof rules_patterns as H. rewrite forallb_forall in H.
  specialize (H r Hr). apply andb_true_iff in H. destruct H as [_ H].
  apply negb_true_iff in H. rewrite H in Hx. discriminate Hx.
Qed.

Lemma accept_rule c st r : reachable st -> yyaccept c st = Some r -> In r rules.
Proof.
  unfold yyaccept, reachable. intros H E.
  destruct (find _ st) as [x|] eqn:F; [|discriminate E].
  injection E as <-. apply find_some in F. destruct F as [Hin _].
  rewrite Forall_forall in H. apply (H x Hin).
Qed.

Lemma pending_getc c l :
  c <> x00 -> pending (fst (getc c l)) (snd (getc c l)) < pending l c.
Proof.
  intros H.
  assert (E : byte_eqb c x00 = false) by (apply Ascii.eqb_neq; exact H).
  unfold pending. rewrite E. unfold getc.
  destruct (src l) as [|b rest]; cbn [fst snd src length].
  - cbn. lia.
  - destruct (byte_eqb b x00); lia.
Qed.

(** A walk takes characters: what is pending does not grow, and it
    shrinks when the walk has moved. *)
Lemma walk_pending : forall moves st l c l' c' r,
  reachable st -> yywalk moves st l c = (l', c', r) ->
  startCond_ l' = startCond_ l /\
  match r with Some x => In x rules | None => True end /\
  pending l' c' <= pending l c /\
  (r <> None -> r = yyaccept c st \/ pending l' c' < pending l c).
Proof.
  induction moves as [|moves IH]; intros st l c l' c' r Hst E;
    cbn [yywalk] in E; fold (yynext c st) in E;
    destruct (yynext c st) as [|y next] eqn:En.
  - injection E as <- <- <-. split; [reflexivity|]. split.
    + destruct (yyaccept c st) eqn:Ea; [now apply (accept_rule c st)|exact I].
    + split; [lia | now left].
  - injection E as <- <- <-. repeat split; [lia | congruence].
  - injection E as <- <- <-. split; [reflexivity|]. split.
    + destruct (yyaccept c st) eqn:Ea; [now apply (accept_rule c st)|exact I].
    + split; [lia | now left].
  - assert (Hc : c <> x00).
    { intros ->. rewrite next_nul in En by exact Hst. discriminate En. }
    pose proof (pending_getc c l Hc) as Hp.
    pose proof (TokenFacts.getc_kept c l) as (Hk & _).
    destruct (getc c l) as [l1 c1]. cbn [fst snd] in Hp, Hk.
    assert (Hn : reachable (y :: next)) by (rewrite <- En; now apply reachable_next).
    destruct (IH (y :: next) l1 c1 l' c' r Hn E) as (H1 & H2 & H3 & _).
    split; [congruence|]. split; [exact H2|]. split; [lia|].
    intros _. right. lia.
Qed.

Lemma declared_start l :
  In (startCond_ l) declared ->
  existsb (startCond_eqb (startCond_ l)) declared = true.
Proof.
  intros H. apply existsb_exists. exists (startCond_ l). split; [exact H|].
  now destruct (startCond_ l).
Qed.

(** A round returns, or leaves a token to return, or has taken a
    character; it keeps the start condition. *)
Lemma round_cases l c lval :
  In (startCond_ l) declared ->
  match yyround l c None lval with
  | Ok (l', c', _, f) =>
      startCond_ l' = startCond_ l /\
      (f = Continue None -> pending l' c' < pending l c)
  | Panic _ => True
  | Fatal _ => False
  end.
Proof.
  intros Hsc. unfold yyround.
  change (startCond_ (set_buf [] l)) with (startCond_ l).
  rewrite (declared_start l Hsc).
  destruct (yywalk _ (yystart (set_buf [] l)) (set_buf [] l) c) as [[l1 c1] r] eqn:E.
  destruct (walk_pending _ _ _ _ _ _ _ (reachable_start _) E) as (H1 & H2 & H3 & H4).
  change (startCond_ (set_buf [] l)) with (startCond_ l) in H1.
  change (pending (set_buf [] l) c) with (pending l c) in H3, H4.
  destruct r as [r|].
  - pose proof tame_rules as Ht. rewrite Forall_forall in Ht.
    specialize (Ht r H2 l1 lval).
    destruct (act r l1 lval) as [[[l2 lval2] f]|m|m]; cbn [obind];
      [|exact I|exact Ht].
    destruct Ht as [Hs Hk]. split; [congruence|]. intros _.
    destruct H4 as [H4|H4]; [discriminate| |].
    + rewrite accept_start in H4. discriminate H4.
    + unfold pending in *. rewrite Hs. exact H4.
  - destruct (Nat.eqb (length (buf l1)) 0).
    + split; [|discriminate].
      destruct (TokenFacts.getc_kept x00 l1) as (-> & _). exact H1.
    + split; [exact H1 | discriminate].
Qed.

(** The rounds [Lex] allows are enough, and more rounds change nothing. *)
Lemma loop_returns : forall rounds l c ret lval,
  In (startCond_ l) declared ->
  match ret with Some _ => 1 | None => pending l c + 2 end <= rounds ->
  (forall more, yyloop (rounds + more) l c ret lval = yyloop rounds l c ret lval) /\
  match yyloop rounds l c ret lval with
  | Ok (_, l', _) => startCond_ l' = startCond_ l
  | Panic _ => True
  | Fatal _ => False
  end.
Proof.
  induction rounds as [|rounds IH]; intros l c ret lval Hsc Hb.
  - destruct ret; lia.
  - cbn [Nat.add yyloop]. destruct ret as [t|].
    + cbn [yyround obind]. split; [reflexivity|reflexivity].
    + pose proof (round_cases l c lval Hsc) as Hr.
      destruct (yyround l c None lval) as [[[[l2 c2] lval2] f]|m|m]; cbn [obind];
        [|split; [reflexivity|exact I]|destruct Hr].
      destruct Hr as [Hk Hp]. destruct f as [ret'|t]; [|split; [reflexivity|exact Hk]].
      destruct (IH l2 c2 ret' lval2) as [H1 H2].
      * now rewrite Hk.
      * destruct ret' as [t|]; [lia|]. specialize (Hp eq_refl). lia.
      * split; [exact H1|].
        destruct (yyloop rounds l2 c2 ret' lval2) as [[[t l3] lval3]|m|m];
          [congruence | exact I | exact H2].
Qed.

(** [Lex] with the rounds of any bound that is large enough. *)
Lemma Lex_rounds l lval rounds :
  In (startCond_ l) declared -> pending l (peek l) + 2 <= rounds ->
  yyloop rounds l (peek l) None lval = Lex l lval.
Proof.
  intros Hsc Hb. unfold Lex.
  destruct (loop_returns (pending l (peek l) + 2) l (peek l) None lval Hsc)
    as [H _]; [lia|].
  replace rounds with (pending l (peek l) + 2 + (rounds - (pending l (peek l) + 2)))
    by lia.
  rewrite H.
  replace (S (S (S (length (src l)))))
    with (pending l (peek l) + 2
          + (S (S (S (length (src l)))) - (pending l (peek l) + 2))).
  - now rewrite H.
  - unfold pending. destruct (byte_eqb (peek l) x00); lia.
Qed.

(** X27.  [Lex] returns on every input, in every start condition: the
    scan ends with a token or with a panic of an action, it does not go
    round for ever; and [Lex] leaves the start condition as it is. *)
Theorem Lex_returns (l : lex) (lval : yySymType) :
  In (startCond_ l) declared ->
  (exists tok l' lval',
      Lex l lval = Ok (tok, l', lval') /\ startCond_ l' = startCond_ l) \/
  (exists msg, Lex l lval = Panic msg).
Proof.
  intros Hsc.
  destruct (loop_returns (S (S (S (length (src l))))) l (peek l) None lval Hsc)
    as [_ H].
  - unfold pending. destruct (byte_eqb (peek l) x00); lia.
  - fold (Lex l lval) in H.
    destruct (Lex l lval) as [[[t l'] lval']|m|m].
    + left. now exists t, l', lval'.
    + right. now exists m.
    + destruct H.
Qed.
End RoundFacts.
End RoundFacts.

(** ** The scanner: blanks and comments *)

Module SkipFacts.
Section SkipFacts.
Context {NP : NetParse}.

Ltac each_byte c H :=
  destruct c as [[] [] [] [] [] [] [] []]; try discriminate H.

(** The first move of the DFA: its mask is computed, and the rules it
    picks are read off [rules]. *)
Ltac first_step :=
  rewrite TokenFacts.yynext_start; unfold active;
  match goal with
  | |- context [yyb ?x] => generalize (yyb x); intros [|]
  end;
  match goal with
  | |- context [sel ?m rules] =>
      let v := eval vm_compute in m in
      replace m with v by (vm_compute; reflexivity)
  end;
  unfold rules; cbn [sel app map type_mnemonics pat mk].

Ltac alia := unfold byte in *; lia.

Ltac each_state H :=
  unfold declared in H; cbn [In] in H;
  destruct H as [<-|[<-|[<-|[<-|[<-|[<-|[<-|[<-|[<-|[<-|[]]]]]]]]]]].

Lemma der_star_in (p : ascii -> bool) c :
  p c = true -> der c (Star (Cls p)) = Star (Cls p).
Proof. intros H. cbn [der]. now rewrite H. Qed.

Lemma der_star_out (p : ascii -> bool) c :
  p c = false -> der c (Star (Cls p)) = Void.
Proof. intros H. cbn [der]. now rewrite H. Qed.

Lemma blank_facts c :
  is_blank c = true -> c <> x00 /\ Ascii.eqb ";" c = false.
Proof.
  intros H. each_byte c H; (split; [discriminate | reflexivity]).
Qed.

Lemma der_comment_blank c : is_blank c = true -> der c comment = comment.
Proof.
  intros H. destruct (blank_facts c H) as [_ Hs].
  unfold comment, chr. cbn [der nullable]. rewrite H, Hs. reflexivity.
Qed.

Lemma der_comment_out c :
  is_blank c = false -> c <> ";"%char -> der c comment = Void.
Proof.
  intros H Hs. unfold comment, chr. cbn [der nullable]. rewrite H.
  destruct (Ascii.eqb_spec ";" c) as [E|_]; [congruence | reflexivity].
Qed.

Lemma der_comment_semicolon : der ";" comment = Star (Cls any_char).
Proof. reflexivity. Qed.

Lemma first_blank l d :
  In (startCond_ l) declared -> is_blank d = true ->
  yynext d (yystart l) = in_blanks (at_bol l).
Proof.
  destruct l as [rh eh sc bf la pk ln col nm sr pv ip].
  unfold at_bol. cbn [startCond_]. intros Hsc Hd.
  each_byte d Hd; each_state Hsc; first_step;
    unfold blanks; rewrite ?(TokenFacts.der_plus is_blank _ Hd),
      ?(der_comment_blank _ Hd); reflexivity.
Qed.

Lemma first_semicolon l :
  In (startCond_ l) declared ->
  yynext ";"%char (yystart l) = [(rule_comment, Star (Cls any_char))].
Proof.
  destruct l as [rh eh sc bf la pk ln col nm sr pv ip].
  cbn [startCond_]. intros Hsc.
  each_state Hsc; first_step; reflexivity.
Qed.

Lemma blanks_stable bol c :
  is_blank c = true -> yynext c (in_blanks bol) = in_blanks bol.
Proof.
  intros H. unfold yynext, in_blanks. destruct bol; cbn [map fst snd];
    rewrite ?(der_star_in is_blank c H), ?(der_comment_blank c H); reflexivity.
Qed.

Lemma blanks_stop bol c :
  is_blank c = false -> c <> ";"%char -> yynext c (in_blanks bol) = [].
Proof.
  intros H Hs. unfold yynext, in_blanks. destruct bol; cbn [map fst snd];
    rewrite ?(der_star_out is_blank c H), ?(der_comment_out c H Hs); reflexivity.
Qed.

Lemma blanks_semicolon bol :
  yynext ";"%char (in_blanks bol) = [(rule_comment, Star (Cls any_char))].
Proof. destruct bol; reflexivity. Qed.

Lemma blanks_accept bol c :
  yyaccept c (in_blanks bol)
  = Some (if bol
          then if (byte_eqb c nl || byte_eqb c x00)%bool
               then rule_bol_blanks_eol else rule_blank_start
          else if (byte_eqb c nl || byte_eqb c x00)%bool
               then rule_blanks_eol else rule_blanks).
Proof.
  unfold yyaccept, in_blanks.
  destruct bol; cbn [find fst snd nullable eol mk rule_bol_blanks_eol
                     rule_blanks_eol rule_comment rule_blank_start rule_blanks
                     comment chr andb orb negb];
    destruct (byte_eqb c nl), (byte_eqb c x00); reflexivity.
Qed.

Lemma in_blanks_cons bol : in_blanks bol <> [].
Proof. destruct bol; discriminate. Qed.

Lemma advance_add n : forall m l, advance (n + m) l = advance m (advance n l).
Proof.
  induction n as [|n IH]; intros m l; cbn [Nat.add advance]; [reflexivity|].
  apply IH.
Qed.

(** The walk through characters that leave the state of the DFA as it
    is. *)
Lemma walk_stable st (p : ascii -> bool) :
  st <> [] -> (forall c, p c = true -> yynext c st = st) ->
  forall n l moves,
    n <= moves ->
    (forall i, i < n -> p (peek (advance i l)) = true) ->
    yywalk moves st l (peek l)
    = yywalk (moves - n) st (advance n l) (peek (advance n l)).
Proof.
  intros Hst Hp. induction n as [|n IH]; intros l moves Hm Hin.
  - cbn [advance]. now rewrite Nat.sub_0_r.
  - destruct moves as [|moves]; [lia|].
    assert (H0 : p (peek l) = true) by (apply (Hin 0); lia).
    rewrite TokenFacts.yywalk_step by (now rewrite (Hp _ H0)).
    rewrite (Hp _ H0). cbn [advance Nat.sub]. apply IH; [lia|].
    intros i Hi. apply (Hin (S i)). lia.
Qed.

Lemma nonzero_blank c : is_blank c = true -> c <> x00.
Proof. intros H. apply (blank_facts c H). Qed.

Lemma nonzero_any c : any_char c = true -> c <> x00.
Proof. intros H ->. discriminate H. Qed.

(** A round on a run of blanks that no comment follows. *)
Lemma round_blanks l lval d ds rest :
  In (startCond_ l) declared ->
  Forall (fun c => is_blank c = true) (d :: ds) ->
  is_blank (hd x00 rest) = false -> hd x00 rest <> ";"%char ->
  ahead l = (d :: ds) ++ rest ->
  let l' := advance (length (d :: ds)) (set_buf [] l) in
  buf l' = d :: ds /\ peek l' = hd x00 rest /\ src l' = tl rest /\
  yyround l (peek l) None lval
  = Ok (l', peek l', lval,
        Continue (if (at_bol l && negb (byte_eqb (hd x00 rest) nl)
                      && negb (byte_eqb (hd x00 rest) x00))%bool
                  then Some tBLANK_START else None)).
Proof.
  intros Hsc Hp Hout Hsemi Ha l'. subst l'.
  assert (Ha0 : ahead (set_buf [] l) = (d :: ds) ++ rest) by exact Ha.
  assert (Hz : Forall (fun c => c <> x00) (d :: ds)).
  { eapply Forall_impl; [|exact Hp]. intros c Hc. now apply nonzero_blank. }
  destruct (TokenFacts.advance_over d ds (set_buf [] l) rest Ha0 Hz)
    as (Hb & Hpk & Hs).
  cbn [buf set_buf app] in Hb.
  split; [exact Hb|]. split; [exact Hpk|]. split; [exact Hs|].
  assert (Hd : peek l = d) by (unfold ahead in Ha; now injection Ha).
  assert (Hlen : length (src l) = length ds + length rest).
  { unfold ahead in Ha. injection Ha as _ ->. apply length_app. }
  assert (Hbd : is_blank d = true) by apply (Forall_inv Hp).
  unfold yyround.
  change (startCond_ (set_buf [] l)) with (startCond_ l).
  rewrite (RoundFacts.declared_start l Hsc), Hd.
  assert (Hfirst : yynext d (yystart (set_buf [] l)) = in_blanks (at_bol l))
    by exact (first_blank (set_buf [] l) d Hsc Hbd).
  rewrite TokenFacts.yywalk_step
    by (rewrite Hfirst; apply in_blanks_cons).
  rewrite Hfirst.
  assert (E1 : fst (getc d (set_buf [] l)) = advance 1 (set_buf [] l))
    by (cbn [advance]; now rewrite <- Hd).
  rewrite E1.
  rewrite (walk_stable (in_blanks (at_bol l)) is_blank (in_blanks_cons _)
             (blanks_stable _) (length ds)).
  - match type of Hpk with peek ?X = _ =>
      change (advance (length ds) (advance 1 (set_buf [] l))) with X
    end.
    rewrite TokenFacts.yywalk_stop by (rewrite Hpk; now apply blanks_stop).
    rewrite blanks_accept. unfold byte in *. rewrite !Hpk.
    destruct (at_bol l);
      match goal with
      | |- context [byte_eqb ?c nl] =>
          destruct (byte_eqb c nl), (byte_eqb c x00)
      end; reflexivity.
  - cbn [src set_buf]. unfold byte in *. lia.
  - intros i Hi. change (advance i (advance 1 (set_buf [] l)))
      with (advance (S i) (set_buf [] l)).
    apply (TokenFacts.in_run is_blank (d :: ds) rest);
      [exact Ha0 | exact Hp | cbn [length]; unfold byte in *; lia].
Qed.

(** A round on a comment and the blanks before it. *)
Lemma round_comment l lval bl text rest :
  In (startCond_ l) declared ->
  Forall (fun c => is_blank c = true) bl ->
  Forall (fun c => any_char c = true) text ->
  any_char (hd x00 rest) = false ->
  ahead l = (bl ++ ";"%char :: text) ++ rest ->
  let l' := advance (length (bl ++ ";"%char :: text)) (set_buf [] l) in
  buf l' = bl ++ ";"%char :: text /\ peek l' = hd x00 rest /\ src l' = tl rest /\
  yyround l (peek l) None lval = Ok (l', peek l', lval, Continue None).
Proof.
  intros Hsc Hbl Htx Hout Ha l'. subst l'.
  assert (Hany : Forall (fun c => any_char c = true) (";"%char :: text))
    by (constructor; [reflexivity | exact Htx]).
  destruct bl as [|b bs].
  - cbn [app] in *.
    destruct (TokenFacts.round_run rule_comment any_char l lval ";"%char text rest)
      as (Hb & Hpk & Hs & Hr); try assumption; try reflexivity.
    + now apply first_semicolon.
    + split; [exact Hb|]. split; [exact Hpk|]. split; [exact Hs|].
      rewrite Hr. unfold byte in *. rewrite <- Hpk. reflexivity.
  - assert (Ha0 : ahead (set_buf [] l)
                  = (b :: bs ++ ";"%char :: text) ++ rest) by exact Ha.
    assert (Hz : Forall (fun c => c <> x00) (b :: bs ++ ";"%char :: text)).
    { change (b :: bs ++ ";"%char :: text) with ((b :: bs) ++ ";"%char :: text).
      apply Forall_app. split.
      - eapply Forall_impl; [|exact Hbl]. intros c Hc. now apply nonzero_blank.
      - eapply Forall_impl; [|exact Hany]. intros c Hc. now apply nonzero_any. }
    destruct (TokenFacts.advance_over b (bs ++ ";"%char :: text) (set_buf [] l)
                rest Ha0 Hz) as (Hb & Hpk & Hs).
    cbn [buf set_buf app] in Hb.
    split; [exact Hb|]. split; [exact Hpk|]. split; [exact Hs|].
    assert (Hd : peek l = b) by (unfold ahead in Ha; now injection Ha).
    assert (Hlen : length (src l) = length bs + S (length text) + length rest).
    { unfold ahead in Ha. injection Ha as _ ->.
      rewrite !length_app. cbn [length]. alia. }
    assert (Hbb : is_blank b = true) by apply (Forall_inv Hbl).
    assert (Hpeek : forall i, peek (advance i (set_buf [] l))
                              = nth i ((b :: bs ++ ";"%char :: text) ++ rest) x00).
    { intros i. rewrite TokenFacts.peek_advance, Ha0. reflexivity. }
    unfold yyround.
    change (startCond_ (set_buf [] l)) with (startCond_ l).
    rewrite (RoundFacts.declared_start l Hsc), Hd.
    assert (Hfirst : yynext b (yystart (set_buf [] l)) = in_blanks (at_bol l))
      by exact (first_blank (set_buf [] l) b Hsc Hbb).
    rewrite TokenFacts.yywalk_step by (rewrite Hfirst; apply in_blanks_cons).
    rewrite Hfirst.
    assert (E1 : fst (getc b (set_buf [] l)) = advance 1 (set_buf [] l))
      by (cbn [advance]; now rewrite <- Hd).
    rewrite E1.
    rewrite (walk_stable (in_blanks (at_bol l)) is_blank (in_blanks_cons _)
               (blanks_stable _) (length bs)).
    + rewrite <- advance_add.
      assert (Hsemi : peek (advance (1 + length bs) (set_buf [] l)) = ";"%char).
      { rewrite Hpeek. cbn [Nat.add nth app].
        rewrite <- app_assoc, app_nth2, Nat.sub_diag by alia. reflexivity. }
      rewrite Hsemi.
      match goal with
      | |- context [yywalk ?m (in_blanks _)] =>
          replace m with (S (length text + length rest))
            by (cbn [src set_buf]; alia)
      end.
      rewrite TokenFacts.yywalk_step
        by (rewrite blanks_semicolon; discriminate).
      rewrite blanks_semicolon.
      assert (E2 : fst (getc ";"%char (advance (1 + length bs) (set_buf [] l)))
                   = advance (1 + length bs + 1) (set_buf [] l)).
      { rewrite (advance_add (1 + length bs) 1). cbn [advance].
        now rewrite Hsemi. }
      rewrite E2.
      rewrite (TokenFacts.walk_run rule_comment any_char eq_refl (length text)).
      * rewrite <- advance_add.
        replace (1 + length bs + 1 + length text)
          with (length (b :: bs ++ ";"%char :: text))
          by (cbn [length]; rewrite length_app; cbn [length]; alia).
        reflexivity.
      * alia.
      * intros i Hi. rewrite <- advance_add, Hpeek.
        replace (1 + length bs + 1 + i)
          with (length (b :: bs ++ [";"%char]) + i)
          by (cbn [length]; rewrite length_app; cbn [length]; alia).
        replace ((b :: bs ++ ";"%char :: text) ++ rest)
          with ((b :: bs ++ [";"%char]) ++ (text ++ rest))
          by (cbn [app]; rewrite <- !app_assoc; reflexivity).
        rewrite app_nth2_plus, app_nth1 by exact Hi.
        rewrite Forall_forall in Htx. apply Htx, nth_In, Hi.
      * rewrite <- advance_add, Hpeek.
        replace (1 + length bs + 1 + length text)
          with (length (b :: bs ++ ";"%char :: text) + 0)
          by (cbn [length]; rewrite length_app; cbn [length]; alia).
        rewrite app_nth2_plus. now destruct rest.
    + cbn [src set_buf]. unfold byte in *. alia.
    + intros i Hi. rewrite <- advance_add, Hpeek.
      cbn [Nat.add nth app]. rewrite app_nth1 by (rewrite length_app; alia).
      rewrite app_nth1 by exact Hi.
      rewrite Forall_forall in Hbl. apply Hbl. right. apply nth_In, Hi.
Qed.

(** After a round that has no token [Lex] returns what it returns on the
    state the round has left. *)
Lemma Lex_skips l lval l' :
  In (startCond_ l) declared ->
  yyround l (peek l) None lval = Ok (l', peek l', lval, Continue None) ->
  Lex l lval = Lex l' lval.
Proof.
  intros Hsc H. rewrite (LexFacts.Lex_next_round _ _ _ _ _ H).
  pose proof (RoundFacts.round_cases l (peek l) lval Hsc) as Hc.
  rewrite H in Hc. destruct Hc as [Hk Hp]. specialize (Hp eq_refl).
  apply RoundFacts.Lex_rounds; [now rewrite Hk|].
  unfold pending in *. destruct (byte_eqb (peek l) x00); lia.
Qed.

(** X28.  Blanks that no comment follows give no token: [Lex] takes them
    and returns what it returns on what follows them, in every start
    condition.  The beginning of a line in the initial start condition is
    apart: there blanks followed by a text, not by a newline or the end of
    the input, are the token [tBLANK_START], the start of a record without
    an owner name. *)
Theorem blanks_rule (l : lex) (lval : yySymType) (d : byte) (ds rest : bytes) :
  In (startCond_ l) declared ->
  Forall (fun c => is_blank c = true) (d :: ds) ->
  is_blank (hd x00 rest) = false -> hd x00 rest <> ";"%char ->
  ahead l = (d :: ds) ++ rest ->
  let l' := advance (length (d :: ds)) (set_buf [] l) in
  peek l' = hd x00 rest /\ src l' = tl rest /\
  Lex l lval
  = if (at_bol l && negb (byte_eqb (hd x00 rest) nl)
        && negb (byte_eqb (hd x00 rest) x00))%bool
    then Ok (tBLANK_START, l', set_str (string_of_bytes (d :: ds)) lval)
    else Lex l' lval.
Proof.
  intros Hsc Hp Hout Hsemi Ha l'.
  destruct (round_blanks l lval d ds rest Hsc Hp Hout Hsemi Ha)
    as (Hb & Hpk & Hs & Hr).
  subst l'.
  split; [exact Hpk|]. split; [exact Hs|].
  destruct (at_bol l && negb (byte_eqb (hd x00 rest) nl)
            && negb (byte_eqb (hd x00 rest) x00))%bool.
  - rewrite (LexFacts.Lex_of_round _ _ _ _ _ _ Hr), Hb. reflexivity.
  - now apply Lex_skips.
Qed.

(** X29.  A comment gives no token: from the blanks before its semicolon
    to the end of the line, [Lex] takes it and returns what it returns
    at the line end, or at the end of the input, that follows, in every
    start condition and at the beginning of a line as elsewhere. *)
Theorem comment_rule (l : lex) (lval : yySymType) (bl text rest : bytes) :
  In (startCond_ l) declared ->
  Forall (fun c => is_blank c = true) bl ->
  Forall (fun c => any_char c = true) text ->
  any_char (hd x00 rest) = false ->
  ahead l = (bl ++ ";"%char :: text) ++ rest ->
  let l' := advance (length (bl ++ ";"%char :: text)) (set_buf [] l) in
  peek l' = hd x00 rest /\ src l' = tl rest /\
  startCond_ l' = startCond_ l /\ inParen l' = inParen l /\
  Lex l lval = Lex l' lval.
Proof.
  intros Hsc Hbl Htx Hout Ha l'.
  destruct (round_comment l lval bl text rest Hsc Hbl Htx Hout Ha)
    as (Hb & Hpk & Hs & Hr).
  subst l'.
  destruct (TokenFacts.advance_kept (length (bl ++ ";"%char :: text))
              (set_buf [] l)) as (Hk1 & Hk2 & _).
  split; [exact Hpk|]. split; [exact Hs|].
  split; [exact Hk1|]. split; [exact Hk2|].
  now apply Lex_skips.
Qed.

(** X30.  A record goes on over the lines inside parentheses: with the
    flag of the parentheses set, a line end is no token and [Lex] returns
    what it returns after it; an opening parenthesis, with the flag
    clear, sets the flag and is no token either. *)
Theorem continuation_lines (l : lex) (lval : yySymType) :
  In (startCond_ l) declared ->
  (inParen l = true -> peek l = nl \/ peek l = cr ->
   Lex l lval = Lex (took l) lval /\ inParen (took l) = true) /\
  (inParen l = false -> peek l = "("%char ->
   Lex l lval = Lex (set_inParen true (took l)) lval).
Proof.
  intros Hsc. split.
  - intros Hin Hp. split.
    + apply Lex_skips; [exact Hsc|].
      rewrite (LexFacts.round_newline l lval Hsc Hp), Hin. reflexivity.
    + unfold took. destruct (TokenFacts.getc_kept (peek l) (set_buf [] l))
        as (_ & -> & _). exact Hin.
  - intros Hin Hp. apply Lex_skips; [exact Hsc|].
    rewrite (LexFacts.round_lparen l lval Hsc Hp), Hin. reflexivity.
Qed.
End SkipFacts.
End SkipFacts.

(** ** The scanner: records over several lines, and the errors *)

Module ParenFacts.
Section ParenFacts.
Context {NP : NetParse}.


End ParenFacts.
End ParenFacts.

Module ErrorFacts.
Section ErrorFacts.
Context {NP : NetParse}.












End ErrorFacts.
End ErrorFacts.

(** * Closed examples

    The theorems above at concrete inputs, over the plain name codec. *)

Lemma legal_mail : PlainName.legal "mail.example.".
Proof.
  exists ["mail"%string; "example"%string]. split; [|reflexivity].
  repeat constructor; try discriminate; simpl; lia.
Defined.

Lemma legal_root : PlainName.legal ".".
Proof. exists []. split; [constructor | reflexivity]. Defined.

Lemma RData_roundtrip_witness :
  legal_rdata PlainName.legal rr_mx /\
  exists w', RR.RData_Encode rr_mx newWirebuf = Ok w' /\
    RR.RData_Decode (Buf w') (zero_like rr_mx) (length (Buf newWirebuf))
    = Ok (decoded_form rr_mx, length (Buf w'), None) /\
    decoded_form rr_mx = rr_mx.
Proof.
  split.
  - split; [reflexivity | exact legal_mail].
  - apply (Roundtrip.RData_roundtrip PlainName.legal PlainNameFacts.plain_laws
             rr_mx newWirebuf).
    split; [reflexivity | exact legal_mail].
Defined.

(** Two values within the limits of their wire form that do not come back.
    A DS value with digest type 2 and a digest of 32 octets is encoded, in
    36 octets, and the decode of these returns an error after the first
    four.  An A record with the 4-octet address 192.0.2.1 is encoded in
    four octets and decoded without error, and the value decoded is not the
    value encoded: its address has 16 octets. *)
Lemma RData_roundtrip_counterexample :
  let ds := RD_DS {| DS.KeyTag := 12345; DS.AlgorithmType := 8;
                     DS.DigestType := 2; DS.Digest := repeat (b 171) 32 |} in
  let a := RD_A {| A.Address := [b 192; b 0; b 2; b 1] |} in
  (legal_rdata PlainName.legal ds /\
   exists w' d',
     RR.RData_Encode ds newWirebuf = Ok w' /\ length (Buf w') = 36 /\
     RR.RData_Decode (Buf w') (zero_like ds) 0
     = Ok (d', 4, Some "unsupported digest type 2"%string) /\
     d' <> ds) /\
  (legal_rdata PlainName.legal a /\
   exists w' v',
     RR.RData_Encode a newWirebuf = Ok w' /\
     Buf w' = [b 192; b 0; b 2; b 1] /\
     RR.RData_Decode (Buf w') (zero_like a) 0 = Ok (v', 4, None) /\
     v' <> a).
Proof.
  cbv zeta. split.
  - split; [repeat split|].
    eexists. eexists. split; [reflexivity|]. split; [reflexivity|].
    split; [reflexivity|]. discriminate.
  - split; [discriminate|].
    eexists. eexists. split; [reflexivity|]. split; [reflexivity|].
    split; [reflexivity|]. discriminate.
Qed.

Lemma unknown_type_passthrough_witness :
  ~ In 99%N decodeTable /\
  RR.newRData 99 = RD_RDATA RDATA.zero /\
  exists w',
    RR.Encode {| RR.Name := "mail.example."; RR.Type_ := 99; RR.Class := CLASS_IN;
                 RR.TTL := 3600; RR.RData_ := RD_RDATA [b 222; b 173] |} newWirebuf
    = Ok w' /\
    RR.Decode (Buf w') RR.zero 0
    = Ok ({| RR.Name := "mail.example."; RR.Type_ := 99; RR.Class := CLASS_IN;
             RR.TTL := 3600; RR.RData_ := RD_RDATA [b 222; b 173] |},
          length (Buf w'), None).
Proof.
  assert (H : ~ In 99%N decodeTable).
  { unfold decodeTable. cbn [In]. intros H.
    repeat (destruct H as [H | H]; [discriminate H|]). exact H. }
  split; [exact H|].
  destruct (Roundtrip.unknown_type_passthrough PlainName.legal
              PlainNameFacts.plain_laws 99%N H) as (Hnew & _ & Hrt).
  split; [exact Hnew|].
  apply (Hrt "mail.example."%string CLASS_IN 3600%Z [b 222; b 173] newWirebuf RR.zero).
  - exact legal_mail.
  - reflexivity.
  - reflexivity.
  - lia.
  - reflexivity.
Defined.

(** Two root names and nothing after them: the decode of [Serial] fails. *)
Lemma Decode_field_failure_witness :
  SOA.field_fails [x00; x00] 0 /\
  exists d' pos' e, SOA.Decode [x00; x00] SOA.zero 0 = Ok (d', pos', Some e).
Proof.
  assert (H : SOA.field_fails [x00; x00] 0).
  { right. exists "."%string, 1. split; [reflexivity|].
    right. exists "."%string, 2. split; [reflexivity|].
    cbv zeta. eexists. left. reflexivity. }
  split; [exact H|]. exact (SOAFacts.Decode_field_failure [x00; x00] SOA.zero 0 H).
Defined.

(** The same RRSIG with inception 0 and inception 1. *)
Example Equal_RRSIG_Inception_example :
  rr_sig 0 <> rr_sig 1 /\ RR.Equal (rr_sig 0) (rr_sig 1) = Ok true.
Proof.
  split; [discriminate | reflexivity].
Qed.

Lemma Encode_not_narrowable_witness :
  let a := {| A.Address := [b 1; b 2; b 3] |} in
  let a6 := {| AAAA.Address := [b 1; b 2; b 3] |} in
  To4 (A.Address a) = None /\ To16 (AAAA.Address a6) = None /\
  (exists msg, ip4.EncodeWith true (A.Address a) newWirebuf = Panic msg) /\
  A.Encode a newWirebuf = Ok newWirebuf /\
  (exists msg, ip6.EncodeWith true (AAAA.Address a6) newWirebuf = Panic msg) /\
  AAAA.Encode a6 newWirebuf = Ok newWirebuf.
Proof.
  cbv zeta. split; [reflexivity|]. split; [reflexivity|].
  apply AddressFacts.Encode_not_narrowable; reflexivity.
Defined.

(** The address 1.2.3 has three octets; [A.Encode] returns, having written
    nothing. *)
Lemma Encode_short_address_counterexample :
  let a := {| A.Address := [b 1; b 2; b 3] |} in
  To4 (A.Address a) = None /\
  A.Encode a newWirebuf = Ok newWirebuf /\
  ~ (exists msg, A.Encode a newWirebuf = Panic msg).
Proof.
  cbv zeta. split; [reflexivity|]. split; [reflexivity|].
  intros [msg H]. discriminate H.
Qed.


Lemma set_algebra_witness :
  let s := [rr_a "a.example."; rr_a "A.example."; rr_a "b.example."] in
  EqualDefined s /\
  exists u s',
    RRs.Unique s = Ok u /\ RRs.Unique u = Ok u /\
    length u <= length s /\
    RRs.SetAdd s s = Ok s' /\ length s' = length s.
Proof.
  cbv zeta.
  assert (H : EqualDefined [rr_a "a.example."; rr_a "A.example."; rr_a "b.example."]).
  { intros x y Hx Hy. cbn [In] in Hx, Hy.
    destruct Hx as [<- | [<- | [<- | []]]]; destruct Hy as [<- | [<- | [<- | []]]];
      eexists; reflexivity. }
  split; [exact H|]. exact (SetFacts.set_algebra _ H).
Defined.

Lemma recovers_text : @recovers fmtRecovers.
Proof. intros msg. eexists. reflexivity. Defined.

Lemma String_of_unknown_type_witness :
  lookup (RR.Type_ rr99) typeStr = None /\
  Type_String (RR.Type_ rr99) = Panic "unexpected Type 99" /\
  RR.newRData (RR.Type_ rr99) = RD_RDATA RDATA.zero /\
  exists class text rdata,
    catchPanic "unexpected Type 99" = Ok text /\
    RR.String rr99
    = Ok ("example." ++ tab ++ class ++ tab ++ "3600" ++ tab ++
          text ++ " " ++ rdata)%string.
Proof.
  split; [reflexivity|].
  destruct (StringFacts.String_of_unknown_type rr99 eq_refl) as (Ht & Hn & _ & Hr).
  split; [exact Ht|]. split; [exact Hn|]. exact (Hr recovers_text).
Defined.

(** Type 99 has no mnemonic and [Type.String] panics on it.  With a package
    fmt that recovers, as the current releases do, [RR.String] of the record
    returns. *)
Lemma String_unknown_type_counterexample :
  lookup (RR.Type_ rr99) typeStr = None /\
  Type_String (RR.Type_ rr99) = Panic "unexpected Type 99" /\
  RR.String rr99
  = Ok ("example." ++ tab ++ "IN" ++ tab ++ "3600" ++ tab ++
        "%!s(PANIC=String method: unexpected Type 99) \# 2 de ad")%string /\
  ~ (exists msg, RR.String rr99 = Panic msg).
Proof.
  split; [reflexivity|]. split; [reflexivity|]. split; [reflexivity|].
  intros [msg H]. discriminate H.
Qed.

(** With a package fmt that does not recover, [RR.String] of the same record
    panics with the value of [Type.String]. *)
Example String_unknown_type_panics :
  @RR.String groupsText hexLib fmtPanics rr99 = Panic "unexpected Type 99".
Proof. reflexivity. Qed.

(** ** Closed examples of the further properties *)

Ltac defined_on_list :=
  let x := fresh "x" in let y := fresh "y" in
  let Hx := fresh "Hx" in let Hy := fresh "Hy" in
  intros x y Hx Hy; cbn in Hx, Hy;
  repeat (destruct Hx as [<- | Hx]; [| try contradiction]);
  repeat (destruct Hy as [<- | Hy]; [| try contradiction]);
  eexists; reflexivity.

Lemma SetAdd_extends_witness :
  let r := [rr_a "a.example."] in
  let rrs := [rr_a "A.example."; rr_a "b.example."] in
  EqualDefined (r ++ rrs) /\
  RRs.SetAdd r rrs = Ok [rr_a "a.example."; rr_a "b.example."] /\
  exists added,
    RRs.SetAdd r rrs = Ok (r ++ added) /\ sublist added rrs /\
    length r <= length (r ++ added) <= length r + length rrs.
Proof.
  cbv zeta.
  assert (H : EqualDefined ([rr_a "a.example."] ++ [rr_a "A.example."; rr_a "b.example."]))
    by defined_on_list.
  split; [exact H|]. split; [reflexivity|].
  exact (SliceFacts.SetAdd_extends _ _ H).
Defined.

Lemma Unique_representatives_witness :
  EqualDefined three_a /\
  RRs.Unique three_a = Ok [rr_a "a.example."; rr_a "b.example."] /\
  exists u,
    RRs.Unique three_a = Ok u /\ sublist u three_a /\
    (forall p x q y, u = p ++ x :: q -> In y p -> RR.Equal x y = Ok false) /\
    (forall x, In x three_a -> exists y, In y u /\ RR.Equal x y = Ok true).
Proof.
  assert (H : EqualDefined three_a) by defined_on_list.
  split; [exact H|]. split; [reflexivity|].
  exact (SliceFacts.Unique_representatives three_a H).
Defined.

Lemma Partition_unique_witness :
  let order := nodup N.eq_dec (map RR.Type_ mixed) in
  order = [TYPE_CNAME; TYPE_A] /\
  range_of order mixed /\ EqualDefined mixed /\
  exists parts,
    RRs_Partition order true mixed = Ok parts /\
    forall typ,
      match of_type typ mixed with
      | [] => Parts.get typ parts = None
      | t :: l0 => exists u, RRs.Unique (t :: l0) = Ok u /\ Parts.get typ parts = Some u
      end.
Proof.
  cbv zeta.
  assert (Hr : range_of (nodup N.eq_dec (map RR.Type_ mixed)) mixed)
    by apply PartsFacts.types_range.
  assert (H : EqualDefined mixed) by defined_on_list.
  split; [reflexivity|]. split; [exact Hr|]. split; [exact H|].
  exact (PartsFacts.Partition_unique _ mixed Hr H).
Defined.

Lemma Join_Partition_witness :
  let order := nodup N.eq_dec (map RR.Type_ mixed) in
  range_of order mixed /\
  exists parts,
    RRs_Partition order false mixed = Ok parts /\
    Permutation (Parts.Join order parts) mixed /\
    length (Parts.Join order parts) = length mixed.
Proof.
  cbv zeta.
  assert (Hr : range_of (nodup N.eq_dec (map RR.Type_ mixed)) mixed)
    by apply PartsFacts.types_range.
  split; [exact Hr|]. exact (PartsFacts.Join_Partition _ mixed Hr).
Defined.

Lemma Parts_SetAdd_by_type_witness :
  let order := [TYPE_CNAME; TYPE_A] in
  range_over order parts_b /\
  EqualDefined (flat_map snd parts_a ++ flat_map snd parts_b) /\
  Parts.SetAdd order parts_a parts_b
  = Ok [ (TYPE_A, [rr_a "a.example."; rr_a "b.example."]);
         (TYPE_CNAME, [rr_upper; rr_lower]) ] /\
  exists a',
    Parts.SetAdd order parts_a parts_b = Ok a' /\
    forall typ,
      match Parts.get typ parts_b with
      | Some newrecs =>
          match Parts.get typ parts_a with
          | Some oldrecs =>
              exists u, RRs.SetAdd oldrecs newrecs = Ok u /\ Parts.get typ a' = Some u
          | None => Parts.get typ a' = Some newrecs
          end
      | None => Parts.get typ a' = Parts.get typ parts_a
      end.
Proof.
  cbv zeta.
  assert (Hr : range_over [TYPE_CNAME; TYPE_A] parts_b).
  { split.
    - repeat constructor; cbn [In]; intros H;
        repeat (destruct H as [H | H]; [discriminate H|]); exact H.
    - intros typ. cbn. tauto. }
  assert (H : EqualDefined (flat_map snd parts_a ++ flat_map snd parts_b))
    by defined_on_list.
  split; [exact Hr|]. split; [exact H|]. split; [reflexivity|].
  exact (PartsFacts.Parts_SetAdd_by_type _ parts_a parts_b Hr H).
Defined.

Lemma Equal_equivalence_witness :
  known (RR.RData_ rr_upper) /\
  same_variant (RR.RData_ rr_upper) (RR.RData_ rr_lower) = true /\
  RR.Equal rr_upper rr_upper = Ok true /\
  RR.Equal rr_lower rr_upper = RR.Equal rr_upper rr_lower /\
  (RR.Equal rr_upper rr_lower = Ok true -> RR.Equal rr_lower rr_lower = Ok true ->
   RR.Equal rr_upper rr_lower = Ok true) /\
  (forall ttl ttl',
      RR.Equal (RR.set_TTL ttl rr_upper) (RR.set_TTL ttl' rr_lower)
      = RR.Equal rr_upper rr_lower).
Proof.
  assert (Hk : known (RR.RData_ rr_upper)) by discriminate.
  split; [exact Hk|]. split; [reflexivity|].
  exact (EquivFacts.Equal_equivalence rr_upper rr_lower rr_lower Hk eq_refl).
Defined.

Lemma Equal_variant_mismatch_witness :
  same_header (rr_a "a.example.") rr_a_with_mx /\
  same_variant (RR.RData_ (rr_a "a.example.")) (RR.RData_ rr_a_with_mx) = false /\
  exists m, RR.Equal (rr_a "a.example.") rr_a_with_mx = Panic m.
Proof.
  assert (H : same_header (rr_a "a.example.") rr_a_with_mx)
    by (repeat split; reflexivity).
  split; [exact H|]. split; [reflexivity|].
  exact (EquivFacts.Equal_variant_mismatch (rr_a "a.example.") rr_a_with_mx H eq_refl).
Defined.

Lemma NSEC3PARAM_salt_length_witness :
  (NSEC3PARAM.HashAlgorithm long_salt < 256)%N /\
  (NSEC3PARAM.Flags long_salt < 256)%N /\
  (NSEC3PARAM.Iterations long_salt < 2 ^ 16)%N /\
  length (NSEC3PARAM.Salt long_salt) = 300 /\
  exists w',
    NSEC3PARAM.Encode long_salt newWirebuf = Ok w' /\
    length (Buf w') = 305 /\
    NSEC3PARAM.Decode (Buf w') NSEC3PARAM.zero 0
    = Ok (NSEC3PARAM.set_Salt (repeat (b 170) 44) long_salt, 49, None).
Proof.
  split; [reflexivity|]. split; [reflexivity|]. split; [reflexivity|].
  split; [reflexivity|].
  exact (DecodeFacts.NSEC3PARAM_salt_length long_salt newWirebuf NSEC3PARAM.zero
           eq_refl eq_refl eq_refl).
Defined.

Lemma TXT_Decode_concatenates_witness :
  let parts := ["v=spf1 "; "-all"]%string in
  Forall (fun p => String.length p <= 255) parts /\
  TXT.Decode (flat_map CharString_wire parts) TXT.zero 0
  = Ok ({| TXT.S := "v=spf1 -all" |}, 13, None) /\
  forall w,
    TXT.Encode {| TXT.S := "v=spf1 -all" |} w
    = Ok (wappend w (CharString_wire "v=spf1 -all")).
Proof.
  cbv zeta.
  assert (H : Forall (fun p => String.length p <= 255) ["v=spf1 "; "-all"]%string)
    by (repeat constructor; simpl; lia).
  split; [exact H|].
  exact (DecodeFacts.TXT_Decode_concatenates _ [] TXT.zero H).
Defined.

Lemma Decode_A_ignores_RDLENGTH_witness :
  header_at wire_a6 0 "a." TYPE_A CLASS_IN 60 6 13 /\
  13 + N.to_nat 6 <= length wire_a6 /\
  RR.Decode wire_a6 RR.zero 0
  = Ok ({| RR.Name := "a."; RR.Type_ := TYPE_A; RR.Class := CLASS_IN; RR.TTL := 60;
           RR.RData_ := RD_A {| A.Address := IPv4 (b 192) (b 0) (b 2) (b 1) |} |},
        17, None).
Proof.
  assert (H : header_at wire_a6 0 "a." TYPE_A CLASS_IN 60 6 13).
  { exists 3. repeat split; reflexivity. }
  assert (Hn : 13 + N.to_nat 6 <= length wire_a6) by (simpl; lia).
  split; [exact H|]. split; [exact Hn|].
  refine (proj1 (EnvelopeFacts.Decode_A_ignores_RDLENGTH wire_a6 RR.zero 0 "a."
                   CLASS_IN 60 6 13 H Hn) _).
  simpl. lia.
Defined.

Lemma RR_roundtrip_witness :
  let rr := rr_a "mail.example." in
  PlainName.legal (RR.Name rr) /\
  (RR.Type_ rr < 2 ^ 16)%N /\ (RR.Class rr < 2 ^ 16)%N /\
  (- 2 ^ 31 <= RR.TTL rr < 2 ^ 31)%Z /\
  name_free (RR.RData_ rr) = true /\
  legal_rdata PlainName.legal (RR.RData_ rr) /\
  decodable (RR.RData_ rr) /\
  RR.newRData (RR.Type_ rr) = zero_like (RR.RData_ rr) /\
  (N.of_nat (length (RData_wire (RR.RData_ rr))) < 2 ^ 16)%N /\
  exists w',
    RR.Encode rr newWirebuf = Ok w' /\
    RR.Decode (Buf w') RR.zero (length (Buf newWirebuf))
    = Ok (RR.set_RData (decoded_form (RR.RData_ rr)) rr, length (Buf w'), None).
Proof.
  cbv zeta.
  assert (Ht : (- 2 ^ 31 <= RR.TTL (rr_a "mail.example.") < 2 ^ 31)%Z)
    by (split; [discriminate | reflexivity]).
  assert (Hl : legal_rdata PlainName.legal (RR.RData_ (rr_a "mail.example.")))
    by discriminate.
  split; [exact legal_mail|]. split; [reflexivity|]. split; [reflexivity|].
  split; [exact Ht|]. split; [reflexivity|]. split; [exact Hl|].
  split; [exact I|]. split; [reflexivity|]. split; [reflexivity|].
  exact (EnvelopeFacts.RR_roundtrip PlainName.legal PlainNameFacts.plain_laws
           (rr_a "mail.example.") RR.zero newWirebuf
           legal_mail eq_refl eq_refl Ht eq_refl Hl I eq_refl eq_refl).
Defined.

Lemma newline_rule_witness :
  let l := lex_on sc_RRHEAD [nl; "a"%char] in
  In (startCond_ l) declared /\ (peek l = nl \/ peek l = cr) /\
  inParen l = false /\
  Lex l lval0 = Ok (T_char nl, took l, set_str (String (peek l) "") lval0).
Proof.
  cbv zeta.
  assert (Hd : In (startCond_ (lex_on sc_RRHEAD [nl; "a"%char])) declared)
    by (cbn; tauto).
  assert (Hp : peek (lex_on sc_RRHEAD [nl; "a"%char]) = nl
               \/ peek (lex_on sc_RRHEAD [nl; "a"%char]) = cr)
    by (left; reflexivity).
  split; [exact Hd|]. split; [exact Hp|]. split; [reflexivity|].
  exact (LexFacts.newline_rule (lex_on sc_RRHEAD [nl; "a"%char]) lval0 Hd Hp).
Defined.

Lemma paren_rules_witness :
  let l := lex_on sc_RRHEAD [")"%char; "a"%char] in
  In (startCond_ l) declared /\ peek l = ")"%char /\ inParen l = false /\
  Lex l lval0
  = l' <- Error (took l) ("enexpected " ++ String dquote ")" ++ String dquote "") ;;
    Ok (T_char nl, set_inParen false l', set_str ")" lval0).
Proof.
  cbv zeta.
  assert (Hd : In (startCond_ (lex_on sc_RRHEAD [")"%char; "a"%char])) declared)
    by (cbn; tauto).
  split; [exact Hd|]. split; [reflexivity|]. split; [reflexivity|].
  exact (proj2 (LexFacts.paren_rules (lex_on sc_RRHEAD [")"%char; "a"%char]) lval0 Hd)
           eq_refl).
Defined.

Lemma Lex_at_end_witness :
  let l := lex_on sc_INITIAL [] in
  let l' := fst (getc x00 (set_buf [] l)) in
  In (startCond_ l) declared /\ peek l = x00 /\
  Lex l lval0 = Ok (T_char x00, l', lval0) /\
  startCond_ l' = startCond_ l /\ inParen l' = inParen l /\
  (src l = [] -> peek l' = x00 /\ src l' = []).
Proof.
  cbv zeta.
  assert (Hd : In (startCond_ (lex_on sc_INITIAL [])) declared) by (cbn; tauto).
  split; [exact Hd|]. split; [reflexivity|].
  exact (LexFacts.Lex_at_end (lex_on sc_INITIAL []) lval0 Hd eq_refl).
Defined.

Lemma number_token_witness :
  let l := lex_on sc_NUM (twenty_nines ++ [" "%char]) in
  (startCond_ l = sc_RRHEAD \/ startCond_ l = sc_NUM) /\
  Forall (fun c => is_digit c = true) twenty_nines /\
  is_digit (hd x00 [" "%char]) = false /\
  ahead l = twenty_nines ++ [" "%char] /\
  Atoui64 twenty_nines = None /\
  Lex l lval0 = Panic ("invalid number " ++ fmt_q twenty_nines).
Proof.
  cbv zeta.
  assert (Hs : startCond_ (lex_on sc_NUM (twenty_nines ++ [" "%char])) = sc_RRHEAD
               \/ startCond_ (lex_on sc_NUM (twenty_nines ++ [" "%char])) = sc_NUM)
    by (right; reflexivity).
  assert (Hf : Forall (fun c => is_digit c = true) twenty_nines)
    by (repeat constructor).
  split; [exact Hs|]. split; [exact Hf|]. split; [reflexivity|].
  split; [reflexivity|]. split; [reflexivity|].
  exact (proj2 (proj2 (proj2
    (TokenFacts.number_token (lex_on sc_NUM (twenty_nines ++ [" "%char])) lval0
       "9"%char (repeat "9"%char 19) [" "%char] Hs Hf eq_refl eq_refl)))).
Defined.

Lemma hex_token_witness :
  let l := lex_on sc_HEX (bytes_of_string "abc ") in
  startCond_ l = sc_HEX /\
  Forall (fun c => is_hex c = true) (bytes_of_string "abc") /\
  is_hex (hd x00 [" "%char]) = false /\
  ahead l = bytes_of_string "abc" ++ [" "%char] /\
  hex_DecodeString (bytes_of_string "abc") = None /\
  Lex l lval0 = Panic "zone:1:4 - expected hex string".
Proof.
  cbv zeta.
  assert (Hf : Forall (fun c => is_hex c = true) (bytes_of_string "abc"))
    by (repeat constructor).
  split; [reflexivity|]. split; [exact Hf|]. split; [reflexivity|].
  split; [reflexivity|]. split; [reflexivity|].
  exact (proj2 (proj2 (proj2
    (TokenFacts.hex_token (lex_on sc_HEX (bytes_of_string "abc ")) lval0
       "a"%char ["b"%char; "c"%char] [" "%char] eq_refl Hf eq_refl eq_refl)))).
Defined.

Lemma quoted_string_token_witness :
  let bs := ["a"%char; backslash; dquote; "b"%char] in
  let l := lex_on sc_RRHEAD ((dquote :: bs ++ [dquote]) ++ [" "%char]) in
  let l' := advance (length (dquote :: bs ++ [dquote])) (set_buf [] l) in
  In (startCond_ l) declared /\ quoted_text bs /\
  ahead l = (dquote :: bs ++ [dquote]) ++ [" "%char] /\
  unescape_quotes bs = ["a"%char; dquote; "b"%char] /\
  buf l' = dquote :: bs ++ [dquote] /\
  peek l' = hd x00 [" "%char] /\ src l' = tl [" "%char] /\
  Lex l lval0 = Ok (tQSTR, l', set_str (string_of_bytes (unescape_quotes bs)) lval0).
Proof.
  cbv zeta.
  assert (Hq : quoted_text ["a"%char; backslash; dquote; "b"%char]).
  { apply qt_plain; [reflexivity|].
    apply qt_escape; [reflexivity | discriminate |].
    apply qt_plain; [reflexivity|]. apply qt_nil. }
  match goal with |- In (startCond_ ?l) _ /\ _ =>
    assert (Hd : In (startCond_ l) declared) by (cbn; tauto) end.
  split; [exact Hd|]. split; [exact Hq|]. split; [reflexivity|].
  split; [reflexivity|].
  exact (QuotedFacts.quoted_string_token _ lval0 _ [" "%char] Hd Hq eq_refl).
Defined.

Lemma TXT_String_scans_back_witness :
  let l :=
    lex_on sc_RRHEAD
      (bytes_of_string (quote ++ escape_quotes quote_inside ++ quote) ++ [" "%char]) in
  In (startCond_ l) declared /\
  Forall (fun c => plain_char c = true \/ c = dquote) (bytes_of_string quote_inside) /\
  ahead l
  = bytes_of_string (quote ++ escape_quotes quote_inside ++ quote) ++ [" "%char] /\
  TXT_String {| TXT.S := quote_inside |}
  = Ok (quote ++ escape_quotes quote_inside ++ quote)%string /\
  exists l',
    Lex l lval0 = Ok (tQSTR, l', set_str quote_inside lval0) /\
    peek l' = hd x00 [" "%char] /\ src l' = tl [" "%char].
Proof.
  cbv zeta.
  assert (Hf : Forall (fun c => plain_char c = true \/ c = dquote)
                 (bytes_of_string quote_inside)).
  { repeat constructor; first [left; reflexivity | right; reflexivity]. }
  match goal with |- In (startCond_ ?l) _ /\ _ =>
    assert (Hd : In (startCond_ l) declared) by (cbn; tauto) end.
  split; [exact Hd|]. split; [exact Hf|]. split; [reflexivity|].
  exact (QuotedFacts.TXT_String_scans_back quote_inside _ lval0 [" "%char]
           Hd Hf eq_refl).
Defined.

Lemma base_text_tokens_witness :
  let l := lex_on sc_BASE64 (bytes_of_string "aGk= ") in
  let l' := advance 4 (set_buf [] l) in
  ahead l = bytes_of_string "aGk=" ++ [" "%char] /\
  startCond_ l = sc_BASE64 /\
  Forall (fun c => is_base64 c = true) (bytes_of_string "aGk=") /\
  is_base64 (hd x00 [" "%char]) = false /\
  Lex l lval0 = Ok (tBASE64, l', set_str "aGk=" lval0) /\
  buf l' = bytes_of_string "aGk=" /\ peek l' = " "%char /\ src l' = [].
Proof.
  cbv zeta.
  assert (Hf : Forall (fun c => is_base64 c = true) (bytes_of_string "aGk="))
    by (repeat constructor).
  split; [reflexivity|]. split; [reflexivity|]. split; [exact Hf|].
  split; [reflexivity|].
  exact (proj2 (TokenFacts.base_text_tokens (lex_on sc_BASE64 (bytes_of_string "aGk= "))
                  lval0 "a"%char (bytes_of_string "Gk=") [" "%char] eq_refl)
           eq_refl Hf eq_refl).
Defined.

Lemma type_text_scans_back_witness :
  let l := lex_on sc_RRHEAD (bytes_of_string "NXDOMAIN x") in
  (startCond_ l = sc_RRHEAD \/ startCond_ l = sc_TYPE) /\
  In (TYPE_NXDOMAIN, "NXDOMAIN"%string) typeStr /\
  ahead l = bytes_of_string "NXDOMAIN" ++ " "%char :: ["x"%char] /\
  existsb (String.eqb "NXDOMAIN") type_mnemonics = false /\
  exists l' lval', Lex l lval0 = Ok (ReplacementChar, l', lval').
Proof.
  cbv zeta.
  assert (Hs : startCond_ (lex_on sc_RRHEAD (bytes_of_string "NXDOMAIN x")) = sc_RRHEAD
               \/ startCond_ (lex_on sc_RRHEAD (bytes_of_string "NXDOMAIN x")) = sc_TYPE)
    by (left; reflexivity).
  assert (Hi : In (TYPE_NXDOMAIN, "NXDOMAIN"%string) typeStr).
  { unfold typeStr. cbn [In]. repeat first [left; reflexivity | right]. }
  split; [exact Hs|]. split; [exact Hi|]. split; [reflexivity|].
  split; [reflexivity|].
  exact (proj2 (MnemonicFacts.type_text_scans_back
                  (lex_on sc_RRHEAD (bytes_of_string "NXDOMAIN x")) lval0
                  TYPE_NXDOMAIN "NXDOMAIN" ["x"%char] Hs Hi eq_refl)).
Defined.

Lemma Lex_returns_witness :
  let l := lex_on sc_RRHEAD (bytes_of_string "IN A") in
  In (startCond_ l) declared /\
  ((exists tok l' lval',
       Lex l lval0 = Ok (tok, l', lval') /\ startCond_ l' = startCond_ l) \/
   (exists msg, Lex l lval0 = Panic msg)).
Proof.
  cbv zeta.
  assert (Hd : In (startCond_ (lex_on sc_RRHEAD (bytes_of_string "IN A"))) declared)
    by (cbn; tauto).
  split; [exact Hd|]. exact (RoundFacts.Lex_returns _ lval0 Hd).
Defined.

Lemma blanks_rule_witness :
  let l := lex_on sc_INITIAL (bytes_of_string "  IN") in
  let l' := advance 2 (set_buf [] l) in
  In (startCond_ l) declared /\
  Forall (fun c => is_blank c = true) (bytes_of_string "  ") /\
  is_blank "I" = false /\ "I"%char <> ";"%char /\
  ahead l = bytes_of_string "  " ++ bytes_of_string "IN" /\
  at_bol l = true /\
  peek l' = "I"%char /\ src l' = ["N"%char] /\
  Lex l lval0 = Ok (tBLANK_START, l', set_str "  " lval0).
Proof.
  cbv zeta.
  assert (Hd : In (startCond_ (lex_on sc_INITIAL (bytes_of_string "  IN"))) declared)
    by (cbn; tauto).
  assert (Hf : Forall (fun c => is_blank c = true) (bytes_of_string "  "))
    by (repeat constructor).
  assert (Hs : hd x00 (bytes_of_string "IN") <> ";"%char) by discriminate.
  split; [exact Hd|]. split; [exact Hf|]. split; [reflexivity|].
  split; [exact Hs|]. split; [reflexivity|]. split; [reflexivity|].
  exact (SkipFacts.blanks_rule (lex_on sc_INITIAL (bytes_of_string "  IN")) lval0
           " "%char [" "%char] (bytes_of_string "IN") Hd Hf eq_refl Hs eq_refl).
Defined.

Lemma comment_rule_witness :
  let l := lex_on sc_RRHEAD (bytes_of_string " ; x" ++ [nl]) in
  let l' := advance 4 (set_buf [] l) in
  In (startCond_ l) declared /\
  Forall (fun c => is_blank c = true) [" "%char] /\
  Forall (fun c => any_char c = true) (bytes_of_string " x") /\
  any_char (hd x00 [nl]) = false /\
  ahead l = ([" "%char] ++ ";"%char :: bytes_of_string " x") ++ [nl] /\
  peek l' = nl /\ src l' = [] /\
  startCond_ l' = startCond_ l /\ inParen l' = inParen l /\
  Lex l lval0 = Lex l' lval0.
Proof.
  cbv zeta.
  assert (Hd : In (startCond_ (lex_on sc_RRHEAD (bytes_of_string " ; x" ++ [nl])))
                  declared) by (cbn; tauto).
  assert (Hb : Forall (fun c => is_blank c = true) [" "%char]) by (repeat constructor).
  assert (Ht : Forall (fun c => any_char c = true) (bytes_of_string " x"))
    by (repeat constructor).
  split; [exact Hd|]. split; [exact Hb|]. split; [exact Ht|].
  split; [reflexivity|]. split; [reflexivity|].
  exact (SkipFacts.comment_rule (lex_on sc_RRHEAD (bytes_of_string " ; x" ++ [nl]))
           lval0 [" "%char] (bytes_of_string " x") [nl] Hd Hb Ht eq_refl eq_refl).
Defined.

Lemma continuation_lines_witness :
  let l := set_inParen true (lex_on sc_RRHEAD [nl; "1"%char]) in
  In (startCond_ l) declared /\ inParen l = true /\ peek l = nl /\
  Lex l lval0 = Lex (took l) lval0 /\ inParen (took l) = true.
Proof.
  cbv zeta.
  assert (Hd : In (startCond_ (set_inParen true (lex_on sc_RRHEAD [nl; "1"%char])))
                  declared) by (cbn; tauto).
  split; [exact Hd|]. split; [reflexivity|]. split; [reflexivity|].
  exact (proj1 (SkipFacts.continuation_lines _ lval0 Hd) eq_refl
           (or_introl eq_refl)).
Defined.

(** ** The scanner on a record of two lines and on two errors *)



